(** * SolverKKT: a shallow embedding of [src/core/solvers/kkt.cpp]

    The solver assembles the full-horizon KKT system of a shooting problem,
    solves it, slices the solution into per-stage directions, runs a
    backtracking line search and adapts a Levenberg-Marquardt style
    regularization.

    Numbers.  A C++ [double] is modelled by [double] below: either [NaN] or
    an exact rational.  Rounding, overflow, underflow and the infinities
    are not modelled; [NaN] is, because the code tests for it
    ([std::isnan]) and because it poisons arithmetic and comparisons.  A
    statement that holds of exact numbers only (a sum of squares vanishes
    only if every term does, which underflow breaks) is not made of the
    program.

    Eigen.  Dense vectors are lists, dense matrices are lists of rows.
    Eigen expressions ([-A], [A.transpose()], [Identity]) are evaluated
    coefficient by coefficient, so a block assignment is a coefficient-wise
    overwrite of the destination.  Eigen's debug assertions on dimensions are
    preconditions of the theorems, not part of the functions; a read outside
    a buffer yields [NaN], a write outside a buffer is dropped.

    Collaborators.  The shooting problem, its stage models and data, the
    base class [SolverAbstract] and the Cholesky engine are outside
    [kkt.cpp].  The problem is a record of what the solver reads from it; the
    engine is a member of the solver that, given a matrix and a right-hand
    side, answers with a solution.  The [catch] of [solve] is written for an
    engine that throws, so the model lets an engine do so ([None]); the
    engine the object has, [Eigen::LLT], does not: its [compute] records a
    failed factorization in [info()], which [kkt.cpp] never reads, and
    [solveInPlace] answers all the same.  What is stated of the program is
    stated of engines that answer every system ([never_refuses]).

    Control.  Member functions are functions on the solver object.  An
    exception that [solve] catches is an [option] or a flag in the result.
    [solve] itself is a transition function over its control points, so that
    a property can be stated at every point of a run and a run that never
    returns is a run that never reaches [Returned]. *)

From Stdlib Require Import QArith Qabs Lqa Lia.
From stdpp Require Import base list.

Set Default Proof Using "Type".
Open Scope nat_scope.

(** ** Scalars *)

Inductive double : Type :=
| NaN : double
| Fin (q : Q) : double.

Declare Scope double_scope.
Delimit Scope double_scope with D.
Bind Scope double_scope with double.

Definition isnan (d : double) : bool :=
  match d with NaN => true | Fin _ => false end.

Definition lift2 (f : Q -> Q -> Q) (a b : double) : double :=
  match a, b with
  | Fin x, Fin y => Fin (f x y)
  | _, _ => NaN
  end.

Definition dadd : double -> double -> double := lift2 Qplus.
Definition dsub : double -> double -> double := lift2 Qminus.
Definition dmul : double -> double -> double := lift2 Qmult.

(** Division by zero leaves the finite numbers; the model has one
    non-finite value. *)
Definition ddiv (a b : double) : double :=
  match a, b with
  | Fin x, Fin y => if Qeq_bool y 0 then NaN else Fin (x / y)
  | _, _ => NaN
  end.

Definition dopp (a : double) : double :=
  match a with Fin x => Fin (- x) | NaN => NaN end.

(** Comparisons are false as soon as one side is [NaN]. *)
Definition dltb (a b : double) : bool :=
  match a, b with
  | Fin x, Fin y => negb (Qle_bool y x)
  | _, _ => false
  end.

Definition dgtb (a b : double) : bool := dltb b a.

Definition deqb (a b : double) : bool :=
  match a, b with
  | Fin x, Fin y => Qeq_bool x y
  | _, _ => false
  end.

Infix "+" := dadd : double_scope.
Infix "-" := dsub : double_scope.
Infix "*" := dmul : double_scope.
Infix "/" := ddiv : double_scope.
Notation "- x" := (dopp x) : double_scope.
Infix "<?" := dltb : double_scope.
Infix ">?" := dgtb (at level 70) : double_scope.
Infix "=?" := deqb : double_scope.

Definition d0 : double := Fin 0.
Definition d1 : double := Fin 1.

(** [a <= b] as a proposition, for bounds: both sides are numbers. *)
Definition dle (a b : double) : Prop :=
  match a, b with
  | Fin x, Fin y => (x <= y)%Q
  | _, _ => False
  end.

(** [a] is the number zero. *)
Definition dzero (a : double) : Prop :=
  match a with Fin x => (x == 0)%Q | NaN => False end.

Global Instance double_inhabited : Inhabited double := populate NaN.

(** [pow(2., n)] for a natural exponent. *)
Definition dpow2 (n : nat) : double := Fin (inject_Z (2 ^ Z.of_nat n)).

(** ** Dense vectors and matrices *)

Abbreviation vec := (list double).
Abbreviation mat := (list (list double)).

(** A coefficient expression: what Eigen evaluates entry by entry. *)
Definition expr : Type := nat -> nat -> double.

Definition vat (v : vec) (k : nat) : double := v !!! k.
Definition mat_at (M : mat) : expr := fun i j => (M !!! i) !!! j.

Definition etranspose (e : expr) : expr := fun i j => e j i.
Definition eopp (e : expr) : expr := fun i j => (- e i j)%D.
Definition eblock (r c : nat) (e : expr) : expr := fun i j => e (r + i) (c + j).
Definition eIdentity : expr := fun i j => if Nat.eqb i j then d1 else d0.

Definition in_range (lo len k : nat) : bool :=
  Nat.leb lo k && Nat.ltb k (lo + len).

(** Coefficient-wise update of a matrix. *)
Definition mmap_ij (f : nat -> nat -> double -> double) (K : mat) : mat :=
  imap (fun i row => imap (fun j x => f i j x) row) K.

(** What an assignment does to the coefficient at [(i, j)], holding [x]:
    [K.block(r, c, h, w) = e] overwrites inside the block, ... *)
Definition wblock (r c h w : nat) (e : expr) : nat -> nat -> double -> double :=
  fun i j x => if in_range r h i && in_range c w j then e (i - r) (j - c) else x.

(** ... and [K.block(r, r, n, n).diagonal().array() += a] adds on the
    diagonal of the block. *)
Definition wdiag (r n : nat) (a : double) : nat -> nat -> double -> double :=
  fun i j x => if Nat.eqb i j && in_range r n i then (x + a)%D else x.

(** [K.block(r, c, h, w) = e] *)
Definition set_block (r c h w : nat) (e : expr) (K : mat) : mat :=
  mmap_ij (wblock r c h w e) K.

(** [K.block(r, r, n, n).diagonal().array() += a] *)
Definition add_diag (r n : nat) (a : double) (K : mat) : mat :=
  mmap_ij (wdiag r n a) K.

(** [K.block(r, c, h, w)] read as a matrix of its own. *)
Definition get_block (r c h w : nat) (K : mat) : mat :=
  (fun i => (fun j => mat_at K (r + i) (c + j)) <$> seq 0 w) <$> seq 0 h.

(** [v.segment(i, n)] *)
Definition segment (i n : nat) (v : vec) : vec := take n (drop i v).

(** [v.segment(i, n) = src] *)
Definition wseg (i n : nat) (src : vec) : nat -> double -> double :=
  fun k x => if in_range i n k then vat src (k - i) else x.

Definition set_segment (i n : nat) (src : vec) (v : vec) : vec :=
  imap (wseg i n src) v.

Definition vadd (u v : vec) : vec := zip_with dadd u v.
Definition vsub (u v : vec) : vec := zip_with dsub u v.
Definition vscale (a : double) (v : vec) : vec := (dmul a) <$> v.
Definition vopp (v : vec) : vec := dopp <$> v.
Definition mopp (M : mat) : mat := fmap (M:=list) (fmap (M:=list) dopp) M.

Definition dsum (v : vec) : double := foldr dadd d0 v.
Definition dot (u v : vec) : double := dsum (zip_with dmul u v).
Definition squaredNorm (v : vec) : double := dsum ((fun x => x * x)%D <$> v).
Definition matvec (M : mat) (v : vec) : vec := (fun row => dot row v) <$> M.

Definition vzeros (n : nat) : vec := replicate n d0.
Definition mzeros (h w : nat) : mat := replicate h (vzeros w).

(** ** The problem collaborator

    Stage models, their data and the shooting problem live outside
    [kkt.cpp]; the solver sees them through the accessors below.  What the
    problem computes ([calc], [calcDiff]) and the manifold operators are
    taken as they come. *)

Record StateAbstract : Type := {
  get_nx : nat;
  get_ndx : nat;
  diff : vec -> vec -> vec;
  integrate : vec -> vec -> vec;
  zero : vec
}.

Record ActionModelAbstract : Type := {
  get_state : StateAbstract;
  get_nu : nat
}.

Record ActionDataAbstract : Type := {
  get_Lx : vec;
  get_Lu : vec;
  get_Lxx : mat;
  get_Lxu : mat;
  get_Luu : mat;
  get_Fx : mat;
  get_Fu : mat;
  get_xnext : vec
}.

(** The data the problem owns and rewrites on every evaluation. *)
Record ProblemData : Type := {
  running_datas_ : list ActionDataAbstract;
  terminal_data_ : ActionDataAbstract
}.

(** [problem_calc] may throw (no cost comes back); the data it has written
    until then stay written. *)
Record ShootingProblem : Type := {
  get_x0 : vec;
  running_models_ : list ActionModelAbstract;
  terminal_model_ : ActionModelAbstract;
  problem_calc : ProblemData -> list vec -> list vec -> ProblemData * option double;
  problem_calcDiff : ProblemData -> list vec -> list vec -> ProblemData * double
}.

Definition get_T (P : ShootingProblem) : nat := length (running_models_ P).

Global Instance StateAbstract_inhabited : Inhabited StateAbstract :=
  populate {| get_nx := 0; get_ndx := 0; diff := fun _ _ => [];
              integrate := fun x _ => x; zero := [] |}.
Global Instance ActionModelAbstract_inhabited : Inhabited ActionModelAbstract :=
  populate {| get_state := inhabitant; get_nu := 0 |}.
Global Instance ActionDataAbstract_inhabited : Inhabited ActionDataAbstract :=
  populate {| get_Lx := []; get_Lu := []; get_Lxx := []; get_Lxu := []; get_Luu := [];
              get_Fx := []; get_Fu := []; get_xnext := [] |}.

(** ** The solver object

    The members of [SolverAbstract] and [SolverKKT] that [kkt.cpp] reads or
    writes.  [datas_] is the data store of [problem_]; [kkt_llt_] is the
    Cholesky engine: from a matrix and a right-hand side it gives its
    answer, or nothing where an engine throws ([Eigen::LLT] never does). *)

Record SolverKKT : Type := mkSolverKKT {
  problem_ : ShootingProblem;
  datas_ : ProblemData;
  xs_ : list vec;
  us_ : list vec;
  is_feasible_ : bool;
  cost_ : double;
  stop_ : double;
  d_ : double * double;
  xreg_ : double;
  ureg_ : double;
  steplength_ : double;
  dV_ : double;
  dVexp_ : double;
  th_acceptstep_ : double;
  th_stop_ : double;
  iter_ : nat;
  regfactor_ : double;
  regmin_ : double;
  regmax_ : double;
  cost_try_ : double;
  th_grad_ : double;
  th_step_ : double;
  was_feasible_ : bool;
  alphas_ : list double;
  xs_try_ : list vec;
  us_try_ : list vec;
  dxs_ : list vec;
  dus_ : list vec;
  lambdas_ : list vec;
  nx_ : nat;
  ndx_ : nat;
  nu_ : nat;
  kkt_ : mat;
  kktref_ : vec;
  primaldual_ : vec;
  primal_ : vec;
  dual_ : vec;
  kkt_primal_ : vec;
  kkt_llt_ : mat -> vec -> option vec
}.

(** Assignment to one member; every other member is carried over. *)
Definition set_datas_ (v : ProblemData) (s : SolverKKT) : SolverKKT :=
  mkSolverKKT
    (problem_ s) v (xs_ s) (us_ s) (is_feasible_ s) (cost_ s) (stop_ s) (d_ s) (xreg_ s)
    (ureg_ s) (steplength_ s) (dV_ s) (dVexp_ s) (th_acceptstep_ s) (th_stop_ s) (iter_ s)
    (regfactor_ s) (regmin_ s) (regmax_ s) (cost_try_ s) (th_grad_ s) (th_step_ s)
    (was_feasible_ s) (alphas_ s) (xs_try_ s) (us_try_ s) (dxs_ s) (dus_ s) (lambdas_ s)
    (nx_ s) (ndx_ s) (nu_ s) (kkt_ s) (kktref_ s) (primaldual_ s) (primal_ s) (dual_ s)
    (kkt_primal_ s) (kkt_llt_ s).
Definition set_xs_ (v : list vec) (s : SolverKKT) : SolverKKT :=
  mkSolverKKT
    (problem_ s) (datas_ s) v (us_ s) (is_feasible_ s) (cost_ s) (stop_ s) (d_ s) (xreg_ s)
    (ureg_ s) (steplength_ s) (dV_ s) (dVexp_ s) (th_acceptstep_ s) (th_stop_ s) (iter_ s)
    (regfactor_ s) (regmin_ s) (regmax_ s) (cost_try_ s) (th_grad_ s) (th_step_ s)
    (was_feasible_ s) (alphas_ s) (xs_try_ s) (us_try_ s) (dxs_ s) (dus_ s) (lambdas_ s)
    (nx_ s) (ndx_ s) (nu_ s) (kkt_ s) (kktref_ s) (primaldual_ s) (primal_ s) (dual_ s)
    (kkt_primal_ s) (kkt_llt_ s).
Definition set_us_ (v : list vec) (s : SolverKKT) : SolverKKT :=
  mkSolverKKT
    (problem_ s) (datas_ s) (xs_ s) v (is_feasible_ s) (cost_ s) (stop_ s) (d_ s) (xreg_ s)
    (ureg_ s) (steplength_ s) (dV_ s) (dVexp_ s) (th_acceptstep_ s) (th_stop_ s) (iter_ s)
    (regfactor_ s) (regmin_ s) (regmax_ s) (cost_try_ s) (th_grad_ s) (th_step_ s)
    (was_feasible_ s) (alphas_ s) (xs_try_ s) (us_try_ s) (dxs_ s) (dus_ s) (lambdas_ s)
    (nx_ s) (ndx_ s) (nu_ s) (kkt_ s) (kktref_ s) (primaldual_ s) (primal_ s) (dual_ s)
    (kkt_primal_ s) (kkt_llt_ s).
Definition set_is_feasible_ (v : bool) (s : SolverKKT) : SolverKKT :=
  mkSolverKKT
    (problem_ s) (datas_ s) (xs_ s) (us_ s) v (cost_ s) (stop_ s) (d_ s) (xreg_ s) (ureg_ s)
    (steplength_ s) (dV_ s) (dVexp_ s) (th_acceptstep_ s) (th_stop_ s) (iter_ s) (regfactor_ s)
    (regmin_ s) (regmax_ s) (cost_try_ s) (th_grad_ s) (th_step_ s) (was_feasible_ s)
    (alphas_ s) (xs_try_ s) (us_try_ s) (dxs_ s) (dus_ s) (lambdas_ s) (nx_ s) (ndx_ s) (nu_ s)
    (kkt_ s) (kktref_ s) (primaldual_ s) (primal_ s) (dual_ s) (kkt_primal_ s) (kkt_llt_ s).
Definition set_cost_ (v : double) (s : SolverKKT) : SolverKKT :=
  mkSolverKKT
    (problem_ s) (datas_ s) (xs_ s) (us_ s) (is_feasible_ s) v (stop_ s) (d_ s) (xreg_ s)
    (ureg_ s) (steplength_ s) (dV_ s) (dVexp_ s) (th_acceptstep_ s) (th_stop_ s) (iter_ s)
    (regfactor_ s) (regmin_ s) (regmax_ s) (cost_try_ s) (th_grad_ s) (th_step_ s)
    (was_feasible_ s) (alphas_ s) (xs_try_ s) (us_try_ s) (dxs_ s) (dus_ s) (lambdas_ s)
    (nx_ s) (ndx_ s) (nu_ s) (kkt_ s) (kktref_ s) (primaldual_ s) (primal_ s) (dual_ s)
    (kkt_primal_ s) (kkt_llt_ s).
Definition set_stop_ (v : double) (s : SolverKKT) : SolverKKT :=
  mkSolverKKT
    (problem_ s) (datas_ s) (xs_ s) (us_ s) (is_feasible_ s) (cost_ s) v (d_ s) (xreg_ s)
    (ureg_ s) (steplength_ s) (dV_ s) (dVexp_ s) (th_acceptstep_ s) (th_stop_ s) (iter_ s)
    (regfactor_ s) (regmin_ s) (regmax_ s) (cost_try_ s) (th_grad_ s) (th_step_ s)
    (was_feasible_ s) (alphas_ s) (xs_try_ s) (us_try_ s) (dxs_ s) (dus_ s) (lambdas_ s)
    (nx_ s) (ndx_ s) (nu_ s) (kkt_ s) (kktref_ s) (primaldual_ s) (primal_ s) (dual_ s)
    (kkt_primal_ s) (kkt_llt_ s).
Definition set_d_ (v : double * double) (s : SolverKKT) : SolverKKT :=
  mkSolverKKT
    (problem_ s) (datas_ s) (xs_ s) (us_ s) (is_feasible_ s) (cost_ s) (stop_ s) v (xreg_ s)
    (ureg_ s) (steplength_ s) (dV_ s) (dVexp_ s) (th_acceptstep_ s) (th_stop_ s) (iter_ s)
    (regfactor_ s) (regmin_ s) (regmax_ s) (cost_try_ s) (th_grad_ s) (th_step_ s)
    (was_feasible_ s) (alphas_ s) (xs_try_ s) (us_try_ s) (dxs_ s) (dus_ s) (lambdas_ s)
    (nx_ s) (ndx_ s) (nu_ s) (kkt_ s) (kktref_ s) (primaldual_ s) (primal_ s) (dual_ s)
    (kkt_primal_ s) (kkt_llt_ s).
Definition set_xreg_ (v : double) (s : SolverKKT) : SolverKKT :=
  mkSolverKKT
    (problem_ s) (datas_ s) (xs_ s) (us_ s) (is_feasible_ s) (cost_ s) (stop_ s) (d_ s) v
    (ureg_ s) (steplength_ s) (dV_ s) (dVexp_ s) (th_acceptstep_ s) (th_stop_ s) (iter_ s)
    (regfactor_ s) (regmin_ s) (regmax_ s) (cost_try_ s) (th_grad_ s) (th_step_ s)
    (was_feasible_ s) (alphas_ s) (xs_try_ s) (us_try_ s) (dxs_ s) (dus_ s) (lambdas_ s)
    (nx_ s) (ndx_ s) (nu_ s) (kkt_ s) (kktref_ s) (primaldual_ s) (primal_ s) (dual_ s)
    (kkt_primal_ s) (kkt_llt_ s).
Definition set_ureg_ (v : double) (s : SolverKKT) : SolverKKT :=
  mkSolverKKT
    (problem_ s) (datas_ s) (xs_ s) (us_ s) (is_feasible_ s) (cost_ s) (stop_ s) (d_ s)
    (xreg_ s) v (steplength_ s) (dV_ s) (dVexp_ s) (th_acceptstep_ s) (th_stop_ s) (iter_ s)
    (regfactor_ s) (regmin_ s) (regmax_ s) (cost_try_ s) (th_grad_ s) (th_step_ s)
    (was_feasible_ s) (alphas_ s) (xs_try_ s) (us_try_ s) (dxs_ s) (dus_ s) (lambdas_ s)
    (nx_ s) (ndx_ s) (nu_ s) (kkt_ s) (kktref_ s) (primaldual_ s) (primal_ s) (dual_ s)
    (kkt_primal_ s) (kkt_llt_ s).
Definition set_steplength_ (v : double) (s : SolverKKT) : SolverKKT :=
  mkSolverKKT
    (problem_ s) (datas_ s) (xs_ s) (us_ s) (is_feasible_ s) (cost_ s) (stop_ s) (d_ s)
    (xreg_ s) (ureg_ s) v (dV_ s) (dVexp_ s) (th_acceptstep_ s) (th_stop_ s) (iter_ s)
    (regfactor_ s) (regmin_ s) (regmax_ s) (cost_try_ s) (th_grad_ s) (th_step_ s)
    (was_feasible_ s) (alphas_ s) (xs_try_ s) (us_try_ s) (dxs_ s) (dus_ s) (lambdas_ s)
    (nx_ s) (ndx_ s) (nu_ s) (kkt_ s) (kktref_ s) (primaldual_ s) (primal_ s) (dual_ s)
    (kkt_primal_ s) (kkt_llt_ s).
Definition set_dV_ (v : double) (s : SolverKKT) : SolverKKT :=
  mkSolverKKT
    (problem_ s) (datas_ s) (xs_ s) (us_ s) (is_feasible_ s) (cost_ s) (stop_ s) (d_ s)
    (xreg_ s) (ureg_ s) (steplength_ s) v (dVexp_ s) (th_acceptstep_ s) (th_stop_ s) (iter_ s)
    (regfactor_ s) (regmin_ s) (regmax_ s) (cost_try_ s) (th_grad_ s) (th_step_ s)
    (was_feasible_ s) (alphas_ s) (xs_try_ s) (us_try_ s) (dxs_ s) (dus_ s) (lambdas_ s)
    (nx_ s) (ndx_ s) (nu_ s) (kkt_ s) (kktref_ s) (primaldual_ s) (primal_ s) (dual_ s)
    (kkt_primal_ s) (kkt_llt_ s).
Definition set_dVexp_ (v : double) (s : SolverKKT) : SolverKKT :=
  mkSolverKKT
    (problem_ s) (datas_ s) (xs_ s) (us_ s) (is_feasible_ s) (cost_ s) (stop_ s) (d_ s)
    (xreg_ s) (ureg_ s) (steplength_ s) (dV_ s) v (th_acceptstep_ s) (th_stop_ s) (iter_ s)
    (regfactor_ s) (regmin_ s) (regmax_ s) (cost_try_ s) (th_grad_ s) (th_step_ s)
    (was_feasible_ s) (alphas_ s) (xs_try_ s) (us_try_ s) (dxs_ s) (dus_ s) (lambdas_ s)
    (nx_ s) (ndx_ s) (nu_ s) (kkt_ s) (kktref_ s) (primaldual_ s) (primal_ s) (dual_ s)
    (kkt_primal_ s) (kkt_llt_ s).
Definition set_iter_ (v : nat) (s : SolverKKT) : SolverKKT :=
  mkSolverKKT
    (problem_ s) (datas_ s) (xs_ s) (us_ s) (is_feasible_ s) (cost_ s) (stop_ s) (d_ s)
    (xreg_ s) (ureg_ s) (steplength_ s) (dV_ s) (dVexp_ s) (th_acceptstep_ s) (th_stop_ s) v
    (regfactor_ s) (regmin_ s) (regmax_ s) (cost_try_ s) (th_grad_ s) (th_step_ s)
    (was_feasible_ s) (alphas_ s) (xs_try_ s) (us_try_ s) (dxs_ s) (dus_ s) (lambdas_ s)
    (nx_ s) (ndx_ s) (nu_ s) (kkt_ s) (kktref_ s) (primaldual_ s) (primal_ s) (dual_ s)
    (kkt_primal_ s) (kkt_llt_ s).
Definition set_regfactor_ (v : double) (s : SolverKKT) : SolverKKT :=
  mkSolverKKT
    (problem_ s) (datas_ s) (xs_ s) (us_ s) (is_feasible_ s) (cost_ s) (stop_ s) (d_ s)
    (xreg_ s) (ureg_ s) (steplength_ s) (dV_ s) (dVexp_ s) (th_acceptstep_ s) (th_stop_ s)
    (iter_ s) v (regmin_ s) (regmax_ s) (cost_try_ s) (th_grad_ s) (th_step_ s)
    (was_feasible_ s) (alphas_ s) (xs_try_ s) (us_try_ s) (dxs_ s) (dus_ s) (lambdas_ s)
    (nx_ s) (ndx_ s) (nu_ s) (kkt_ s) (kktref_ s) (primaldual_ s) (primal_ s) (dual_ s)
    (kkt_primal_ s) (kkt_llt_ s).
Definition set_regmin_ (v : double) (s : SolverKKT) : SolverKKT :=
  mkSolverKKT
    (problem_ s) (datas_ s) (xs_ s) (us_ s) (is_feasible_ s) (cost_ s) (stop_ s) (d_ s)
    (xreg_ s) (ureg_ s) (steplength_ s) (dV_ s) (dVexp_ s) (th_acceptstep_ s) (th_stop_ s)
    (iter_ s) (regfactor_ s) v (regmax_ s) (cost_try_ s) (th_grad_ s) (th_step_ s)
    (was_feasible_ s) (alphas_ s) (xs_try_ s) (us_try_ s) (dxs_ s) (dus_ s) (lambdas_ s)
    (nx_ s) (ndx_ s) (nu_ s) (kkt_ s) (kktref_ s) (primaldual_ s) (primal_ s) (dual_ s)
    (kkt_primal_ s) (kkt_llt_ s).
Definition set_regmax_ (v : double) (s : SolverKKT) : SolverKKT :=
  mkSolverKKT
    (problem_ s) (datas_ s) (xs_ s) (us_ s) (is_feasible_ s) (cost_ s) (stop_ s) (d_ s)
    (xreg_ s) (ureg_ s) (steplength_ s) (dV_ s) (dVexp_ s) (th_acceptstep_ s) (th_stop_ s)
    (iter_ s) (regfactor_ s) (regmin_ s) v (cost_try_ s) (th_grad_ s) (th_step_ s)
    (was_feasible_ s) (alphas_ s) (xs_try_ s) (us_try_ s) (dxs_ s) (dus_ s) (lambdas_ s)
    (nx_ s) (ndx_ s) (nu_ s) (kkt_ s) (kktref_ s) (primaldual_ s) (primal_ s) (dual_ s)
    (kkt_primal_ s) (kkt_llt_ s).
Definition set_cost_try_ (v : double) (s : SolverKKT) : SolverKKT :=
  mkSolverKKT
    (problem_ s) (datas_ s) (xs_ s) (us_ s) (is_feasible_ s) (cost_ s) (stop_ s) (d_ s)
    (xreg_ s) (ureg_ s) (steplength_ s) (dV_ s) (dVexp_ s) (th_acceptstep_ s) (th_stop_ s)
    (iter_ s) (regfactor_ s) (regmin_ s) (regmax_ s) v (th_grad_ s) (th_step_ s)
    (was_feasible_ s) (alphas_ s) (xs_try_ s) (us_try_ s) (dxs_ s) (dus_ s) (lambdas_ s)
    (nx_ s) (ndx_ s) (nu_ s) (kkt_ s) (kktref_ s) (primaldual_ s) (primal_ s) (dual_ s)
    (kkt_primal_ s) (kkt_llt_ s).
Definition set_th_grad_ (v : double) (s : SolverKKT) : SolverKKT :=
  mkSolverKKT
    (problem_ s) (datas_ s) (xs_ s) (us_ s) (is_feasible_ s) (cost_ s) (stop_ s) (d_ s)
    (xreg_ s) (ureg_ s) (steplength_ s) (dV_ s) (dVexp_ s) (th_acceptstep_ s) (th_stop_ s)
    (iter_ s) (regfactor_ s) (regmin_ s) (regmax_ s) (cost_try_ s) v (th_step_ s)
    (was_feasible_ s) (alphas_ s) (xs_try_ s) (us_try_ s) (dxs_ s) (dus_ s) (lambdas_ s)
    (nx_ s) (ndx_ s) (nu_ s) (kkt_ s) (kktref_ s) (primaldual_ s) (primal_ s) (dual_ s)
    (kkt_primal_ s) (kkt_llt_ s).
Definition set_th_step_ (v : double) (s : SolverKKT) : SolverKKT :=
  mkSolverKKT
    (problem_ s) (datas_ s) (xs_ s) (us_ s) (is_feasible_ s) (cost_ s) (stop_ s) (d_ s)
    (xreg_ s) (ureg_ s) (steplength_ s) (dV_ s) (dVexp_ s) (th_acceptstep_ s) (th_stop_ s)
    (iter_ s) (regfactor_ s) (regmin_ s) (regmax_ s) (cost_try_ s) (th_grad_ s) v
    (was_feasible_ s) (alphas_ s) (xs_try_ s) (us_try_ s) (dxs_ s) (dus_ s) (lambdas_ s)
    (nx_ s) (ndx_ s) (nu_ s) (kkt_ s) (kktref_ s) (primaldual_ s) (primal_ s) (dual_ s)
    (kkt_primal_ s) (kkt_llt_ s).
Definition set_was_feasible_ (v : bool) (s : SolverKKT) : SolverKKT :=
  mkSolverKKT
    (problem_ s) (datas_ s) (xs_ s) (us_ s) (is_feasible_ s) (cost_ s) (stop_ s) (d_ s)
    (xreg_ s) (ureg_ s) (steplength_ s) (dV_ s) (dVexp_ s) (th_acceptstep_ s) (th_stop_ s)
    (iter_ s) (regfactor_ s) (regmin_ s) (regmax_ s) (cost_try_ s) (th_grad_ s) (th_step_ s) v
    (alphas_ s) (xs_try_ s) (us_try_ s) (dxs_ s) (dus_ s) (lambdas_ s) (nx_ s) (ndx_ s) (nu_ s)
    (kkt_ s) (kktref_ s) (primaldual_ s) (primal_ s) (dual_ s) (kkt_primal_ s) (kkt_llt_ s).
Definition set_alphas_ (v : list double) (s : SolverKKT) : SolverKKT :=
  mkSolverKKT
    (problem_ s) (datas_ s) (xs_ s) (us_ s) (is_feasible_ s) (cost_ s) (stop_ s) (d_ s)
    (xreg_ s) (ureg_ s) (steplength_ s) (dV_ s) (dVexp_ s) (th_acceptstep_ s) (th_stop_ s)
    (iter_ s) (regfactor_ s) (regmin_ s) (regmax_ s) (cost_try_ s) (th_grad_ s) (th_step_ s)
    (was_feasible_ s) v (xs_try_ s) (us_try_ s) (dxs_ s) (dus_ s) (lambdas_ s) (nx_ s) (ndx_ s)
    (nu_ s) (kkt_ s) (kktref_ s) (primaldual_ s) (primal_ s) (dual_ s) (kkt_primal_ s)
    (kkt_llt_ s).
Definition set_xs_try_ (v : list vec) (s : SolverKKT) : SolverKKT :=
  mkSolverKKT
    (problem_ s) (datas_ s) (xs_ s) (us_ s) (is_feasible_ s) (cost_ s) (stop_ s) (d_ s)
    (xreg_ s) (ureg_ s) (steplength_ s) (dV_ s) (dVexp_ s) (th_acceptstep_ s) (th_stop_ s)
    (iter_ s) (regfactor_ s) (regmin_ s) (regmax_ s) (cost_try_ s) (th_grad_ s) (th_step_ s)
    (was_feasible_ s) (alphas_ s) v (us_try_ s) (dxs_ s) (dus_ s) (lambdas_ s) (nx_ s) (ndx_ s)
    (nu_ s) (kkt_ s) (kktref_ s) (primaldual_ s) (primal_ s) (dual_ s) (kkt_primal_ s)
    (kkt_llt_ s).
Definition set_us_try_ (v : list vec) (s : SolverKKT) : SolverKKT :=
  mkSolverKKT
    (problem_ s) (datas_ s) (xs_ s) (us_ s) (is_feasible_ s) (cost_ s) (stop_ s) (d_ s)
    (xreg_ s) (ureg_ s) (steplength_ s) (dV_ s) (dVexp_ s) (th_acceptstep_ s) (th_stop_ s)
    (iter_ s) (regfactor_ s) (regmin_ s) (regmax_ s) (cost_try_ s) (th_grad_ s) (th_step_ s)
    (was_feasible_ s) (alphas_ s) (xs_try_ s) v (dxs_ s) (dus_ s) (lambdas_ s) (nx_ s) (ndx_ s)
    (nu_ s) (kkt_ s) (kktref_ s) (primaldual_ s) (primal_ s) (dual_ s) (kkt_primal_ s)
    (kkt_llt_ s).
Definition set_dxs_ (v : list vec) (s : SolverKKT) : SolverKKT :=
  mkSolverKKT
    (problem_ s) (datas_ s) (xs_ s) (us_ s) (is_feasible_ s) (cost_ s) (stop_ s) (d_ s)
    (xreg_ s) (ureg_ s) (steplength_ s) (dV_ s) (dVexp_ s) (th_acceptstep_ s) (th_stop_ s)
    (iter_ s) (regfactor_ s) (regmin_ s) (regmax_ s) (cost_try_ s) (th_grad_ s) (th_step_ s)
    (was_feasible_ s) (alphas_ s) (xs_try_ s) (us_try_ s) v (dus_ s) (lambdas_ s) (nx_ s)
    (ndx_ s) (nu_ s) (kkt_ s) (kktref_ s) (primaldual_ s) (primal_ s) (dual_ s) (kkt_primal_ s)
    (kkt_llt_ s).
Definition set_dus_ (v : list vec) (s : SolverKKT) : SolverKKT :=
  mkSolverKKT
    (problem_ s) (datas_ s) (xs_ s) (us_ s) (is_feasible_ s) (cost_ s) (stop_ s) (d_ s)
    (xreg_ s) (ureg_ s) (steplength_ s) (dV_ s) (dVexp_ s) (th_acceptstep_ s) (th_stop_ s)
    (iter_ s) (regfactor_ s) (regmin_ s) (regmax_ s) (cost_try_ s) (th_grad_ s) (th_step_ s)
    (was_feasible_ s) (alphas_ s) (xs_try_ s) (us_try_ s) (dxs_ s) v (lambdas_ s) (nx_ s)
    (ndx_ s) (nu_ s) (kkt_ s) (kktref_ s) (primaldual_ s) (primal_ s) (dual_ s) (kkt_primal_ s)
    (kkt_llt_ s).
Definition set_lambdas_ (v : list vec) (s : SolverKKT) : SolverKKT :=
  mkSolverKKT
    (problem_ s) (datas_ s) (xs_ s) (us_ s) (is_feasible_ s) (cost_ s) (stop_ s) (d_ s)
    (xreg_ s) (ureg_ s) (steplength_ s) (dV_ s) (dVexp_ s) (th_acceptstep_ s) (th_stop_ s)
    (iter_ s) (regfactor_ s) (regmin_ s) (regmax_ s) (cost_try_ s) (th_grad_ s) (th_step_ s)
    (was_feasible_ s) (alphas_ s) (xs_try_ s) (us_try_ s) (dxs_ s) (dus_ s) v (nx_ s) (ndx_ s)
    (nu_ s) (kkt_ s) (kktref_ s) (primaldual_ s) (primal_ s) (dual_ s) (kkt_primal_ s)
    (kkt_llt_ s).
Definition set_nx_ (v : nat) (s : SolverKKT) : SolverKKT :=
  mkSolverKKT
    (problem_ s) (datas_ s) (xs_ s) (us_ s) (is_feasible_ s) (cost_ s) (stop_ s) (d_ s)
    (xreg_ s) (ureg_ s) (steplength_ s) (dV_ s) (dVexp_ s) (th_acceptstep_ s) (th_stop_ s)
    (iter_ s) (regfactor_ s) (regmin_ s) (regmax_ s) (cost_try_ s) (th_grad_ s) (th_step_ s)
    (was_feasible_ s) (alphas_ s) (xs_try_ s) (us_try_ s) (dxs_ s) (dus_ s) (lambdas_ s) v
    (ndx_ s) (nu_ s) (kkt_ s) (kktref_ s) (primaldual_ s) (primal_ s) (dual_ s) (kkt_primal_ s)
    (kkt_llt_ s).
Definition set_ndx_ (v : nat) (s : SolverKKT) : SolverKKT :=
  mkSolverKKT
    (problem_ s) (datas_ s) (xs_ s) (us_ s) (is_feasible_ s) (cost_ s) (stop_ s) (d_ s)
    (xreg_ s) (ureg_ s) (steplength_ s) (dV_ s) (dVexp_ s) (th_acceptstep_ s) (th_stop_ s)
    (iter_ s) (regfactor_ s) (regmin_ s) (regmax_ s) (cost_try_ s) (th_grad_ s) (th_step_ s)
    (was_feasible_ s) (alphas_ s) (xs_try_ s) (us_try_ s) (dxs_ s) (dus_ s) (lambdas_ s)
    (nx_ s) v (nu_ s) (kkt_ s) (kktref_ s) (primaldual_ s) (primal_ s) (dual_ s)
    (kkt_primal_ s) (kkt_llt_ s).
Definition set_nu_ (v : nat) (s : SolverKKT) : SolverKKT :=
  mkSolverKKT
    (problem_ s) (datas_ s) (xs_ s) (us_ s) (is_feasible_ s) (cost_ s) (stop_ s) (d_ s)
    (xreg_ s) (ureg_ s) (steplength_ s) (dV_ s) (dVexp_ s) (th_acceptstep_ s) (th_stop_ s)
    (iter_ s) (regfactor_ s) (regmin_ s) (regmax_ s) (cost_try_ s) (th_grad_ s) (th_step_ s)
    (was_feasible_ s) (alphas_ s) (xs_try_ s) (us_try_ s) (dxs_ s) (dus_ s) (lambdas_ s)
    (nx_ s) (ndx_ s) v (kkt_ s) (kktref_ s) (primaldual_ s) (primal_ s) (dual_ s)
    (kkt_primal_ s) (kkt_llt_ s).
Definition set_kkt_ (v : mat) (s : SolverKKT) : SolverKKT :=
  mkSolverKKT
    (problem_ s) (datas_ s) (xs_ s) (us_ s) (is_feasible_ s) (cost_ s) (stop_ s) (d_ s)
    (xreg_ s) (ureg_ s) (steplength_ s) (dV_ s) (dVexp_ s) (th_acceptstep_ s) (th_stop_ s)
    (iter_ s) (regfactor_ s) (regmin_ s) (regmax_ s) (cost_try_ s) (th_grad_ s) (th_step_ s)
    (was_feasible_ s) (alphas_ s) (xs_try_ s) (us_try_ s) (dxs_ s) (dus_ s) (lambdas_ s)
    (nx_ s) (ndx_ s) (nu_ s) v (kktref_ s) (primaldual_ s) (primal_ s) (dual_ s)
    (kkt_primal_ s) (kkt_llt_ s).
Definition set_kktref_ (v : vec) (s : SolverKKT) : SolverKKT :=
  mkSolverKKT
    (problem_ s) (datas_ s) (xs_ s) (us_ s) (is_feasible_ s) (cost_ s) (stop_ s) (d_ s)
    (xreg_ s) (ureg_ s) (steplength_ s) (dV_ s) (dVexp_ s) (th_acceptstep_ s) (th_stop_ s)
    (iter_ s) (regfactor_ s) (regmin_ s) (regmax_ s) (cost_try_ s) (th_grad_ s) (th_step_ s)
    (was_feasible_ s) (alphas_ s) (xs_try_ s) (us_try_ s) (dxs_ s) (dus_ s) (lambdas_ s)
    (nx_ s) (ndx_ s) (nu_ s) (kkt_ s) v (primaldual_ s) (primal_ s) (dual_ s) (kkt_primal_ s)
    (kkt_llt_ s).
Definition set_primaldual_ (v : vec) (s : SolverKKT) : SolverKKT :=
  mkSolverKKT
    (problem_ s) (datas_ s) (xs_ s) (us_ s) (is_feasible_ s) (cost_ s) (stop_ s) (d_ s)
    (xreg_ s) (ureg_ s) (steplength_ s) (dV_ s) (dVexp_ s) (th_acceptstep_ s) (th_stop_ s)
    (iter_ s) (regfactor_ s) (regmin_ s) (regmax_ s) (cost_try_ s) (th_grad_ s) (th_step_ s)
    (was_feasible_ s) (alphas_ s) (xs_try_ s) (us_try_ s) (dxs_ s) (dus_ s) (lambdas_ s)
    (nx_ s) (ndx_ s) (nu_ s) (kkt_ s) (kktref_ s) v (primal_ s) (dual_ s) (kkt_primal_ s)
    (kkt_llt_ s).
Definition set_primal_ (v : vec) (s : SolverKKT) : SolverKKT :=
  mkSolverKKT
    (problem_ s) (datas_ s) (xs_ s) (us_ s) (is_feasible_ s) (cost_ s) (stop_ s) (d_ s)
    (xreg_ s) (ureg_ s) (steplength_ s) (dV_ s) (dVexp_ s) (th_acceptstep_ s) (th_stop_ s)
    (iter_ s) (regfactor_ s) (regmin_ s) (regmax_ s) (cost_try_ s) (th_grad_ s) (th_step_ s)
    (was_feasible_ s) (alphas_ s) (xs_try_ s) (us_try_ s) (dxs_ s) (dus_ s) (lambdas_ s)
    (nx_ s) (ndx_ s) (nu_ s) (kkt_ s) (kktref_ s) (primaldual_ s) v (dual_ s) (kkt_primal_ s)
    (kkt_llt_ s).
Definition set_dual_ (v : vec) (s : SolverKKT) : SolverKKT :=
  mkSolverKKT
    (problem_ s) (datas_ s) (xs_ s) (us_ s) (is_feasible_ s) (cost_ s) (stop_ s) (d_ s)
    (xreg_ s) (ureg_ s) (steplength_ s) (dV_ s) (dVexp_ s) (th_acceptstep_ s) (th_stop_ s)
    (iter_ s) (regfactor_ s) (regmin_ s) (regmax_ s) (cost_try_ s) (th_grad_ s) (th_step_ s)
    (was_feasible_ s) (alphas_ s) (xs_try_ s) (us_try_ s) (dxs_ s) (dus_ s) (lambdas_ s)
    (nx_ s) (ndx_ s) (nu_ s) (kkt_ s) (kktref_ s) (primaldual_ s) (primal_ s) v (kkt_primal_ s)
    (kkt_llt_ s).
Definition set_kkt_primal_ (v : vec) (s : SolverKKT) : SolverKKT :=
  mkSolverKKT
    (problem_ s) (datas_ s) (xs_ s) (us_ s) (is_feasible_ s) (cost_ s) (stop_ s) (d_ s)
    (xreg_ s) (ureg_ s) (steplength_ s) (dV_ s) (dVexp_ s) (th_acceptstep_ s) (th_stop_ s)
    (iter_ s) (regfactor_ s) (regmin_ s) (regmax_ s) (cost_try_ s) (th_grad_ s) (th_step_ s)
    (was_feasible_ s) (alphas_ s) (xs_try_ s) (us_try_ s) (dxs_ s) (dus_ s) (lambdas_ s)
    (nx_ s) (ndx_ s) (nu_ s) (kkt_ s) (kktref_ s) (primaldual_ s) (primal_ s) (dual_ s) v
    (kkt_llt_ s).

(** ** Assembling the KKT system: [SolverKKT::calc] *)

(** The loop over the running models (lines 45-68).  Only [kkt_] and
    [kktref_] are written; everything else is read from [s]. *)
Fixpoint calc_running (s : SolverKKT) (cx0 : nat) (ms : list ActionModelAbstract)
    (t ix iu : nat) (kkt : mat) (kktref : vec) : nat * nat * mat * vec :=
  match ms with
  | [] => (ix, iu, kkt, kktref)
  | m :: ms' =>
    let d := running_datas_ (datas_ s) !!! t in
    let ndx := ndx_ s in
    let nu := nu_ s in
    let ndxi := get_ndx (get_state m) in
    let nui := get_nu m in
    let kktref :=
      if Nat.eqb t 0
      then set_segment (ndx + nu) ndxi
             (diff (get_state m) (get_x0 (problem_ s)) (xs_ s !!! 0)) kktref
      else kktref in
    let kkt := set_block ix ix ndxi ndxi (mat_at (get_Lxx d)) kkt in
    let kkt := set_block ix (ndx + iu) ndxi nui (mat_at (get_Lxu d)) kkt in
    let kkt := set_block (ndx + iu) ix nui ndxi (etranspose (mat_at (get_Lxu d))) kkt in
    let kkt := set_block (ndx + iu) (ndx + iu) nui nui (mat_at (get_Luu d)) kkt in
    let kkt := set_block (ndx + nu + cx0 + ix) ix ndxi ndxi (eopp (mat_at (get_Fx d))) kkt in
    let kkt := set_block (ndx + nu + cx0 + ix) (ndx + iu) ndxi nui
                 (eopp (mat_at (get_Fu d))) kkt in
    let kktref := set_segment ix ndxi (get_Lx d) kktref in
    let kktref := set_segment (ndx + iu) nui (get_Lu d) kktref in
    let kktref := set_segment (ndx + nu + cx0 + ix) ndxi
                    (diff (get_state m) (get_xnext d) (xs_ s !!! (t + 1))) kktref in
    calc_running s cx0 ms' (S t) (ix + ndxi) (iu + nui) kkt kktref
  end.

(** Lines 41-72: the blocks written from the derivative data. *)
Definition calc_writes (s : SolverKKT) (kkt : mat) (kktref : vec) : mat * vec :=
  let P := problem_ s in
  let ndx := ndx_ s in
  let nu := nu_ s in
  let cx0 := get_ndx (get_state (running_models_ P !!! 0)) in
  let kkt := set_block (ndx + nu) 0 ndx ndx eIdentity kkt in
  let '(ix, iu, kkt, kktref) :=
    calc_running s cx0 (running_models_ P) 0 0 0 kkt kktref in
  let df := terminal_data_ (datas_ s) in
  let ndxf := get_ndx (get_state (terminal_model_ P)) in
  let kkt := set_block ix ix ndxf ndxf (mat_at (get_Lxx df)) kkt in
  let kktref := set_segment ix ndxf (get_Lx df) kktref in
  (kkt, kktref).

(** Line 73: the constraint block, transposed, into the upper right. *)
Definition copy_transposed (ndx nu : nat) (kkt : mat) : mat :=
  set_block 0 (ndx + nu) (ndx + nu) ndx
    (etranspose (eblock (ndx + nu) 0 (mat_at kkt))) kkt.

(** Lines 34-73: everything [calc] does before the regularization. *)
Definition calc_blocks (s : SolverKKT) : SolverKKT :=
  let '(datas, cost) := problem_calcDiff (problem_ s) (datas_ s) (xs_ s) (us_ s) in
  let s := set_cost_ cost (set_datas_ datas s) in
  let '(kkt, kktref) := calc_writes s (kkt_ s) (kktref_ s) in
  let kkt := copy_transposed (ndx_ s) (nu_ s) kkt in
  set_kktref_ kktref (set_kkt_ kkt s).

(** Lines 74-79: the two guarded additions to the diagonal. *)
Definition regularize_x (s : SolverKKT) : SolverKKT :=
  if negb (isnan (xreg_ s))
  then set_kkt_ (add_diag 0 (ndx_ s) (xreg_ s) (kkt_ s)) s
  else s.

Definition regularize_u (s : SolverKKT) : SolverKKT :=
  if negb (isnan (ureg_ s))
  then set_kkt_ (add_diag (ndx_ s) (nu_ s) (ureg_ s) (kkt_ s)) s
  else s.

(** [calc] returns [cost_]; the model returns the solver, whose [cost_] it
    is. *)
Definition calc (s : SolverKKT) : SolverKKT :=
  regularize_u (regularize_x (calc_blocks s)).

(** ** Factorization and solve: [SolverKKT::computePrimalDual]

    The function has no [throw] and does not read [info()]: with an engine
    that answers, it stores the answer whether or not the factorization
    succeeded.  [None] is an exception leaving [compute], before any member
    is written, for an engine that throws. *)
Definition computePrimalDual (s : SolverKKT) : option SolverKKT :=
  match kkt_llt_ s (kkt_ s) (vopp (kktref_ s)) with
  | None => None
  | Some x =>
    let s := set_primaldual_ x s in
    let s := set_primal_ (segment 0 (ndx_ s + nu_ s) (primaldual_ s)) s in
    Some (set_dual_ (segment (ndx_ s + nu_ s) (ndx_ s) (primaldual_ s)) s)
  end.

(** ** Slicing the direction: [SolverKKT::computeDirection] *)

(** [v.back() = x] *)
Definition set_back {A} (x : A) (v : list A) : list A := <[pred (length v) := x]> v.

Fixpoint direction_running (p_x p_u dual : vec) (ms : list ActionModelAbstract)
    (t ix iu : nat) (dxs dus lambdas : list vec) : nat * list vec * list vec * list vec :=
  match ms with
  | [] => (ix, dxs, dus, lambdas)
  | m :: ms' =>
    let ndxi := get_ndx (get_state m) in
    let nui := get_nu m in
    let dxs := <[t := segment ix ndxi p_x]> dxs in
    let dus := <[t := segment iu nui p_u]> dus in
    let lambdas := <[t := segment ix ndxi dual]> lambdas in
    direction_running p_x p_u dual ms' (S t) (ix + ndxi) (iu + nui) dxs dus lambdas
  end.

(** Lines 100-117: the slices of [primal_] and [dual_]. *)
Definition slice_direction (s : SolverKKT) : SolverKKT :=
  let P := problem_ s in
  let p_x := segment 0 (ndx_ s) (primal_ s) in
  let p_u := segment (ndx_ s) (nu_ s) (primal_ s) in
  let '(ix, dxs, dus, lambdas) :=
    direction_running p_x p_u (dual_ s) (running_models_ P) 0 0 0
      (dxs_ s) (dus_ s) (lambdas_ s) in
  let ndxi := get_ndx (get_state (terminal_model_ P)) in
  let dxs := set_back (segment ix ndxi p_x) dxs in
  let lambdas := set_back (segment ix ndxi (dual_ s)) lambdas in
  set_lambdas_ lambdas (set_dus_ dus (set_dxs_ dxs s)).

(** The flag is [false] when the factorization failure escapes. *)
Definition computeDirection (recalc : bool) (s : SolverKKT) : SolverKKT * bool :=
  let s := if recalc then calc s else s in
  match computePrimalDual s with
  | None => (s, false)
  | Some s => (slice_direction s, true)
  end.

(** ** [SolverKKT::expectedImprovement] *)
Definition expectedImprovement (s : SolverKKT) : SolverKKT :=
  let n := ndx_ s + nu_ s in
  let e0 := (- dot (segment 0 n (kktref_ s)) (primal_ s))%D in
  let kkt_primal := matvec (get_block 0 0 n n (kkt_ s)) (primal_ s) in
  let e1 := (- dot kkt_primal (primal_ s))%D in
  set_d_ (e0, e1) (set_kkt_primal_ kkt_primal s).

(** ** [SolverKKT::stoppingCriteria] *)

Definition back (v : list vec) : vec := default [] (last v).

Fixpoint stopping_running (s : SolverKKT) (ms : list ActionModelAbstract)
    (t ix iu : nat) (dF : vec) : nat * vec :=
  match ms with
  | [] => (ix, dF)
  | m :: ms' =>
    let d := running_datas_ (datas_ s) !!! t in
    let ndxi := get_ndx (get_state m) in
    let nui := get_nu m in
    let dF := set_segment ix ndxi
                (vsub (lambdas_ s !!! t) (matvec (get_Fx d) (lambdas_ s !!! (t + 1)))) dF in
    let dF := set_segment (ndx_ s + iu) nui
                (matvec (mopp (get_Fu d)) (lambdas_ s !!! (t + 1))) dF in
    stopping_running s ms' (S t) (ix + ndxi) (iu + nui) dF
  end.

(** The local [dL]: the cost-gradient part of the residual. *)
Definition stopping_dL (s : SolverKKT) : vec := segment 0 (ndx_ s + nu_ s) (kktref_ s).

(** The local [dF] once the loop and the terminal assignment are done. *)
Definition stopping_dF (s : SolverKKT) : vec :=
  let P := problem_ s in
  let dF := vzeros (ndx_ s + nu_ s) in
  let '(ix, dF) := stopping_running s (running_models_ P) 0 0 0 dF in
  let ndxi := get_ndx (get_state (terminal_model_ P)) in
  set_segment ix ndxi (back (lambdas_ s)) dF.

(** The dynamics-gap part of the residual. *)
Definition stopping_gap (s : SolverKKT) : vec :=
  segment (ndx_ s + nu_ s) (ndx_ s) (kktref_ s).

Definition stoppingCriteria (s : SolverKKT) : SolverKKT :=
  set_stop_ (squaredNorm (vadd (stopping_dL s) (stopping_dF s))
             + squaredNorm (stopping_gap s))%D s.

(** ** [SolverKKT::tryStep] *)

Fixpoint tryStep_running (s : SolverKKT) (steplength : double)
    (ms : list ActionModelAbstract) (t : nat) (xs_try us_try : list vec)
    : list vec * list vec :=
  match ms with
  | [] => (xs_try, us_try)
  | m :: ms' =>
    let xs_try := <[t + 1 := integrate (get_state m) (xs_ s !!! t)
                               (vscale steplength (dxs_ s !!! t))]> xs_try in
    let us_try := <[t := vadd (us_ s !!! t) (vscale steplength (dus_ s !!! t))]> us_try in
    tryStep_running s steplength ms' (S t) xs_try us_try
  end.

(** The result is [cost_ - cost_try_], or nothing when the trial evaluation
    throws; the trial trajectory is written either way. *)
Definition tryStep (steplength : double) (s : SolverKKT) : SolverKKT * option double :=
  let P := problem_ s in
  let '(xs_try, us_try) :=
    tryStep_running s steplength (running_models_ P) 0 (xs_try_ s) (us_try_ s) in
  let s := set_us_try_ us_try (set_xs_try_ xs_try s) in
  match problem_calc P (datas_ s) (xs_try_ s) (us_try_ s) with
  | (datas, None) => (set_datas_ datas s, None)
  | (datas, Some c) =>
    let s := set_cost_try_ c (set_datas_ datas s) in
    (s, Some (cost_ s - cost_try_ s)%D)
  end.

(** ** Regularization *)

Definition increaseRegularization (s : SolverKKT) : SolverKKT :=
  let s := set_xreg_ (xreg_ s * regfactor_ s)%D s in
  let s := if (xreg_ s >? regmax_ s)%D then set_xreg_ (regmax_ s) s else s in
  set_ureg_ (xreg_ s) s.

Definition decreaseRegularization (s : SolverKKT) : SolverKKT :=
  let s := set_xreg_ (xreg_ s / regfactor_ s)%D s in
  let s := if (xreg_ s <? regmin_ s)%D then set_xreg_ (regmin_ s) s else s in
  set_ureg_ (xreg_ s) s.

(** ** [SolverKKT::allocateData] and the constructor *)

(** [v.resize(n)] on a vector of vectors: new entries are empty. *)
Definition resize (n : nat) (v : list vec) : list vec :=
  take n v ++ replicate (n - length v) [].

Fixpoint allocate_running (ms : list ActionModelAbstract) (t : nat) (s : SolverKKT)
    : SolverKKT :=
  match ms with
  | [] => s
  | model :: ms' =>
    let nx := get_nx (get_state model) in
    let ndx := get_ndx (get_state model) in
    let nu := get_nu model in
    let s := set_xs_try_ (<[t := if Nat.eqb t 0 then get_x0 (problem_ s)
                                 else replicate nx NaN]> (xs_try_ s)) s in
    let s := set_us_try_ (<[t := replicate nu NaN]> (us_try_ s)) s in
    let s := set_dxs_ (<[t := vzeros ndx]> (dxs_ s)) s in
    let s := set_dus_ (<[t := vzeros nu]> (dus_ s)) s in
    let s := set_lambdas_ (<[t := vzeros ndx]> (lambdas_ s)) s in
    let s := set_nx_ (nx_ s + nx) s in
    let s := set_ndx_ (ndx_ s + ndx) s in
    let s := set_nu_ (nu_ s + nu) s in
    allocate_running ms' (S t) s
  end.

(** Lines 257-267: the resizes and the zeroed aggregates. *)
Definition allocate_resize (s : SolverKKT) : SolverKKT :=
  let T := get_T (problem_ s) in
  let s := set_dxs_ (resize (T + 1) (dxs_ s)) s in
  let s := set_dus_ (resize T (dus_ s)) s in
  let s := set_lambdas_ (resize (T + 1) (lambdas_ s)) s in
  let s := set_xs_try_ (resize (T + 1) (xs_try_ s)) s in
  let s := set_us_try_ (resize T (us_try_ s)) s in
  set_nu_ 0 (set_ndx_ 0 (set_nx_ 0 s)).

(** Lines 289-295: the terminal model. *)
Definition allocate_terminal (s : SolverKKT) : SolverKKT :=
  let model := terminal_model_ (problem_ s) in
  let s := set_nx_ (nx_ s + get_nx (get_state model)) s in
  let s := set_ndx_ (ndx_ s + get_ndx (get_state model)) s in
  let s := set_xs_try_ (set_back (zero (get_state model)) (xs_try_ s)) s in
  let s := set_dxs_ (set_back (vzeros (get_ndx (get_state model))) (dxs_ s)) s in
  set_lambdas_ (set_back (vzeros (get_ndx (get_state model))) (lambdas_ s)) s.

(** Lines 296-310: the buffers of the KKT system. *)
Definition allocate_buffers (s : SolverKKT) : SolverKKT :=
  let n := 2 * ndx_ s + nu_ s in
  let s := set_kkt_ (mzeros n n) s in
  let s := set_kktref_ (vzeros n) s in
  let s := set_primaldual_ (vzeros n) s in
  let s := set_primal_ (vzeros (ndx_ s + nu_ s)) s in
  let s := set_kkt_primal_ (vzeros (ndx_ s + nu_ s)) s in
  set_dual_ (vzeros (ndx_ s)) s.

Definition allocateData (s : SolverKKT) : SolverKKT :=
  let s := allocate_resize s in
  let s := allocate_running (running_models_ (problem_ s)) 0 s in
  let s := allocate_terminal s in
  allocate_buffers s.

Definition n_alphas : nat := 10.

(** The constructor, applied to the object as [SolverAbstract]'s
    constructor leaves it. *)
Definition SolverKKT_ctor (s : SolverKKT) : SolverKKT :=
  let s := set_regfactor_ (Fin 10) s in
  let s := set_regmin_ (Fin (1 # 1000000000)) s in
  let s := set_regmax_ (Fin 1000000000) s in
  let s := set_cost_try_ d0 s in
  let s := set_th_grad_ (Fin (1 # 1000000000000)) s in
  let s := set_th_step_ (Fin (1 # 2)) s in
  let s := set_was_feasible_ false s in
  let s := allocateData s in
  set_alphas_ ((fun n => d1 / dpow2 n)%D <$> seq 0 n_alphas) s.

(** ** [SolverKKT::solve] *)

(** Modelled from the spec: [SolverAbstract::setCandidate] is outside
    [kkt.cpp]; it adopts the given trajectories as the candidate and records
    whether the candidate is feasible. *)
Definition setCandidate (xs us : list vec) (is_feasible : bool) (s : SolverKKT)
    : SolverKKT :=
  set_is_feasible_ is_feasible (set_us_ us (set_xs_ xs s)).

(** Lines 167-176: the candidate and the initial regularization. *)
Definition solve_init (init_xs init_us : list vec) (is_feasible : bool)
    (reginit : double) (s : SolverKKT) : SolverKKT :=
  let s := setCandidate init_xs init_us is_feasible s in
  if isnan reginit
  then set_ureg_ d0 (set_xreg_ d0 s)
  else set_ureg_ reginit (set_xreg_ reginit s).

(** Lines 196-212: the scan over the step lengths.  A throwing [tryStep]
    moves on to the next length; an accepted length ends the scan. *)
Fixpoint line_search (alphas : list double) (s : SolverKKT) : SolverKKT :=
  match alphas with
  | [] => s
  | a :: rest =>
    let s := set_steplength_ a s in
    match tryStep (steplength_ s) s with
    | (s, None) => line_search rest s
    | (s, Some dV) =>
      let s := set_dV_ dV s in
      let s := set_dVexp_ (steplength_ s
                           * (fst (d_ s) + Fin (1 # 2) * steplength_ s * snd (d_ s)))%D s in
      if (fst (d_ s) <? th_grad_ s)%D || negb (is_feasible_ s)
         || (dV_ s >? th_acceptstep_ s * dVexp_ s)%D
      then
        let s := set_was_feasible_ (is_feasible_ s) s in
        let s := setCandidate (xs_try_ s) (us_try_ s) true s in
        set_cost_ (cost_try_ s) s
      else line_search rest s
    end
  end.

(** [alphas_.back()] *)
Definition alphas_back (s : SolverKKT) : double := default NaN (last (alphas_ s)).

(** The control points of [solve]. *)
Inductive pc : Type :=
| AtFor                          (* line 178: the test [iter_ < maxiter] *)
| AtDirection (recalc : bool)    (* line 182: inside [while (true)] *)
| AtImprovement                  (* line 194 *)
| AtSearch                       (* line 196 *)
| AtDecrease                     (* line 214 *)
| AtIncrease                     (* line 217 *)
| AtStop                         (* line 223 *)
| AtCallbacks                    (* lines 225-235 *)
| Returned (b : bool).

Definition config : Type := pc * SolverKKT.

(** One statement of [solve].  The callbacks observe the solver and leave
    it as it is. *)
Definition step (maxiter : nat) (c : config) : config :=
  let '(p, s) := c in
  match p with
  | AtFor =>
    if Nat.ltb (iter_ s) maxiter then (AtDirection true, s) else (Returned false, s)
  | AtDirection recalc =>
    match computeDirection recalc s with
    | (s, true) => (AtImprovement, s)
    | (s, false) =>
      if (xreg_ s =? regmax_ s)%D then (Returned false, s) else (AtDirection false, s)
    end
  | AtImprovement => (AtSearch, expectedImprovement s)
  | AtSearch => (AtDecrease, line_search (alphas_ s) s)
  | AtDecrease =>
    (AtIncrease, if (steplength_ s >? th_step_ s)%D then decreaseRegularization s else s)
  | AtIncrease =>
    if (steplength_ s =? alphas_back s)%D
    then
      let s := increaseRegularization s in
      if (xreg_ s =? regmax_ s)%D then (Returned false, s) else (AtStop, s)
    else (AtStop, s)
  | AtStop => (AtCallbacks, stoppingCriteria s)
  | AtCallbacks =>
    if was_feasible_ s && (stop_ s <? th_stop_ s)%D
    then (Returned true, s)
    else (AtFor, set_iter_ (S (iter_ s)) s)
  | Returned b => (Returned b, s)
  end.

Fixpoint steps (n : nat) (maxiter : nat) (c : config) : config :=
  match n with
  | O => c
  | S n' => steps n' maxiter (step maxiter c)
  end.

(** Run until [solve] returns; [None] when it has not returned within
    [fuel] statements. *)
Fixpoint run (fuel : nat) (maxiter : nat) (c : config) : option (bool * SolverKKT) :=
  match c with
  | (Returned b, s) => Some (b, s)
  | _ =>
    match fuel with
    | O => None
    | S fuel' => run fuel' maxiter (step maxiter c)
    end
  end.

Definition solve_start (init_xs init_us : list vec) (is_feasible : bool)
    (reginit : double) (s : SolverKKT) : config :=
  (AtFor, set_iter_ 0 (solve_init init_xs init_us is_feasible reginit s)).

Definition solve (fuel : nat) (init_xs init_us : list vec) (maxiter : nat)
    (is_feasible : bool) (reginit : double) (s : SolverKKT) : option (bool * SolverKKT) :=
  run fuel maxiter (solve_start init_xs init_us is_feasible reginit s).

(** ** A concrete problem: scalar states and controls

    Dynamics [x' = x + u], running cost [x^2 + u^2], terminal cost [x^2],
    on the Euclidean line ([diff a b = b - a], [integrate x dx = x + dx]). *)
Module Scalar.

Definition state : StateAbstract :=
  {| get_nx := 1; get_ndx := 1;
     diff := fun a b => vsub b a;
     integrate := fun x dx => vadd x dx;
     zero := [d0] |}.

Definition model : ActionModelAbstract := {| get_state := state; get_nu := 1 |}.

Definition two : double := Fin 2.

Definition stage_data (x u : vec) : ActionDataAbstract :=
  {| get_Lx := vscale two x; get_Lu := vscale two u;
     get_Lxx := [[two]]; get_Lxu := [[d0]]; get_Luu := [[two]];
     get_Fx := [[d1]]; get_Fu := [[d1]];
     get_xnext := vadd x u |}.

Definition terminal_data (x : vec) : ActionDataAbstract :=
  {| get_Lx := vscale two x; get_Lu := [];
     get_Lxx := [[two]]; get_Lxu := []; get_Luu := [];
     get_Fx := []; get_Fu := [];
     get_xnext := x |}.

Definition cost (xs us : list vec) : double :=
  dsum (squaredNorm <$> xs) + dsum (squaredNorm <$> us).

Definition datas (xs us : list vec) : ProblemData :=
  {| running_datas_ := zip_with stage_data xs us;
     terminal_data_ := terminal_data (back xs) |}.

(** A problem with [T] running stages whose evaluations always succeed. *)
Definition problem (T : nat) (x0 : vec) : ShootingProblem :=
  {| get_x0 := x0;
     running_models_ := replicate T model;
     terminal_model_ := model;
     problem_calc := fun d xs us => (d, Some (cost xs us));
     problem_calcDiff := fun _ xs us => (datas xs us, cost xs us) |}.

(** The same problem with a trial evaluation that always throws. *)
Definition rejecting (T : nat) (x0 : vec) : ShootingProblem :=
  {| get_x0 := x0;
     running_models_ := replicate T model;
     terminal_model_ := model;
     problem_calc := fun d _ _ => (d, None);
     problem_calcDiff := fun _ xs us => (datas xs us, cost xs us) |}.

(** An engine that answers with the right-hand side. *)
Definition llt_rhs : mat -> vec -> option vec := fun _ b => Some b.

(** The object before [SolverKKT]'s constructor body runs. *)
Definition blank (P : ShootingProblem) (llt : mat -> vec -> option vec) : SolverKKT :=
  {| problem_ := P;
     datas_ := {| running_datas_ := []; terminal_data_ := inhabitant |};
     xs_ := []; us_ := []; is_feasible_ := false;
     cost_ := d0; stop_ := d0; d_ := (d0, d0);
     xreg_ := NaN; ureg_ := NaN;
     steplength_ := d1; dV_ := d0; dVexp_ := d0;
     th_acceptstep_ := Fin (1 # 10); th_stop_ := Fin (1 # 1000000000);
     iter_ := 0;
     regfactor_ := d0; regmin_ := d0; regmax_ := d0;
     cost_try_ := d0; th_grad_ := d0; th_step_ := d0;
     was_feasible_ := false; alphas_ := [];
     xs_try_ := []; us_try_ := []; dxs_ := []; dus_ := []; lambdas_ := [];
     nx_ := 0; ndx_ := 0; nu_ := 0;
     kkt_ := []; kktref_ := [];
     primaldual_ := []; primal_ := []; dual_ := []; kkt_primal_ := [];
     kkt_llt_ := llt |}.

Definition solver (P : ShootingProblem) (llt : mat -> vec -> option vec) : SolverKKT :=
  SolverKKT_ctor (blank P llt).

End Scalar.

(** * Vocabulary of the properties *)

(** The members that the regularization logic reads or writes. *)
Definition regs (s : SolverKKT) : double * double * double * double * double :=
  (xreg_ s, ureg_ s, regfactor_ s, regmin_ s, regmax_ s).

(** What the two adaptations leave in [xreg_]. *)
Definition capped (s : SolverKKT) : double :=
  let x := (xreg_ s * regfactor_ s)%D in
  if (x >? regmax_ s)%D then regmax_ s else x.

Definition floored (s : SolverKKT) : double :=
  let x := (xreg_ s / regfactor_ s)%D in
  if (x <? regmin_ s)%D then regmin_ s else x.

(** Both regularization values lie in [[regmin_, regmax_]]. *)
Definition in_bounds (s : SolverKKT) : Prop :=
  dle (regmin_ s) (xreg_ s) /\ dle (xreg_ s) (regmax_ s)
  /\ dle (regmin_ s) (ureg_ s) /\ dle (ureg_ s) (regmax_ s).

(** The interval [[lo, hi]] with factor [f] is what the solver holds, and
    both regularization values lie in it. *)
Definition bounded_by (f lo hi : Q) (s : SolverKKT) : Prop :=
  in_bounds s /\ regfactor_ s = Fin f /\ regmin_ s = Fin lo /\ regmax_ s = Fin hi.

(** The candidate and the members that steer [solve], as the line search
    finds them. *)
Definition candidate (s : SolverKKT)
    : ShootingProblem * list vec * list vec * double * bool * bool
      * list double * double :=
  (problem_ s, xs_ s, us_ s, cost_ s, is_feasible_ s, was_feasible_ s,
   alphas_ s, th_step_ s).

(** Every trial evaluation of the problem throws. *)
Definition all_rejecting (P : ShootingProblem) : Prop :=
  forall d xs us, snd (problem_calc P d xs us) = None.

(** The tangent and control dimensions of a sequence of models. *)
Definition stage_ndx (ms : list ActionModelAbstract) : list nat :=
  (fun m => get_ndx (get_state m)) <$> ms.
Definition stage_nu (ms : list ActionModelAbstract) : list nat := get_nu <$> ms.

(** The aggregates [ndx_] and [nu_] are the sums that [allocateData]
    computes. *)
Definition dims_ok (s : SolverKKT) : Prop :=
  ndx_ s = sum_list (stage_ndx (running_models_ (problem_ s)))
           + get_ndx (get_state (terminal_model_ (problem_ s)))
  /\ nu_ s = sum_list (stage_nu (running_models_ (problem_ s))).

(** What [calc] reads besides the two buffers it fills. *)
Definition ctx (s : SolverKKT)
    : ShootingProblem * ProblemData * list vec * nat * nat :=
  (problem_ s, datas_ s, xs_ s, ndx_ s, nu_ s).

(** Evaluating the derivatives again, on the data of the first evaluation,
    gives the same data and the same cost. *)
Definition stable_calcDiff (s : SolverKKT) : Prop :=
  let P := problem_ s in
  let r := problem_calcDiff P (datas_ s) (xs_ s) (us_ s) in
  problem_calcDiff P (fst r) (xs_ s) (us_ s) = r.

(** A coefficient update overwrites the coefficient at [(i, j)] ... *)
Definition const_at (w : nat -> nat -> double -> double) (i j : nat) : Prop :=
  forall x y, w i j x = w i j y.
(** ... or keeps it. *)
Definition keeps_at (w : nat -> nat -> double -> double) (i j : nat) : Prop :=
  forall x, w i j x = x.

Definition mlookup (K : mat) (i j : nat) : option double :=
  match K !! i with Some row => row !! j | None => None end.

(** The two guarded additions of [calc], coefficient-wise. *)
Definition reg_entry (s : SolverKKT) : nat -> nat -> double -> double :=
  fun i j x =>
    let x := if negb (isnan (xreg_ s)) then wdiag 0 (ndx_ s) (xreg_ s) i j x else x in
    if negb (isnan (ureg_ s)) then wdiag (ndx_ s) (nu_ s) (ureg_ s) i j x else x.

(** One coefficient update after another. *)
Definition ecomp (g f : nat -> nat -> double -> double) : nat -> nat -> double -> double :=
  fun i j x => g i j (f i j x).
Definition vcomp (g f : nat -> double -> double) : nat -> double -> double :=
  fun k x => g k (f k x).

(** The same two notions for a vector update. *)
Definition vconst_at (v : nat -> double -> double) (k : nat) : Prop :=
  forall x y, v k x = v k y.
Definition vkeeps_at (v : nat -> double -> double) (k : nat) : Prop :=
  forall x, v k x = x.

(** Consecutive slices of [v] from offset [i], with the given strides. *)
Fixpoint slices (v : vec) (i : nat) (dims : list nat) : list vec :=
  match dims with
  | [] => []
  | n :: dims' => segment i n v :: slices v (i + n) dims'
  end.

(** The per-stage sequences have the lengths, and the aggregates the
    values, that [allocateData] gives them. *)
Definition allocated (s : SolverKKT) : Prop :=
  dims_ok s
  /\ length (dxs_ s) = get_T (problem_ s) + 1
  /\ length (dus_ s) = get_T (problem_ s)
  /\ length (lambdas_ s) = get_T (problem_ s) + 1.

(** What the direction extraction reads and writes besides the solution
    vectors. *)
Definition slots (s : SolverKKT)
    : ShootingProblem * nat * nat * list vec * list vec * list vec :=
  (problem_ s, ndx_ s, nu_ s, dxs_ s, dus_ s, lambdas_ s).

(** The two terms of the expected improvement, written with indices: only
    the first [n] coefficients of the residual and the leading [n] by [n]
    block of the matrix occur. *)
Definition linear_term (g p : vec) (n : nat) : double :=
  (- dsum ((fun i => vat g i * vat p i) <$> seq 0 n))%D.

Definition quadratic_term (K : mat) (p : vec) (n : nat) : double :=
  (- dsum ((fun i => dsum ((fun j => mat_at K i j * vat p j) <$> seq 0 n) * vat p i)
           <$> seq 0 n))%D.

(** Two vectors have the same length and equal entries, as [==] on
    doubles sees them. *)
Definition veqb (u v : vec) : bool :=
  Nat.eqb (length u) (length v) && forallb (fun p => (fst p =? snd p)%D) (zip u v).


(** The members that no member function of [kkt.cpp] writes once the
    constructor has run. *)
Definition static (s : SolverKKT)
    : ShootingProblem * nat * nat * nat * list double
      * (double * double * double * double)
      * (double * double * double) * (mat -> vec -> option vec) :=
  (problem_ s, nx_ s, ndx_ s, nu_ s, alphas_ s,
   (th_grad_ s, th_step_ s, th_acceptstep_ s, th_stop_ s),
   (regfactor_ s, regmin_ s, regmax_ s), kkt_llt_ s).

(** The sizes of the per-stage sequences and of the KKT buffers. *)
Definition shape (s : SolverKKT) : nat * nat * nat * nat * nat * nat * list nat :=
  (length (dxs_ s), length (dus_ s), length (lambdas_ s),
   length (xs_try_ s), length (us_try_ s), length (kktref_ s),
   length <$> kkt_ s).

(** The engine answers every system, as [Eigen::LLT] does: neither its
    [compute] nor its [solveInPlace] throws. *)
Definition never_refuses (llt : mat -> vec -> option vec) : Prop :=
  forall K b, llt K b <> None.

(** Every trial evaluation of the problem gives a cost. *)
Definition never_throws (P : ShootingProblem) : Prop :=
  forall d xs us, snd (problem_calc P d xs us) <> None.

(** The loop counter is within the cap, and strictly so inside the loop
    body. *)
Definition iter_ok (maxiter : nat) (c : config) : Prop :=
  match fst c with
  | AtFor | Returned _ => iter_ (snd c) <= maxiter
  | _ => iter_ (snd c) < maxiter
  end.

(** How many statements of the loop body are still ahead. *)
Definition rank (p : pc) : nat :=
  match p with
  | AtFor => 8
  | AtDirection _ => 7
  | AtImprovement => 6
  | AtSearch => 5
  | AtDecrease => 4
  | AtIncrease => 3
  | AtStop => 2
  | AtCallbacks => 1
  | Returned _ => 0
  end.

(** A bound on the statements [solve] still executes when the
    factorization is never refused. *)
Definition statements_left (maxiter : nat) (c : config) : nat :=
  match fst c with
  | Returned _ => 0
  | AtFor => 8 * (maxiter - iter_ (snd c)) + 1
  | p => 8 * (maxiter - iter_ (snd c) - 1) + rank p + 1
  end.

(** [kkt_] has the size that [allocateData] gives it: a square matrix of
    order [2 * ndx_ + nu_]. *)
Definition kkt_sized (s : SolverKKT) : Prop :=
  length <$> kkt_ s = replicate (2 * ndx_ s + nu_ s) (2 * ndx_ s + nu_ s).

(** [L] is a Cholesky factor of [K]: lower triangular with a positive
    diagonal, and [K] is the product of [L] and its transpose. *)
Definition cholesky_factor (L K : mat) : Prop :=
  length L = length K
  /\ (forall i, i < length K -> exists q, mat_at L i i = Fin q /\ (0 < q)%Q)
  /\ (forall i j, i < j -> j < length K -> dzero (mat_at L i j))
  /\ (forall i j, i < length K -> j < length K ->
        mat_at K i j = dot (L !!! i) (L !!! j)).


(** * Properties *)

(** Case analysis on the lookup at index [i] that the goal contains. *)
Ltac case_lookup i :=
  match goal with
  | |- context [@lookup ?a ?b ?c ?d i ?l] => destruct (@lookup a b c d i l)
  end.

Ltac break_pairs :=
  repeat match goal with
         | |- context [match ?x with pair _ _ => _ end] => destruct x
         end.

(** ** The regularization members across the operations of [solve] *)

Lemma calc_regs s : regs (calc s) = regs s.
Proof.
  unfold calc, regularize_u, regularize_x, calc_blocks.
  break_pairs. cbn.
  repeat (match goal with |- context [if ?b then _ else _] => destruct b end; cbn);
    reflexivity.
Qed.

Lemma computeDirection_regs recalc s : regs (fst (computeDirection recalc s)) = regs s.
Proof.
  unfold computeDirection.
  assert (H : regs (if recalc then calc s else s) = regs s)
    by (destruct recalc; [apply calc_regs | reflexivity]).
  revert H. generalize (if recalc then calc s else s). intros s1 H.
  unfold computePrimalDual. destruct (kkt_llt_ s1 _ _); [|exact H].
  unfold slice_direction. break_pairs. exact H.
Qed.

Lemma expectedImprovement_regs s : regs (expectedImprovement s) = regs s.
Proof. reflexivity. Qed.

Lemma stoppingCriteria_regs s : regs (stoppingCriteria s) = regs s.
Proof. reflexivity. Qed.

Lemma tryStep_regs a s : regs (fst (tryStep a s)) = regs s.
Proof.
  unfold tryStep. break_pairs.
  match goal with |- context [match ?o with Some _ => _ | None => _ end] => destruct o end;
    reflexivity.
Qed.

Lemma line_search_regs alphas s : regs (line_search alphas s) = regs s.
Proof.
  revert s. induction alphas as [|a rest IH]; intros s; [reflexivity|].
  cbn [line_search].
  pose proof (tryStep_regs (steplength_ (set_steplength_ a s)) (set_steplength_ a s)) as Ht.
  destruct (tryStep _ _) as [s1 [dV|]]; cbn [fst] in Ht.
  - match goal with |- context [if ?b then _ else _] => destruct b end.
    + exact Ht.
    + rewrite IH. exact Ht.
  - rewrite IH. exact Ht.
Qed.

(** A statement of [solve] leaves the regularization members alone, or is
    one of the two adaptations. *)
Lemma step_regs maxiter p s :
  let s' := snd (step maxiter (p, s)) in
  regs s' = regs s
  \/ s' = increaseRegularization s
  \/ s' = decreaseRegularization s.
Proof.
  destruct p; cbn [step snd].
  - destruct (Nat.ltb _ _); left; reflexivity.
  - pose proof (computeDirection_regs recalc s) as H.
    destruct (computeDirection recalc s) as [s1 [|]]; cbn [fst] in H.
    + left; exact H.
    + destruct (deqb _ _); left; exact H.
  - left. apply expectedImprovement_regs.
  - left. apply line_search_regs.
  - destruct (dgtb _ _); [right; right|left]; reflexivity.
  - destruct (deqb (steplength_ s) _); [|left; reflexivity].
    destruct (deqb _ _); right; left; reflexivity.
  - left. apply stoppingCriteria_regs.
  - destruct (_ && _); left; reflexivity.
  - left; reflexivity.
Qed.

(** A property of the regularization members that the two adaptations
    preserve holds at every control point of [solve]. *)
Lemma steps_regs_invariant (I : SolverKKT -> Prop) :
  (forall s s', regs s' = regs s -> I s -> I s') ->
  (forall s, I s -> I (increaseRegularization s)) ->
  (forall s, I s -> I (decreaseRegularization s)) ->
  forall n maxiter c, I (snd c) -> I (snd (steps n maxiter c)).
Proof.
  intros Hframe Hinc Hdec n maxiter.
  induction n as [|n IH]; intros [p s] H; [exact H|].
  cbn [steps]. apply IH.
  destruct (step_regs maxiter p s) as [E|[E|E]].
  - eapply Hframe; [exact E|exact H].
  - rewrite E. apply Hinc, H.
  - rewrite E. apply Hdec, H.
Qed.

Lemma increaseRegularization_fields s :
  let s' := increaseRegularization s in
  xreg_ s' = capped s /\ ureg_ s' = capped s /\ regfactor_ s' = regfactor_ s
  /\ regmin_ s' = regmin_ s /\ regmax_ s' = regmax_ s.
Proof.
  unfold increaseRegularization, capped. cbn.
  destruct (dgtb _ _); repeat split.
Qed.

Lemma decreaseRegularization_fields s :
  let s' := decreaseRegularization s in
  xreg_ s' = floored s /\ ureg_ s' = floored s /\ regfactor_ s' = regfactor_ s
  /\ regmin_ s' = regmin_ s /\ regmax_ s' = regmax_ s.
Proof.
  unfold decreaseRegularization, floored. cbn.
  destruct (dltb _ _); repeat split.
Qed.

Lemma regs_inv s s' :
  regs s' = regs s ->
  xreg_ s' = xreg_ s /\ ureg_ s' = ureg_ s /\ regfactor_ s' = regfactor_ s
  /\ regmin_ s' = regmin_ s /\ regmax_ s' = regmax_ s.
Proof. unfold regs. intros H. injection H as -> -> -> -> ->. repeat split. Qed.

Lemma dltb_true a b : dltb a b = true -> exists x y, a = Fin x /\ b = Fin y /\ (x < y)%Q.
Proof.
  destruct a as [|x], b as [|y]; cbn; try discriminate.
  intros H. exists x, y. repeat split.
  apply Qnot_le_lt. intros Hle. apply Qle_bool_iff in Hle. rewrite Hle in H. discriminate.
Qed.

Lemma dltb_false x y : dltb (Fin x) (Fin y) = false -> (y <= x)%Q.
Proof.
  cbn. intros H. apply Qle_bool_iff. destruct (Qle_bool y x); [reflexivity|discriminate].
Qed.

(** ** The two regularization values coincide *)

(** C9. [solve]'s initialization gives the state and the control
    regularization the same value, [increaseRegularization] and
    [decreaseRegularization] each end by copying the state regularization
    into the control regularization, and so the two values are equal at
    every control point of a [solve]. *)
Theorem xreg_ureg_coincide :
  (forall init_xs init_us is_feasible reginit s,
      let s0 := solve_init init_xs init_us is_feasible reginit s in
      xreg_ s0 = ureg_ s0)
  /\ (forall s, ureg_ (increaseRegularization s) = xreg_ (increaseRegularization s))
  /\ (forall s, ureg_ (decreaseRegularization s) = xreg_ (decreaseRegularization s))
  /\ (forall n init_xs init_us maxiter is_feasible reginit s,
         let s' := snd (steps n maxiter
                          (solve_start init_xs init_us is_feasible reginit s)) in
         xreg_ s' = ureg_ s').
Proof.
  assert (Hinc : forall s, ureg_ (increaseRegularization s)
                           = xreg_ (increaseRegularization s)).
  { intros s. destruct (increaseRegularization_fields s) as (-> & -> & _). reflexivity. }
  assert (Hdec : forall s, ureg_ (decreaseRegularization s)
                           = xreg_ (decreaseRegularization s)).
  { intros s. destruct (decreaseRegularization_fields s) as (-> & -> & _). reflexivity. }
  assert (Hinit : forall init_xs init_us is_feasible reginit s,
             xreg_ (solve_init init_xs init_us is_feasible reginit s)
             = ureg_ (solve_init init_xs init_us is_feasible reginit s)).
  { intros. unfold solve_init. destruct (isnan reginit); reflexivity. }
  repeat split; auto.
  intros n init_xs init_us maxiter is_feasible reginit s.
  apply (steps_regs_invariant (fun s => xreg_ s = ureg_ s)).
  - intros s1 s2 E H. apply regs_inv in E. destruct E as (-> & -> & _). exact H.
  - intros s1 _. symmetry. apply Hinc.
  - intros s1 _. symmetry. apply Hdec.
  - cbn. apply Hinit.
Qed.

(** ** A [NaN] initial regularization *)

Lemma calc_blocks_regs s : regs (calc_blocks s) = regs s.
Proof. unfold calc_blocks. break_pairs. reflexivity. Qed.

Lemma calc_blocks_dims s :
  ndx_ (calc_blocks s) = ndx_ s /\ nu_ (calc_blocks s) = nu_ s.
Proof. unfold calc_blocks. break_pairs. split; reflexivity. Qed.

(** C10. When [reginit] is [NaN], [solve] sets both regularization values
    to the number 0; with a non-zero regularization factor neither value is
    [NaN] at any control point of that [solve], so every [calc] adds both
    values to the diagonal of the cost block. *)
Theorem nan_reginit_regularizes init_xs init_us maxiter is_feasible s f :
  regfactor_ s = Fin f ->
  ~ (f == 0)%Q ->
  let c0 := solve_start init_xs init_us is_feasible NaN s in
  xreg_ (snd c0) = Fin 0 /\ ureg_ (snd c0) = Fin 0
  /\ forall n,
      let s' := snd (steps n maxiter c0) in
      isnan (xreg_ s') = false /\ isnan (ureg_ s') = false
      /\ kkt_ (calc s')
         = add_diag (ndx_ s') (nu_ s') (ureg_ s')
             (add_diag 0 (ndx_ s') (xreg_ s') (kkt_ (calc_blocks s'))).
Proof.
  intros Hf Hf0 c0.
  split; [reflexivity|]. split; [reflexivity|].
  intros n s'.
  assert (I : isnan (xreg_ s') = false /\ isnan (ureg_ s') = false
              /\ regfactor_ s' = Fin f).
  { subst s'.
    apply (steps_regs_invariant
             (fun s => isnan (xreg_ s) = false /\ isnan (ureg_ s) = false
                       /\ regfactor_ s = Fin f)).
    - intros s1 s2 E H. apply regs_inv in E. destruct E as (-> & -> & -> & _). exact H.
    - intros s1 (Hx & _ & Hr).
      destruct (increaseRegularization_fields s1) as (-> & -> & -> & _).
      split; [|split; [|exact Hr]]; unfold capped; rewrite Hr;
        (destruct (xreg_ s1) as [|x]; [discriminate|]); cbn [dmul lift2];
        (destruct (dgtb _ _) eqn:Hg; [|reflexivity]);
        apply dltb_true in Hg; destruct Hg as (b & ? & -> & _ & _); reflexivity.
    - intros s1 (Hx & _ & Hr).
      destruct (decreaseRegularization_fields s1) as (-> & -> & -> & _).
      split; [|split; [|exact Hr]]; unfold floored; rewrite Hr;
        (destruct (xreg_ s1) as [|x]; [discriminate|]); cbn [ddiv];
        (destruct (Qeq_bool f 0) eqn:Hz; [apply Qeq_bool_eq in Hz; contradiction|]);
        (destruct (dltb _ _) eqn:Hg; [|reflexivity]);
        apply dltb_true in Hg; destruct Hg as (? & b & _ & -> & _); reflexivity.
    - cbn. repeat split. exact Hf. }
  destruct I as (Hx & Hu & _). repeat split; [exact Hx|exact Hu|].
  unfold calc, regularize_u, regularize_x.
  pose proof (regs_inv _ _ (calc_blocks_regs s')) as (Ex & Eu & _).
  destruct (calc_blocks_dims s') as [En Em].
  rewrite Ex, Hx. cbn [negb set_kkt_ ureg_ kkt_ ndx_ nu_].
  rewrite Eu, Hu. cbn [negb set_kkt_ kkt_].
  rewrite En, Em. reflexivity.
Qed.

(** The default object on a one-stage scalar problem, started with a
    [NaN] initial regularization. *)
Lemma nan_reginit_regularizes_witness :
  let s := Scalar.solver (Scalar.problem 1 [Fin 3]) Scalar.llt_rhs in
  let s' := snd (steps 12 3 (solve_start [[Fin 3]; [Fin 1]] [[Fin 1]] false NaN s)) in
  isnan (xreg_ s') = false /\ isnan (ureg_ s') = false.
Proof.
  intros s s'.
  pose proof (nan_reginit_regularizes [[Fin 3]; [Fin 1]] [[Fin 1]] 3 false s 10
                eq_refl ltac:(discriminate)) as (_ & _ & H).
  destruct (H 12) as (Hx & Hu & _). split; [exact Hx|exact Hu].
Defined.

(** ** Bounds on the regularization *)

Lemma Qeq_bool_false_pos f : (1 <= f)%Q -> Qeq_bool f 0 = false.
Proof.
  intros H. destruct (Qeq_bool f 0) eqn:E; [|reflexivity].
  apply Qeq_bool_eq in E. lra.
Qed.

Lemma capped_cases s f hi x :
  regfactor_ s = Fin f -> regmax_ s = Fin hi -> xreg_ s = Fin x ->
  (capped s = Fin hi /\ (hi < x * f)%Q) \/ (capped s = Fin (x * f) /\ (x * f <= hi)%Q).
Proof.
  intros Ef Eh Ex. unfold capped. rewrite Ef, Eh, Ex. cbn [dmul lift2].
  destruct (dgtb _ _) eqn:Hg.
  - left. split; [reflexivity|]. unfold dgtb in Hg. apply dltb_true in Hg.
    destruct Hg as (a & b & Ea & Eb & Hab). injection Ea as <-. injection Eb as <-.
    exact Hab.
  - right. split; [reflexivity|]. unfold dgtb in Hg. apply dltb_false in Hg. exact Hg.
Qed.

Lemma floored_cases s f lo x :
  regfactor_ s = Fin f -> regmin_ s = Fin lo -> xreg_ s = Fin x -> (1 <= f)%Q ->
  (floored s = Fin lo /\ (x / f < lo)%Q) \/ (floored s = Fin (x / f) /\ (lo <= x / f)%Q).
Proof.
  intros Ef El Ex Hf. unfold floored. rewrite Ef, El, Ex. cbn [ddiv].
  rewrite (Qeq_bool_false_pos f Hf).
  destruct (dltb _ _) eqn:Hg.
  - left. split; [reflexivity|]. apply dltb_true in Hg.
    destruct Hg as (a & b & Ea & Eb & Hab). injection Ea as <-. injection Eb as <-.
    exact Hab.
  - right. split; [reflexivity|]. apply dltb_false in Hg. exact Hg.
Qed.

Lemma Qdiv_le_self x f : (0 <= x)%Q -> (1 <= f)%Q -> (x / f <= x)%Q.
Proof. intros Hx Hf. apply Qle_shift_div_r; [lra|nra]. Qed.

(** C5, as the claim states it, fails at [solve]'s initialization: with the
    constructor's values ([regmin_ = 1e-9]) and a [NaN] initial
    regularization both values are set to 0, below [regmin_]. *)
Lemma regularization_bounds_counterexample :
  let s := Scalar.solver (Scalar.problem 1 [Fin 3]) Scalar.llt_rhs in
  let s0 := solve_init [[Fin 3]; [Fin 1]] [[Fin 1]] false NaN s in
  xreg_ s0 = Fin 0 /\ regmin_ s0 = Fin (1 # 1000000000) /\ ~ in_bounds s0.
Proof.
  cbn zeta. split; [reflexivity|]. split; [reflexivity|].
  intros (H & _). vm_compute in H. apply H. reflexivity.
Qed.

Section RegularizationBounds.
Variables (f lo hi : Q).
Hypothesis Hf1 : (1 <= f)%Q.
Hypothesis Hlo0 : (0 <= lo)%Q.
Hypothesis Hlohi : (lo <= hi)%Q.

Lemma capped_bounds t x :
  regfactor_ t = Fin f -> regmax_ t = Fin hi -> xreg_ t = Fin x ->
  dle (capped t) (Fin hi)
  /\ (capped t = Fin (x * f) \/ capped t = Fin hi)
  /\ ((lo <= x)%Q -> dle (Fin lo) (capped t)).
Proof using Hf1 Hlo0 Hlohi.
  intros Ef Eh Ex. unfold capped. rewrite Ef, Eh, Ex. cbn [dmul lift2].
  destruct (dgtb _ _) eqn:Hg.
  - cbn. split; [lra|]. split; [right; reflexivity|]. intros; lra.
  - apply dltb_false in Hg. cbn. split; [exact Hg|].
    split; [left; reflexivity|]. intros; nra.
Qed.

Lemma floored_bounds t x :
  regfactor_ t = Fin f -> regmin_ t = Fin lo -> xreg_ t = Fin x ->
  dle (Fin lo) (floored t)
  /\ (floored t = Fin (x / f) \/ floored t = Fin lo)
  /\ ((lo <= x)%Q -> (x <= hi)%Q -> dle (floored t) (Fin hi)).
Proof using Hf1 Hlo0 Hlohi.
  intros Ef El Ex. unfold floored. rewrite Ef, El, Ex. cbn [ddiv].
  assert (Hfz : Qeq_bool f 0 = false).
  { destruct (Qeq_bool f 0) eqn:E; [|reflexivity]. apply Qeq_bool_eq in E. lra. }
  rewrite Hfz.
  destruct (dltb _ _) eqn:Hg.
  - cbn. split; [lra|]. split; [right; reflexivity|]. intros; lra.
  - apply dltb_false in Hg. cbn. split; [exact Hg|].
    split; [left; reflexivity|]. intros. apply Qle_shift_div_r; [lra|nra].
Qed.

Lemma bounded_frame s s' : regs s' = regs s -> bounded_by f lo hi s -> bounded_by f lo hi s'.
Proof using Type.
  intros E H. apply regs_inv in E. unfold bounded_by, in_bounds.
  destruct E as (-> & -> & -> & -> & ->). exact H.
Qed.

Lemma bounded_increase t : bounded_by f lo hi t -> bounded_by f lo hi (increaseRegularization t).
Proof using Hf1 Hlo0 Hlohi.
  intros ((B1 & B2 & _) & Ef & El & Eh). unfold bounded_by, in_bounds.
  destruct (increaseRegularization_fields t) as (-> & -> & -> & -> & ->).
  rewrite El in B1. rewrite Eh in B2. rewrite El, Eh.
  destruct (xreg_ t) as [|x] eqn:Ex; [destruct B1|].
  destruct (capped_bounds t x Ef Eh Ex) as (H1 & _ & H3).
  specialize (H3 B1). repeat split; assumption.
Qed.

Lemma bounded_decrease t : bounded_by f lo hi t -> bounded_by f lo hi (decreaseRegularization t).
Proof using Hf1 Hlo0 Hlohi.
  intros ((B1 & B2 & _) & Ef & El & Eh). unfold bounded_by, in_bounds.
  destruct (decreaseRegularization_fields t) as (-> & -> & -> & -> & ->).
  rewrite El in B1. rewrite Eh in B2. rewrite El, Eh.
  destruct (xreg_ t) as [|x] eqn:Ex; [destruct B1|].
  destruct (floored_bounds t x Ef El Ex) as (H1 & _ & H3).
  specialize (H3 B1 B2). repeat split; assumption.
Qed.
End RegularizationBounds.

Lemma solve_init_fields init_xs init_us is_feasible r s :
  let s0 := solve_init init_xs init_us is_feasible (Fin r) s in
  xreg_ s0 = Fin r /\ ureg_ s0 = Fin r /\ regfactor_ s0 = regfactor_ s
  /\ regmin_ s0 = regmin_ s /\ regmax_ s0 = regmax_ s.
Proof. repeat split. Qed.

(** C5, amended.  [solve] stores a numeric [reginit] in both members as it
    is, whatever its value.  [increaseRegularization] replaces [xreg_] by
    [xreg_ * regfactor_], or by [regmax_] when the product exceeds
    [regmax_]; [decreaseRegularization] replaces it by
    [xreg_ / regfactor_], or by [regmin_] when the quotient is below
    [regmin_]; both copy the result into [ureg_].  With
    [0 <= regmin_ <= regmax_], [regfactor_ >= 1] and [reginit] in
    [[regmin_, regmax_]], both values are in [[regmin_, regmax_]] at every
    control point of the [solve]. *)
Theorem regularization_bounds init_xs init_us maxiter is_feasible s f lo hi r :
  regfactor_ s = Fin f -> regmin_ s = Fin lo -> regmax_ s = Fin hi ->
  (1 <= f)%Q -> (0 <= lo)%Q -> (lo <= hi)%Q ->
  (lo <= r)%Q -> (r <= hi)%Q ->
  let c0 := solve_start init_xs init_us is_feasible (Fin r) s in
  (forall r0 xs us feas t,
      let t0 := solve_init xs us feas (Fin r0) t in
      xreg_ t0 = Fin r0 /\ ureg_ t0 = Fin r0)
  /\ (forall t x, regfactor_ t = Fin f -> regmax_ t = Fin hi -> xreg_ t = Fin x ->
        let t' := increaseRegularization t in
        ((x * f <= hi)%Q -> xreg_ t' = Fin (x * f))
        /\ ((hi < x * f)%Q -> xreg_ t' = Fin hi)
        /\ ureg_ t' = xreg_ t'
        /\ dle (xreg_ t') (Fin hi))
  /\ (forall t x, regfactor_ t = Fin f -> regmin_ t = Fin lo -> xreg_ t = Fin x ->
        let t' := decreaseRegularization t in
        ((lo <= x / f)%Q -> xreg_ t' = Fin (x / f))
        /\ ((x / f < lo)%Q -> xreg_ t' = Fin lo)
        /\ ureg_ t' = xreg_ t'
        /\ dle (Fin lo) (xreg_ t'))
  /\ (xreg_ (snd c0) = Fin r /\ ureg_ (snd c0) = Fin r)
  /\ forall n, in_bounds (snd (steps n maxiter c0)).
Proof.
  intros Hf Hlo Hhi Hf1 Hlo0 Hlohi Hr1 Hr2 c0.
  split; [intros; split; reflexivity|].
  split.
  { intros t x Ef Eh Ex t'. subst t'.
    destruct (increaseRegularization_fields t) as (-> & -> & _).
    destruct (capped_cases t f hi x Ef Eh Ex) as [[-> H]|[-> H]]; cbn [dle].
    - split; [intros; lra|]. split; [reflexivity|]. split; [reflexivity|lra].
    - split; [reflexivity|]. split; [intros; lra|]. split; [reflexivity|exact H]. }
  split.
  { intros t x Ef El Ex t'. subst t'.
    destruct (decreaseRegularization_fields t) as (-> & -> & _).
    destruct (floored_cases t f lo x Ef El Ex Hf1) as [[-> H]|[-> H]]; cbn [dle].
    - split; [intros; lra|]. split; [reflexivity|]. split; [reflexivity|lra].
    - split; [reflexivity|]. split; [intros; lra|]. split; [reflexivity|exact H]. }
  split; [split; reflexivity|].
  intros n.
  refine (proj1 (steps_regs_invariant (bounded_by f lo hi)
                   (bounded_frame f lo hi)
                   (bounded_increase f lo hi Hf1 Hlo0 Hlohi)
                   (bounded_decrease f lo hi Hf1 Hlo0 Hlohi) n maxiter c0 _)).
  subst c0. unfold solve_start. cbn [snd].
  apply (bounded_frame f lo hi (solve_init init_xs init_us is_feasible (Fin r) s));
    [reflexivity|].
  destruct (solve_init_fields init_xs init_us is_feasible r s) as (Ex & Eu & Ef & El & Eh).
  unfold bounded_by, in_bounds. rewrite Ex, Eu, Ef, El, Eh, Hf, Hlo, Hhi.
  repeat split; assumption.
Qed.

(** The default object started with [reginit = 1]: the values stay within
    the bounds, and an increase from 1 gives 10 in both members. *)
Lemma regularization_bounds_witness :
  let s := Scalar.solver (Scalar.problem 1 [Fin 3]) Scalar.llt_rhs in
  let s0 := solve_init [[Fin 3]; [Fin 1]] [[Fin 1]] false (Fin 1) s in
  in_bounds (snd (steps 12 3 (solve_start [[Fin 3]; [Fin 1]] [[Fin 1]] false (Fin 1) s)))
  /\ xreg_ (increaseRegularization s0) = Fin (1 * 10)
  /\ ureg_ (increaseRegularization s0) = xreg_ (increaseRegularization s0)
  /\ xreg_ (decreaseRegularization s0) = Fin (1 / 10).
Proof.
  intros s s0.
  destruct (regularization_bounds [[Fin 3]; [Fin 1]] [[Fin 1]] 3 false s
              10 (1 # 1000000000) 1000000000 1 eq_refl eq_refl eq_refl)
    as (_ & Hi & Hd & _ & Hb); try (vm_compute; discriminate).
  destruct (Hi s0 1%Q eq_refl eq_refl eq_refl) as (Hi1 & _ & Hi3 & _).
  destruct (Hd s0 1%Q eq_refl eq_refl eq_refl) as (Hd1 & _).
  split; [exact (Hb 12)|]. split; [apply Hi1; vm_compute; discriminate|].
  split; [exact Hi3|]. apply Hd1. vm_compute. discriminate.
Defined.

(** ** The line search when every trial evaluation throws *)

Lemma tryStep_rejecting a s :
  all_rejecting (problem_ s) ->
  snd (tryStep a s) = None
  /\ candidate (fst (tryStep a s)) = candidate s
  /\ steplength_ (fst (tryStep a s)) = steplength_ s.
Proof.
  intros Hrej. unfold tryStep.
  destruct (tryStep_running _ _ _ _ _ _) as [X U].
  cbn [problem_ set_us_try_ set_xs_try_ datas_ xs_try_ us_try_].
  specialize (Hrej (datas_ s) X U).
  destruct (problem_calc _ _ _ _) as [D [c|]]; [discriminate|].
  repeat split.
Qed.

Lemma line_search_rejecting alphas s :
  all_rejecting (problem_ s) ->
  let s' := line_search alphas s in
  candidate s' = candidate s
  /\ steplength_ s' = default (steplength_ s) (last alphas).
Proof.
  revert s. induction alphas as [|a rest IH]; intros s Hrej; [split; reflexivity|].
  cbn [line_search].
  destruct (tryStep_rejecting (steplength_ (set_steplength_ a s)) (set_steplength_ a s) Hrej)
    as (Hnone & Hcand & Hstep).
  destruct (tryStep _ _) as [s1 o]. cbn [fst snd] in Hnone, Hcand, Hstep. subst o.
  assert (Hrej1 : all_rejecting (problem_ s1)).
  { replace (problem_ s1) with (problem_ s); [exact Hrej|].
    unfold candidate in Hcand. cbn in Hcand. congruence. }
  destruct (IH s1 Hrej1) as (IHc & IHs). split.
  - rewrite IHc, Hcand. reflexivity.
  - rewrite IHs, Hstep. cbn [steplength_ set_steplength_].
    destruct rest as [|b rest]; [reflexivity|].
    rewrite !last_cons. destruct (last rest); reflexivity.
Qed.

Lemma run_returned fuel maxiter b s : run fuel maxiter (Returned b, s) = Some (b, s).
Proof. destruct fuel; reflexivity. Qed.

Lemma run_steps n fuel maxiter c :
  (forall k, k < n -> forall b, fst (steps k maxiter c) <> Returned b) ->
  run (n + fuel) maxiter c = run fuel maxiter (steps n maxiter c).
Proof.
  revert c. induction n as [|n IH]; intros c H; [reflexivity|].
  cbn [Nat.add run steps].
  destruct c as [p s]. destruct p; try (apply IH; intros k Hk; apply (H (S k)); lia).
  exfalso. apply (H 0 ltac:(lia) b). reflexivity.
Qed.

Lemma step_AtIncrease maxiter s :
  (steplength_ s =? alphas_back s)%D = true ->
  let s' := increaseRegularization s in
  step maxiter (AtIncrease, s)
  = (if (xreg_ s' =? regmax_ s')%D then Returned false else AtStop, s').
Proof.
  intros H s'. cbn [step]. rewrite H. fold s'.
  destruct (deqb (xreg_ s') (regmax_ s')); reflexivity.
Qed.

(** C6, as the claim states it, fails on the default call: with a [NaN]
    initial regularization [solve] starts from a regularization of zero,
    and when every trial evaluation throws the iteration calls
    [increaseRegularization], which leaves zero at zero.  The regularization
    is not increased and never reaches [regmax_]; [solve] returns [false]
    only when the iteration cap is reached. *)
Lemma rejecting_line_search_counterexample :
  let s := Scalar.solver (Scalar.rejecting 1 [Fin 3]) Scalar.llt_rhs in
  let c0 := solve_start [[Fin 3]; [Fin 1]] [[Fin 1]] false NaN s in
  let c := steps 3 3 c0 in
  let c' := steps 3 3 c in
  fst c = AtSearch /\ fst c' = AtStop
  /\ steplength_ (snd c') = alphas_back (snd c')
  /\ xreg_ (snd c) = Fin 0 /\ dzero (xreg_ (snd c'))
  /\ ~ (exists a b, xreg_ (snd c) = Fin a /\ xreg_ (snd c') = Fin b /\ (a < b)%Q)
  /\ exists s', solve 100 [[Fin 3]; [Fin 1]] [[Fin 1]] 3 false NaN s = Some (false, s')
                /\ iter_ s' = 3 /\ dzero (xreg_ s')
                /\ (xreg_ s' =? regmax_ s')%D = false.
Proof.
  cbn zeta.
  split; [vm_compute; reflexivity|]. split; [vm_compute; reflexivity|].
  split; [vm_compute; reflexivity|]. split; [vm_compute; reflexivity|].
  split; [vm_compute; reflexivity|].
  split.
  - intros (a & b & Ha & Hb & Hab).
    vm_compute in Ha. vm_compute in Hb.
    injection Ha as <-. injection Hb as <-. revert Hab. vm_compute. discriminate.
  - eexists. split; [vm_compute; reflexivity|].
    split; [reflexivity|]. split; reflexivity.
Qed.

(** C6, amended.  If every trial evaluation throws, the line search ends
    with the step length equal to the last (smallest) candidate and accepts
    nothing; the iteration then calls [increaseRegularization], after
    [decreaseRegularization] when that step length exceeds [th_step_], and
    [solve] returns [false] there as soon as the regularization compares
    equal to [regmax_].  When the smallest step length is not above
    [th_step_], [increaseRegularization] acts on the regularization the
    iteration started with: from a positive regularization below [regmax_],
    with a factor above one, the regularization becomes
    [xreg_ * regfactor_], capped at [regmax_], which is strictly more than
    before, the control regularization follows it, and [solve] returns
    [false] there exactly when the product has reached [regmax_]. *)
Theorem rejecting_line_search_escalates maxiter s :
  all_rejecting (problem_ s) ->
  alphas_ s <> [] ->
  isnan (alphas_back s) = false ->
  let s1 := line_search (alphas_ s) s in
  let s2 := if (steplength_ s1 >? th_step_ s1)%D then decreaseRegularization s1 else s1 in
  let s3 := increaseRegularization s2 in
  (steplength_ s1 = alphas_back s /\ candidate s1 = candidate s /\ regs s1 = regs s)
  /\ steps 3 maxiter (AtSearch, s)
     = (if (xreg_ s3 =? regmax_ s3)%D then Returned false else AtStop, s3)
  /\ xreg_ s3 = capped s2
  /\ ureg_ s3 = xreg_ s3
  /\ ((xreg_ s3 =? regmax_ s3)%D = true ->
      forall fuel, run (3 + fuel) maxiter (AtSearch, s) = Some (false, s3))
  /\ (forall f hi x,
        (alphas_back s >? th_step_ s)%D = false ->
        regfactor_ s = Fin f -> regmax_ s = Fin hi -> xreg_ s = Fin x ->
        (1 < f)%Q -> (0 < x)%Q -> (x < hi)%Q ->
        s2 = s1
        /\ ((x * f <= hi)%Q -> xreg_ s3 = Fin (x * f))
        /\ ((hi < x * f)%Q -> xreg_ s3 = Fin hi)
        /\ (exists y, xreg_ s3 = Fin y /\ (x < y)%Q /\ (y <= hi)%Q)
        /\ ((xreg_ s3 =? regmax_ s3)%D = true <-> (hi <= x * f)%Q)).
Proof.
  intros Hrej Hne Hnan s1 s2 s3.
  destruct (line_search_rejecting (alphas_ s) s Hrej) as (Hcand & Hstep).
  fold s1 in Hcand, Hstep.
  pose proof (line_search_regs (alphas_ s) s) as Hregs. fold s1 in Hregs.
  assert (Hlast : steplength_ s1 = alphas_back s).
  { rewrite Hstep. unfold alphas_back.
    destruct (alphas_ s) as [|a l]; [contradiction|].
    destruct (last (a :: l)) eqn:E; [reflexivity|].
    apply last_None in E. discriminate. }
  assert (Hal : alphas_ s1 = alphas_ s /\ th_step_ s1 = th_step_ s).
  { unfold candidate in Hcand. split; congruence. }
  destruct Hal as [Hal Hth].
  assert (Hs2 : steplength_ s2 = alphas_back s /\ alphas_back s2 = alphas_back s).
  { subst s2. unfold alphas_back. destruct (dgtb _ _).
    - unfold decreaseRegularization. cbn. destruct (dltb _ _); cbn; rewrite Hal; auto.
    - rewrite Hal. auto. }
  destruct Hs2 as (Hs2 & Hb2).
  assert (Heq : (steplength_ s2 =? alphas_back s2)%D = true).
  { rewrite Hs2, Hb2. destruct (alphas_back s); [discriminate|]. apply Qeq_bool_refl. }
  assert (H3 : steps 3 maxiter (AtSearch, s)
               = (if (xreg_ s3 =? regmax_ s3)%D then Returned false else AtStop, s3)).
  { change (steps 3 maxiter (AtSearch, s)) with (step maxiter (AtIncrease, s2)).
    apply step_AtIncrease, Heq. }
  destruct (increaseRegularization_fields s2) as (Hx3 & Hu3 & _ & _ & Hm3).
  fold s3 in Hx3, Hu3, Hm3.
  split; [repeat split; assumption|]. split; [exact H3|].
  split; [exact Hx3|]. split; [rewrite Hx3, Hu3; reflexivity|].
  split.
  { intros Hmax fuel.
    rewrite (run_steps 3).
    - rewrite H3, Hmax. apply run_returned.
    - intros k Hk b.
      destruct k as [|[|[|k]]]; try lia; cbn [steps step fst]; try discriminate. }
  intros f hi x Hsmall Ef Eh Ex Hf Hx Hxh.
  assert (E21 : s2 = s1) by (subst s2; rewrite Hlast, Hth, Hsmall; reflexivity).
  destruct (regs_inv _ _ Hregs) as (Ex1 & _ & Ef1 & _ & Eh1).
  rewrite Ex in Ex1. rewrite Ef in Ef1. rewrite Eh in Eh1.
  rewrite E21 in Hx3, Hm3.
  assert (Hc : (capped s1 = Fin hi /\ (hi < x * f)%Q)
               \/ (capped s1 = Fin (x * f) /\ (x * f <= hi)%Q))
    by (apply capped_cases; assumption).
  split; [exact E21|].
  split; [intros H; rewrite Hx3; destruct Hc as [[_ H']|[-> _]]; [lra|reflexivity]|].
  split; [intros H; rewrite Hx3; destruct Hc as [[-> _]|[_ H']]; [reflexivity|lra]|].
  split.
  { rewrite Hx3. destruct Hc as [[-> H]|[-> H]]; eexists; (split; [reflexivity|]); nra. }
  rewrite Hx3, Hm3, Eh1. destruct Hc as [[-> H]|[-> H]]; cbn [deqb].
  - rewrite Qeq_bool_refl. split; [intros; lra|reflexivity].
  - split.
    + intros E. apply Qeq_bool_iff in E. lra.
    + intros E. apply Qeq_bool_iff. lra.
Qed.

(** The default object on the problem whose trial evaluation always
    throws, with the regularization one factor below its ceiling, and with
    a regularization of one. *)
Lemma rejecting_line_search_escalates_witness :
  let s := set_xreg_ (Fin 100000000)
             (Scalar.solver (Scalar.rejecting 1 [Fin 3]) Scalar.llt_rhs) in
  let t := set_xreg_ (Fin 1)
             (Scalar.solver (Scalar.rejecting 1 [Fin 3]) Scalar.llt_rhs) in
  steplength_ (line_search (alphas_ s) s) = Fin (1 / inject_Z (2 ^ 9))
  /\ (exists s', run (3 + 7) 5 (AtSearch, s) = Some (false, s'))
  /\ (exists y, xreg_ (increaseRegularization
                         (if (steplength_ (line_search (alphas_ t) t)
                              >? th_step_ (line_search (alphas_ t) t))%D
                          then decreaseRegularization (line_search (alphas_ t) t)
                          else line_search (alphas_ t) t)) = Fin y
                /\ (1 < y)%Q /\ (y <= 1000000000)%Q).
Proof.
  intros s t.
  destruct (rejecting_line_search_escalates 5 s
              ltac:(intros d xs us; reflexivity) ltac:(discriminate) eq_refl)
    as ((H1 & _) & _ & _ & _ & H5 & H6).
  destruct (rejecting_line_search_escalates 5 t
              ltac:(intros d xs us; reflexivity) ltac:(discriminate) eq_refl)
    as (_ & _ & _ & _ & _ & K6).
  split; [exact H1|]. split.
  - eexists. apply H5.
    destruct (H6 10%Q 1000000000%Q 100000000%Q eq_refl eq_refl eq_refl eq_refl
                ltac:(reflexivity) ltac:(reflexivity) ltac:(reflexivity))
      as (_ & _ & _ & _ & Hiff).
    apply Hiff. vm_compute. discriminate.
  - destruct (K6 10%Q 1000000000%Q 1%Q eq_refl eq_refl eq_refl eq_refl
                ltac:(reflexivity) ltac:(reflexivity) ltac:(reflexivity))
      as (_ & _ & _ & Hy & _).
    exact Hy.
Defined.

(** ** The [catch] block of [solve] *)

(** Were an exception to leave [computeDirection] with the regularization
    not at its ceiling, the retry would re-enter [computeDirection] with
    the solver exactly as it was: the [catch] block does not call
    [increaseRegularization]. *)
Lemma refused_retry_is_stuck maxiter s :
  computePrimalDual s = None ->
  (xreg_ s =? regmax_ s)%D = false ->
  step maxiter (AtDirection false, s) = (AtDirection false, s).
Proof.
  intros Hnone Hreg. cbn [step]. unfold computeDirection. rewrite Hnone, Hreg. reflexivity.
Qed.

Lemma steps_add a b maxiter c :
  steps (a + b) maxiter c = steps b maxiter (steps a maxiter c).
Proof. revert c. induction a as [|a IH]; intros c; [reflexivity|]. cbn [Nat.add steps]. apply IH. Qed.

(** ** Coefficient-wise updates *)

Lemma mmap_ij_compose g f (K : mat) :
  mmap_ij g (mmap_ij f K) = mmap_ij (ecomp g f) K.
Proof.
  unfold mmap_ij, ecomp. apply list_eq; intros i. rewrite !list_lookup_imap.
  case_lookup i; [|reflexivity]. cbn. f_equal.
  apply list_eq; intros j. rewrite !list_lookup_imap.
  case_lookup j; reflexivity.
Qed.

Lemma mmap_ij_id (K : mat) : mmap_ij (fun _ _ x => x) K = K.
Proof.
  unfold mmap_ij. apply list_eq; intros i. rewrite list_lookup_imap.
  case_lookup i; [|reflexivity]. cbn. f_equal.
  apply list_eq; intros j. rewrite list_lookup_imap. case_lookup j; reflexivity.
Qed.

Lemma mmap_ij_ext f g (K : mat) :
  (forall i j x, mlookup K i j = Some x -> f i j x = g i j x) ->
  mmap_ij f K = mmap_ij g K.
Proof.
  intros H. unfold mmap_ij. apply imap_ext; intros i row Hi.
  apply imap_ext; intros j x Hj. apply H. unfold mlookup. rewrite Hi. exact Hj.
Qed.

Lemma mlookup_mmap_ij f (K : mat) i j :
  mlookup (mmap_ij f K) i j = f i j <$> mlookup K i j.
Proof.
  unfold mlookup, mmap_ij. rewrite list_lookup_imap.
  case_lookup i; [|reflexivity]. cbn. apply list_lookup_imap.
Qed.

Lemma mat_at_mlookup (K : mat) i j : mat_at K i j = default NaN (mlookup K i j).
Proof.
  unfold mat_at, mlookup. rewrite (list_lookup_total_alt K i).
  case_lookup i; cbn.
  - exact (list_lookup_total_alt _ j).
  - reflexivity.
Qed.

Lemma imap_compose (g f : nat -> double -> double) (l : vec) :
  imap g (imap f l) = imap (vcomp g f) l.
Proof.
  unfold vcomp. apply list_eq; intros k. rewrite !list_lookup_imap.
  case_lookup k; reflexivity.
Qed.

Lemma imap_id (l : vec) : imap (fun _ x => x) l = l.
Proof. apply list_eq; intros k. rewrite list_lookup_imap. case_lookup k; reflexivity. Qed.

Lemma wblock_const_or_keeps r c h w e i j :
  const_at (wblock r c h w e) i j \/ keeps_at (wblock r c h w e) i j.
Proof.
  unfold const_at, keeps_at, wblock.
  destruct (in_range r h i && in_range c w j); [left|right]; reflexivity.
Qed.

Lemma wblock_const_in r c h w e i j :
  r <= i < r + h -> c <= j < c + w -> const_at (wblock r c h w e) i j.
Proof.
  intros Hi Hj x y. unfold wblock, in_range.
  destruct (Nat.leb_spec r i); [|lia]. destruct (Nat.ltb_spec i (r + h)); [|lia].
  destruct (Nat.leb_spec c j); [|lia]. destruct (Nat.ltb_spec j (c + w)); [|lia].
  reflexivity.
Qed.

Lemma compose_const_or_keeps g f i j :
  const_at g i j \/ keeps_at g i j ->
  const_at f i j \/ keeps_at f i j ->
  const_at (ecomp g f) i j \/ keeps_at (ecomp g f) i j.
Proof.
  unfold const_at, keeps_at, ecomp. intros [Hg|Hg] [Hf|Hf].
  - left; intros; apply Hg.
  - left; intros; apply Hg.
  - left; intros x y. rewrite (Hf x y). reflexivity.
  - right; intros x. rewrite Hg, Hf. reflexivity.
Qed.

Lemma compose_const_l g f i j : const_at g i j -> const_at (ecomp g f) i j.
Proof. unfold const_at, ecomp. intros H x y. apply H. Qed.

Lemma compose_const_r g f i j : const_at f i j -> const_at (ecomp g f) i j.
Proof. unfold const_at, ecomp. intros H x y. rewrite (H x y). reflexivity. Qed.

Lemma const_or_keeps_idem w i j x :
  const_at w i j \/ keeps_at w i j -> w i j (w i j x) = w i j x.
Proof. intros [H|H]; [apply H|]. rewrite !H. reflexivity. Qed.

Lemma wseg_const_or_keeps i n src k :
  vconst_at (wseg i n src) k \/ vkeeps_at (wseg i n src) k.
Proof.
  unfold vconst_at, vkeeps_at, wseg. destruct (in_range i n k); [left|right]; reflexivity.
Qed.

Lemma vcompose_const_or_keeps g f k :
  vconst_at g k \/ vkeeps_at g k ->
  vconst_at f k \/ vkeeps_at f k ->
  vconst_at (vcomp g f) k \/ vkeeps_at (vcomp g f) k.
Proof.
  unfold vconst_at, vkeeps_at, vcomp. intros [Hg|Hg] [Hf|Hf].
  - left; intros; apply Hg.
  - left; intros; apply Hg.
  - left; intros x y. rewrite (Hf x y). reflexivity.
  - right; intros x. rewrite Hg, Hf. reflexivity.
Qed.

Lemma vconst_or_keeps_idem v k x :
  vconst_at v k \/ vkeeps_at v k -> v k (v k x) = v k x.
Proof. intros [H|H]; [apply H|]. rewrite !H. reflexivity. Qed.

(** ** [calc] fills its buffers coefficient by coefficient *)

(** The loop over the running models is one coefficient-wise update of
    [kkt_] and one of [kktref_]; neither depends on what the buffers held.
    The diagonal of the cost block is overwritten over the stages the loop
    visits. *)
Lemma calc_running_entrywise s cx0 ms :
  forall t ix iu,
  exists W V,
    (forall K r,
        calc_running s cx0 ms t ix iu K r
        = (ix + sum_list (stage_ndx ms), iu + sum_list (stage_nu ms),
           mmap_ij W K, imap V r))
    /\ (forall i j, const_at W i j \/ keeps_at W i j)
    /\ (forall k, vconst_at V k \/ vkeeps_at V k)
    /\ (forall i, ix <= i < ix + sum_list (stage_ndx ms) -> const_at W i i)
    /\ (forall i, ndx_ s + iu <= i < ndx_ s + iu + sum_list (stage_nu ms) ->
                  const_at W i i).
Proof.
  induction ms as [|m ms IH]; intros t ix iu.
  - exists (fun _ _ x => x), (fun _ x => x). cbn. rewrite !Nat.add_0_r.
    split; [intros K r; rewrite mmap_ij_id, imap_id; reflexivity|].
    split; [intros; right; intros x; reflexivity|].
    split; [intros; right; intros x; reflexivity|].
    split; intros; lia.
  - set (d := running_datas_ (datas_ s) !!! t).
    set (ndxi := get_ndx (get_state m)). set (nui := get_nu m).
    destruct (IH (S t) (ix + ndxi) (iu + nui)) as (W' & V' & HE & HW & HV & Hx & Hu).
    set (w1 := wblock ix ix ndxi ndxi (mat_at (get_Lxx d))).
    set (w2 := wblock ix (ndx_ s + iu) ndxi nui (mat_at (get_Lxu d))).
    set (w3 := wblock (ndx_ s + iu) ix nui ndxi (etranspose (mat_at (get_Lxu d)))).
    set (w4 := wblock (ndx_ s + iu) (ndx_ s + iu) nui nui (mat_at (get_Luu d))).
    set (w5 := wblock (ndx_ s + nu_ s + cx0 + ix) ix ndxi ndxi (eopp (mat_at (get_Fx d)))).
    set (w6 := wblock (ndx_ s + nu_ s + cx0 + ix) (ndx_ s + iu) ndxi nui
                 (eopp (mat_at (get_Fu d)))).
    set (v0 := fun k x =>
                 if Nat.eqb t 0
                 then wseg (ndx_ s + nu_ s) ndxi
                        (diff (get_state m) (get_x0 (problem_ s)) (xs_ s !!! 0)) k x
                 else x).
    set (v1 := wseg ix ndxi (get_Lx d)).
    set (v2 := wseg (ndx_ s + iu) nui (get_Lu d)).
    set (v3 := wseg (ndx_ s + nu_ s + cx0 + ix) ndxi
                 (diff (get_state m) (get_xnext d) (xs_ s !!! (t + 1)))).
    exists (ecomp W' (ecomp w6 (ecomp w5 (ecomp w4 (ecomp w3 (ecomp w2 w1)))))),
           (vcomp V' (vcomp v3 (vcomp v2 (vcomp v1 v0)))).
    split.
    { intros K r. cbn [calc_running]. fold d ndxi nui. rewrite HE.
      unfold set_block, set_segment. rewrite !mmap_ij_compose.
      replace (if Nat.eqb t 0 then imap _ r else r) with (imap v0 r).
      - rewrite !imap_compose.
        change (sum_list (stage_ndx (m :: ms))) with (ndxi + sum_list (stage_ndx ms)).
        change (sum_list (stage_nu (m :: ms))) with (nui + sum_list (stage_nu ms)).
        rewrite !Nat.add_assoc. reflexivity.
      - unfold v0. destruct (Nat.eqb t 0); [reflexivity|apply imap_id]. }
    split.
    { intros i j. repeat (apply compose_const_or_keeps; [try apply HW|]);
        apply wblock_const_or_keeps. }
    split.
    { intros k. repeat (apply vcompose_const_or_keeps; [try apply HV|]);
        try apply wseg_const_or_keeps.
      unfold v0. destruct (Nat.eqb t 0); [apply wseg_const_or_keeps|].
      right; intros x; reflexivity. }
    change (sum_list (stage_ndx (m :: ms))) with (ndxi + sum_list (stage_ndx ms)).
    change (sum_list (stage_nu (m :: ms))) with (nui + sum_list (stage_nu ms)).
    split.
    + intros i Hi. destruct (Nat.lt_ge_cases i (ix + ndxi)) as [Hlt|Hge].
      * do 6 apply compose_const_r. apply wblock_const_in; lia.
      * apply compose_const_l. apply Hx. lia.
    + intros i Hi. destruct (Nat.lt_ge_cases i (ndx_ s + iu + nui)) as [Hlt|Hge].
      * apply compose_const_r, compose_const_r, compose_const_r, compose_const_l.
        apply wblock_const_in; lia.
      * apply compose_const_l. apply Hu. lia.
Qed.

(** All the blocks written from the derivative data, as one update.  With
    the dimensions that [allocateData] computes, every diagonal coefficient
    of the cost block is overwritten. *)
Lemma calc_writes_entrywise s :
  exists W V,
    (forall K r, calc_writes s K r = (mmap_ij W K, imap V r))
    /\ (forall i j, const_at W i j \/ keeps_at W i j)
    /\ (forall k, vconst_at V k \/ vkeeps_at V k)
    /\ (dims_ok s -> forall i, i < ndx_ s + nu_ s -> const_at W i i).
Proof.
  set (P := problem_ s).
  set (cx0 := get_ndx (get_state (running_models_ P !!! 0))).
  destruct (calc_running_entrywise s cx0 (running_models_ P) 0 0 0)
    as (W' & V' & HE & HW & HV & Hx & Hu).
  set (ixf := 0 + sum_list (stage_ndx (running_models_ P))) in *.
  set (ndxf := get_ndx (get_state (terminal_model_ P))).
  set (wI := wblock (ndx_ s + nu_ s) 0 (ndx_ s) (ndx_ s) eIdentity).
  set (wT := wblock ixf ixf ndxf ndxf (mat_at (get_Lxx (terminal_data_ (datas_ s))))).
  set (vT := wseg ixf ndxf (get_Lx (terminal_data_ (datas_ s)))).
  exists (ecomp wT (ecomp W' wI)), (vcomp vT V').
  split.
  { intros K r. unfold calc_writes. fold P cx0. unfold set_block at 1.
    rewrite HE. fold ixf. unfold set_block, set_segment.
    rewrite !mmap_ij_compose, imap_compose. reflexivity. }
  split.
  { intros i j. apply compose_const_or_keeps; [apply wblock_const_or_keeps|].
    apply compose_const_or_keeps; [apply HW|apply wblock_const_or_keeps]. }
  split.
  { intros k. apply vcompose_const_or_keeps; [apply wseg_const_or_keeps|apply HV]. }
  intros [Hndx Hnu] i Hi. fold P in Hndx, Hnu. fold ndxf in Hndx.
  destruct (Nat.lt_ge_cases i ixf) as [H1|H1].
  - apply compose_const_r, compose_const_l, Hx. lia.
  - destruct (Nat.lt_ge_cases i (ndx_ s)) as [H2|H2].
    + apply compose_const_l, wblock_const_in; subst ixf; lia.
    + apply compose_const_r, compose_const_l, Hu. lia.
Qed.

Lemma calc_running_ctx s s' cx0 ms :
  ctx s = ctx s' ->
  forall t ix iu K r,
    calc_running s cx0 ms t ix iu K r = calc_running s' cx0 ms t ix iu K r.
Proof.
  intros H. unfold ctx in H. injection H as HP HD HX Hn Hm.
  induction ms as [|m ms IH]; intros t ix iu K r; [reflexivity|].
  cbn [calc_running]. rewrite HP, HD, HX, Hn, Hm. apply IH.
Qed.

Lemma calc_writes_ctx s s' :
  ctx s = ctx s' -> forall K r, calc_writes s K r = calc_writes s' K r.
Proof.
  intros H K r. unfold calc_writes.
  rewrite (calc_running_ctx s s' _ _ H).
  unfold ctx in H. injection H as HP HD HX Hn Hm.
  rewrite HP, HD, Hn, Hm. reflexivity.
Qed.

Lemma regularize_x_fields s :
  let s' := regularize_x s in
  kkt_ s' = (if negb (isnan (xreg_ s))
             then add_diag 0 (ndx_ s) (xreg_ s) (kkt_ s) else kkt_ s)
  /\ kktref_ s' = kktref_ s /\ ctx s' = ctx s /\ us_ s' = us_ s
  /\ cost_ s' = cost_ s /\ regs s' = regs s.
Proof. unfold regularize_x. destruct (isnan (xreg_ s)); repeat split. Qed.

Lemma regularize_u_fields s :
  let s' := regularize_u s in
  kkt_ s' = (if negb (isnan (ureg_ s))
             then add_diag (ndx_ s) (nu_ s) (ureg_ s) (kkt_ s) else kkt_ s)
  /\ kktref_ s' = kktref_ s /\ ctx s' = ctx s /\ us_ s' = us_ s
  /\ cost_ s' = cost_ s /\ regs s' = regs s.
Proof. unfold regularize_u. destruct (isnan (ureg_ s)); repeat split. Qed.

Lemma calc_blocks_fields s D c :
  problem_calcDiff (problem_ s) (datas_ s) (xs_ s) (us_ s) = (D, c) ->
  let sA := set_cost_ c (set_datas_ D s) in
  let s' := calc_blocks s in
  kkt_ s' = copy_transposed (ndx_ s) (nu_ s) (fst (calc_writes sA (kkt_ s) (kktref_ s)))
  /\ kktref_ s' = snd (calc_writes sA (kkt_ s) (kktref_ s))
  /\ ctx s' = ctx sA /\ us_ s' = us_ s /\ cost_ s' = c /\ regs s' = regs s.
Proof.
  intros HD sA. unfold calc_blocks. rewrite HD. fold sA.
  change (kkt_ sA) with (kkt_ s). change (kktref_ sA) with (kktref_ s).
  destruct (calc_writes sA (kkt_ s) (kktref_ s)) as [K r]. repeat split.
Qed.

(** What [calc] leaves in the two buffers and in the members it reads. *)
Lemma calc_buffers s D c :
  problem_calcDiff (problem_ s) (datas_ s) (xs_ s) (us_ s) = (D, c) ->
  let sA := set_cost_ c (set_datas_ D s) in
  kkt_ (calc s)
  = mmap_ij (reg_entry s)
      (copy_transposed (ndx_ s) (nu_ s) (fst (calc_writes sA (kkt_ s) (kktref_ s))))
  /\ kktref_ (calc s) = snd (calc_writes sA (kkt_ s) (kktref_ s))
  /\ ctx (calc s) = ctx sA
  /\ us_ (calc s) = us_ s
  /\ cost_ (calc s) = c
  /\ regs (calc s) = regs s.
Proof.
  intros HD sA. unfold calc.
  destruct (calc_blocks_fields s D c HD) as (K1 & r1 & c1 & u1 & o1 & g1).
  fold sA in K1, r1, c1.
  destruct (regularize_x_fields (calc_blocks s)) as (K2 & r2 & c2 & u2 & o2 & g2).
  destruct (regularize_u_fields (regularize_x (calc_blocks s)))
    as (K3 & r3 & c3 & u3 & o3 & g3).
  assert (Hn : ndx_ (calc_blocks s) = ndx_ s /\ nu_ (calc_blocks s) = nu_ s).
  { unfold ctx in c1. injection c1 as _ _ _ -> ->. split; reflexivity. }
  assert (Hn2 : ndx_ (regularize_x (calc_blocks s)) = ndx_ s
                /\ nu_ (regularize_x (calc_blocks s)) = nu_ s).
  { unfold ctx in c2. injection c2 as _ _ _ -> ->. exact Hn. }
  destruct Hn as [Hn Hm]. destruct Hn2 as [Hn2 Hm2].
  pose proof (regs_inv _ _ g1) as (x1 & y1 & _).
  pose proof (regs_inv _ _ g2) as (x2 & y2 & _).
  split.
  { rewrite K3, K2, K1, Hn2, Hm2, Hn, y2, y1, x1.
    unfold reg_entry, add_diag.
    destruct (isnan (xreg_ s)), (isnan (ureg_ s)); cbn [negb];
      rewrite ?mmap_ij_compose; try reflexivity.
    symmetry. apply mmap_ij_id. }
  split; [congruence|]. split; [congruence|]. split; [congruence|].
  split; congruence.
Qed.

Lemma in_range_true lo len k : in_range lo len k = true <-> lo <= k < lo + len.
Proof.
  unfold in_range. rewrite andb_true_iff, Nat.leb_le, Nat.ltb_lt. reflexivity.
Qed.

Lemma in_range_false lo len k : in_range lo len k = false <-> ~ (lo <= k < lo + len).
Proof.
  rewrite <- in_range_true. destruct (in_range lo len k); split; congruence.
Qed.

Lemma wdiag_keeps r n a i j : i <> j \/ ~ (r <= i < r + n) -> keeps_at (wdiag r n a) i j.
Proof.
  intros H x. unfold wdiag. destruct H as [H|H].
  - apply Nat.eqb_neq in H. rewrite H. reflexivity.
  - apply in_range_false in H. rewrite H, andb_false_r. reflexivity.
Qed.

Lemma reg_entry_keeps s i j :
  i <> j \/ ndx_ s + nu_ s <= i -> keeps_at (reg_entry s) i j.
Proof.
  intros H x. unfold reg_entry.
  assert (H1 : keeps_at (wdiag 0 (ndx_ s) (xreg_ s)) i j)
    by (apply wdiag_keeps; destruct H; [left; assumption|right; lia]).
  assert (H2 : keeps_at (wdiag (ndx_ s) (nu_ s) (ureg_ s)) i j)
    by (apply wdiag_keeps; destruct H; [left; assumption|right; lia]).
  destruct (negb (isnan (xreg_ s))), (negb (isnan (ureg_ s)));
    rewrite ?H2, ?H1; reflexivity.
Qed.

(** Overwrite, copy the constraint block across, add on the diagonal: done
    twice, this gives what it gives once, provided the additions fall on
    coefficients that the first step overwrites. *)
Lemma assemble_idempotent (W R : nat -> nat -> double -> double) (ndx nu : nat) (K : mat) :
  (forall i j, const_at W i j \/ keeps_at W i j) ->
  (forall i j, i <> j \/ ndx + nu <= i -> keeps_at R i j) ->
  (forall i, i < ndx + nu -> const_at W i i) ->
  let F := fun K => mmap_ij R (copy_transposed ndx nu (mmap_ij W K)) in
  F (F K) = F K.
Proof.
  intros HW HR HD F.
  set (n := ndx + nu) in *.
  set (cp := fun M : mat => wblock 0 n n ndx (etranspose (eblock n 0 (mat_at M)))).
  assert (HF : forall K, F K = mmap_ij (ecomp R (ecomp (cp (mmap_ij W K)) W)) K).
  { intros K'. unfold F, copy_transposed, set_block. fold n.
    rewrite !mmap_ij_compose. reflexivity. }
  rewrite (HF (F K)). rewrite (HF K) at 2 3. rewrite mmap_ij_compose.
  apply mmap_ij_ext. intros i j x Hx. unfold ecomp.
  set (M := mmap_ij W K). set (M' := mmap_ij W (F K)).
  assert (Hlow : forall a b, n <= a -> b < n -> mat_at M' a b = mat_at M a b).
  { intros a b Ha Hb. rewrite !mat_at_mlookup. unfold M', M.
    rewrite !mlookup_mmap_ij, (HF K), mlookup_mmap_ij.
    destruct (mlookup K a b) as [y|]; [|reflexivity]. cbn. unfold ecomp.
    assert (Hcp : cp (mmap_ij W K) a b (W a b y) = W a b y).
    { unfold cp, wblock. replace (in_range 0 n a) with false; [reflexivity|].
      symmetry. apply in_range_false. lia. }
    rewrite Hcp, (HR a b ltac:(left; lia)). apply const_or_keeps_idem, HW. }
  destruct (in_range 0 n i && in_range n ndx j) eqn:Hb.
  - assert (Hcp : forall M0 z, cp M0 i j z = mat_at M0 (n + (j - n)) (0 + (i - 0))).
    { intros M0 z. unfold cp, wblock. rewrite Hb. reflexivity. }
    apply andb_true_iff in Hb. destruct Hb as [Hi Hj].
    apply in_range_true in Hi. apply in_range_true in Hj.
    rewrite !Hcp. rewrite Hlow by lia. reflexivity.
  - assert (Hcp : forall M0 z, cp M0 i j z = z).
    { intros M0 z. unfold cp, wblock. rewrite Hb. reflexivity. }
    rewrite !Hcp.
    destruct (Nat.eq_dec i j) as [->|Hne].
    + destruct (Nat.lt_ge_cases j n) as [Hlt|Hge].
      * rewrite (HD j Hlt _ x). reflexivity.
      * rewrite (HR j j ltac:(right; lia) (W j j x)).
        rewrite (const_or_keeps_idem W j j x (HW j j)). apply HR. right; lia.
    + rewrite (HR i j ltac:(left; assumption) (W i j x)).
      rewrite (const_or_keeps_idem W i j x (HW i j)). apply HR. left; assumption.
Qed.

Lemma imap_idempotent (V : nat -> double -> double) (r : vec) :
  (forall k, vconst_at V k \/ vkeeps_at V k) -> imap V (imap V r) = imap V r.
Proof.
  intros H. rewrite imap_compose. apply imap_ext. intros k x _.
  unfold vcomp. apply vconst_or_keeps_idem, H.
Qed.

(** ** Rebuilding the KKT system *)

(** C4. With the dimensions that [allocateData] computes and a derivative
    evaluation that returns the same data and cost when it is repeated,
    [calc] called twice in succession leaves the same KKT matrix, the same
    residual vector and the same cost as [calc] called once: every diagonal
    coefficient of the cost block is overwritten before the regularization
    is added, so the regularization does not accumulate. *)
Theorem calc_twice s :
  dims_ok s ->
  stable_calcDiff s ->
  kkt_ (calc (calc s)) = kkt_ (calc s)
  /\ kktref_ (calc (calc s)) = kktref_ (calc s)
  /\ cost_ (calc (calc s)) = cost_ (calc s).
Proof.
  intros Hdims Hstable. unfold stable_calcDiff in Hstable. cbn zeta in Hstable.
  destruct (problem_calcDiff (problem_ s) (datas_ s) (xs_ s) (us_ s)) as [D c] eqn:HD.
  cbn [fst] in Hstable.
  set (sA := set_cost_ c (set_datas_ D s)).
  destruct (calc_buffers s D c HD) as (HK & Hr & Hctx & Hus & Hc & Hregs).
  fold sA in HK, Hr, Hctx.
  set (s1 := calc s) in *.
  assert (Hctx' : problem_ s1 = problem_ s /\ datas_ s1 = D /\ xs_ s1 = xs_ s
                  /\ ndx_ s1 = ndx_ s /\ nu_ s1 = nu_ s).
  { unfold ctx in Hctx. injection Hctx as -> -> -> -> ->. repeat split. }
  destruct Hctx' as (EP & ED & EX & En & Em).
  assert (HD1 : problem_calcDiff (problem_ s1) (datas_ s1) (xs_ s1) (us_ s1) = (D, c)).
  { rewrite EP, ED, EX, Hus. exact Hstable. }
  destruct (calc_buffers s1 D c HD1) as (HK' & Hr' & _ & _ & Hc' & _).
  set (sB := set_cost_ c (set_datas_ D s1)) in *.
  assert (HAB : ctx sB = ctx sA).
  { unfold ctx, sB, sA. cbn. rewrite EP, EX, En, Em. reflexivity. }
  rewrite (calc_writes_ctx sB sA HAB) in HK', Hr'.
  assert (HR : reg_entry s1 = reg_entry s).
  { apply regs_inv in Hregs. destruct Hregs as (Ex & Eu & _).
    unfold reg_entry. rewrite Ex, Eu, En, Em. reflexivity. }
  rewrite HR, En, Em in HK'.
  destruct (calc_writes_entrywise sA) as (W & V & HE & HW & HV & Hdiag).
  rewrite !HE in HK', Hr'. rewrite HE in HK, Hr. cbn [fst snd] in *.
  split; [|split].
  - rewrite HK', HK.
    apply (assemble_idempotent W (reg_entry s) (ndx_ s) (nu_ s) (kkt_ s) HW).
    + intros i j. apply reg_entry_keeps.
    + apply Hdiag. exact Hdims.
  - rewrite Hr', Hr. apply imap_idempotent, HV.
  - rewrite Hc', Hc. reflexivity.
Qed.

(** The default object on the two-stage scalar problem, with a numeric
    regularization. *)
Lemma calc_twice_witness :
  let s := setCandidate [[Fin 3]; [Fin 1]; [Fin 2]] [[Fin 1]; [Fin 1]] false
             (set_ureg_ (Fin 1) (set_xreg_ (Fin 1)
                (Scalar.solver (Scalar.problem 2 [Fin 3]) Scalar.llt_rhs))) in
  kkt_ (calc (calc s)) = kkt_ (calc s)
  /\ kktref_ (calc (calc s)) = kktref_ (calc s)
  /\ cost_ (calc (calc s)) = cost_ (calc s).
Proof.
  intros s. apply (calc_twice s).
  - unfold dims_ok. split; vm_compute; reflexivity.
  - vm_compute. reflexivity.
Defined.

(** ** Slicing the solution into per-stage directions *)

Lemma segment_add i a b (v : vec) :
  segment i (a + b) v = segment i a v ++ segment (i + a) b v.
Proof. unfold segment. rewrite <- take_take_drop, drop_drop. reflexivity. Qed.

Lemma concat_slices (v : vec) dims :
  forall i, concat (slices v i dims) = segment i (sum_list dims) v.
Proof.
  induction dims as [|n dims IH]; intros i; cbn [slices concat sum_list].
  - unfold segment. reflexivity.
  - rewrite IH, segment_add. reflexivity.
Qed.

Lemma slices_app (v : vec) a b :
  forall i, slices v i (a ++ b) = slices v i a ++ slices v (i + sum_list a) b.
Proof.
  induction a as [|n a IH]; intros i; cbn [slices app sum_list].
  - rewrite Nat.add_0_r. reflexivity.
  - rewrite IH, Nat.add_assoc. reflexivity.
Qed.

Lemma length_slices (v : vec) dims : forall i, length (slices v i dims) = length dims.
Proof. induction dims as [|n dims IH]; intros i; cbn; [|rewrite IH]; reflexivity. Qed.

Lemma insert_between (l : list vec) t x rest n :
  t < length l ->
  take (S t) (<[t := x]> l) ++ rest ++ drop (S t + n) (<[t := x]> l)
  = take t l ++ (x :: rest) ++ drop (t + S n) l.
Proof.
  intros Ht.
  rewrite (take_S_r _ t x) by (apply list_lookup_insert_eq; exact Ht).
  rewrite take_insert_ge by lia. rewrite drop_insert_lt by lia.
  rewrite <- app_assoc. cbn [app]. replace (t + S n) with (S t + n) by lia. reflexivity.
Qed.

(** The loop of [computeDirection] writes, from stage [t] on, the
    consecutive slices of the three vectors. *)
Lemma direction_running_slices p_x p_u dual ms :
  forall t ix iu (dxs dus lambdas : list vec),
    t + length ms <= length dxs ->
    t + length ms <= length dus ->
    t + length ms <= length lambdas ->
    direction_running p_x p_u dual ms t ix iu dxs dus lambdas
    = (ix + sum_list (stage_ndx ms),
       take t dxs ++ slices p_x ix (stage_ndx ms) ++ drop (t + length ms) dxs,
       take t dus ++ slices p_u iu (stage_nu ms) ++ drop (t + length ms) dus,
       take t lambdas ++ slices dual ix (stage_ndx ms) ++ drop (t + length ms) lambdas).
Proof.
  induction ms as [|m ms IH]; intros t ix iu dxs dus lambdas H1 H2 H3.
  - cbn. rewrite !Nat.add_0_r, !take_drop. reflexivity.
  - cbn [direction_running]. cbn [length] in H1, H2, H3.
    rewrite IH by (rewrite length_insert; lia).
    change (sum_list (stage_ndx (m :: ms)))
      with (get_ndx (get_state m) + sum_list (stage_ndx ms)).
    change (stage_ndx (m :: ms)) with (get_ndx (get_state m) :: stage_ndx ms).
    change (stage_nu (m :: ms)) with (get_nu m :: stage_nu ms).
    cbn [slices length].
    rewrite !insert_between by lia. rewrite Nat.add_assoc. reflexivity.
Qed.

Lemma set_back_last (l : list vec) n y :
  length l = S n -> set_back y l = take n l ++ [y].
Proof.
  intros H. unfold set_back. rewrite H. cbn [pred].
  rewrite insert_take_drop by lia.
  rewrite (drop_ge l (S n)) by lia. reflexivity.
Qed.

Lemma calc_slots s : slots (calc s) = slots s.
Proof.
  unfold calc, regularize_u, regularize_x, calc_blocks.
  break_pairs. cbn.
  repeat (match goal with |- context [if ?b then _ else _] => destruct b end; cbn);
    reflexivity.
Qed.

Lemma slice_direction_slices s :
  allocated s ->
  let P := problem_ s in
  let dims := stage_ndx (running_models_ P) ++ [get_ndx (get_state (terminal_model_ P))] in
  let s' := slice_direction s in
  dxs_ s' = slices (segment 0 (ndx_ s) (primal_ s)) 0 dims
  /\ dus_ s' = slices (segment (ndx_ s) (nu_ s) (primal_ s)) 0
                 (stage_nu (running_models_ P))
  /\ lambdas_ s' = slices (dual_ s) 0 dims
  /\ primal_ s' = primal_ s /\ dual_ s' = dual_ s /\ primaldual_ s' = primaldual_ s.
Proof.
  intros (_ & Ldx & Ldu & Lla) P dims s'. subst s'. unfold slice_direction.
  fold P. unfold get_T in Ldx, Ldu, Lla. fold P in Ldx, Ldu, Lla.
  set (T := length (running_models_ P)) in *.
  rewrite direction_running_slices by (fold T; lia).
  fold T.
  assert (LT : length (stage_ndx (running_models_ P)) = T
               /\ length (stage_nu (running_models_ P)) = T).
  { unfold stage_ndx, stage_nu. rewrite !length_fmap. split; reflexivity. }
  destruct LT as [LTx LTu].
  assert (Hback : forall (v : vec) (l : list vec),
             length l = T + 1 ->
             set_back (segment (sum_list (stage_ndx (running_models_ P)))
                         (get_ndx (get_state (terminal_model_ P))) v)
               (slices v 0 (stage_ndx (running_models_ P)) ++ drop T l)
             = slices v 0 dims).
  { intros v l Hl. rewrite (set_back_last _ T).
    - rewrite take_app_length' by (rewrite length_slices; symmetry; exact LTx).
      unfold dims. rewrite slices_app. reflexivity.
    - rewrite length_app, length_slices, length_drop. lia. }
  cbn [dxs_ dus_ lambdas_ primal_ dual_ primaldual_ set_lambdas_ set_dus_ set_dxs_].
  rewrite !take_0, !Nat.add_0_l. cbn [app].
  rewrite !Hback by assumption.
  rewrite (drop_ge (dus_ s)) by lia. rewrite app_nil_r.
  repeat split.
Qed.

(** ** The expected improvement *)

Lemma zip_with_seq_imap (f : nat -> double) (p : vec) :
  forall a, zip_with dmul (f <$> seq a (length p)) p
            = imap (fun k y => dmul (f (a + k)) y) p.
Proof.
  induction p as [|y p IH]; intros a; [reflexivity|].
  cbn [length seq fmap list_fmap zip_with imap]. rewrite Nat.add_0_r. f_equal.
  change (list_fmap nat double f (seq (S a) (length p))) with (f <$> seq (S a) (length p)).
  rewrite IH. apply imap_ext. intros k x _. cbn. rewrite Nat.add_succ_r. reflexivity.
Qed.

Lemma zip_with_seq (f : nat -> double) (p : vec) n :
  length p = n ->
  zip_with dmul (f <$> seq 0 n) p = (fun i => f i * vat p i)%D <$> seq 0 n.
Proof.
  intros <-. rewrite zip_with_seq_imap.
  rewrite <- (imap_seq_0 p (fun i => (f i * vat p i)%D)).
  apply imap_ext. intros k x Hk. cbn.
  unfold vat. rewrite (list_lookup_total_correct _ _ _ Hk). reflexivity.
Qed.

Lemma take_seq_vat (g : vec) n : n <= length g -> take n g = vat g <$> seq 0 n.
Proof.
  intros Hn. apply list_eq. intros i. rewrite list_lookup_fmap.
  destruct (Nat.lt_ge_cases i n) as [Hi|Hi].
  - rewrite lookup_take_lt, lookup_seq_lt by lia. cbn.
    unfold vat. apply list_lookup_lookup_total_lt. lia.
  - rewrite lookup_take_ge, lookup_seq_ge by lia. reflexivity.
Qed.

Lemma dot_seq (f : nat -> double) (p : vec) n :
  length p = n -> dot (f <$> seq 0 n) p = dsum ((fun i => f i * vat p i)%D <$> seq 0 n).
Proof. intros H. unfold dot. rewrite zip_with_seq by exact H. reflexivity. Qed.

(** C8. [expectedImprovement] leaves in [d_] the pair whose first
    component is minus the dot product of the first [ndx_ + nu_] entries of
    the KKT residual (the cost gradient) with the primal direction, and
    whose second component is minus the dot product with the primal
    direction of the product of the leading [ndx_ + nu_] square block of
    the KKT matrix (the regularized cost Hessian, no constraint row or
    column) with the primal direction. *)
Theorem expectedImprovement_terms s :
  let n := ndx_ s + nu_ s in
  length (primal_ s) = n ->
  n <= length (kktref_ s) ->
  d_ (expectedImprovement s)
  = (linear_term (kktref_ s) (primal_ s) n, quadratic_term (kkt_ s) (primal_ s) n)
  /\ kkt_primal_ (expectedImprovement s)
     = (fun i => dsum ((fun j => mat_at (kkt_ s) i j * vat (primal_ s) j)%D <$> seq 0 n))
         <$> seq 0 n.
Proof.
  intros n Hp Hg. unfold expectedImprovement. fold n.
  cbn [d_ kkt_primal_ set_d_ set_kkt_primal_].
  assert (Hmv : matvec (get_block 0 0 n n (kkt_ s)) (primal_ s)
                = (fun i => dsum ((fun j => mat_at (kkt_ s) i j * vat (primal_ s) j)%D
                                  <$> seq 0 n)) <$> seq 0 n).
  { unfold matvec, get_block. rewrite <- list_fmap_compose.
    apply list_fmap_ext. intros k i _. cbn. apply dot_seq, Hp. }
  rewrite Hmv. split; [|reflexivity].
  unfold linear_term, quadratic_term. f_equal.
  - unfold segment. rewrite drop_0, take_seq_vat by exact Hg.
    rewrite dot_seq by exact Hp. reflexivity.
  - rewrite dot_seq by exact Hp. reflexivity.
Qed.

(** The object after a computed direction on the two-stage scalar
    problem. *)
Lemma expectedImprovement_terms_witness :
  let s0 := setCandidate [[Fin 3]; [Fin 1]; [Fin 2]] [[Fin 1]; [Fin 1]] false
              (set_ureg_ (Fin 1) (set_xreg_ (Fin 1)
                 (Scalar.solver (Scalar.problem 2 [Fin 3]) Scalar.llt_rhs))) in
  let s := fst (computeDirection true s0) in
  d_ (expectedImprovement s)
  = (linear_term (kktref_ s) (primal_ s) 5, quadratic_term (kkt_ s) (primal_ s) 5).
Proof.
  intros s0 s.
  refine (proj1 (expectedImprovement_terms s _ _)); vm_compute; [reflexivity|lia].
Defined.

(** ** The stopping criterion *)

(** A sum of squares is [NaN] or a non-negative number, and it is the
    number zero exactly when every entry is. *)
Lemma squaredNorm_cases (v : vec) :
  match squaredNorm v with
  | NaN => ~ Forall dzero v
  | Fin q => (0 <= q)%Q /\ ((q == 0)%Q <-> Forall dzero v)
  end.
Proof.
  induction v as [|x v IH].
  - cbn. split; [lra|]. split; [constructor|reflexivity].
  - change (squaredNorm (x :: v)) with (x * x + squaredNorm v)%D.
    destruct x as [|a].
    + cbn. intros H. inversion H as [|? ? Hx _]. exact Hx.
    + destruct (squaredNorm v) as [|q]; cbn.
      * intros H. inversion H as [|? ? _ Hv]. exact (IH Hv).
      * destruct IH as (Hq & Hiff). split; [nra|].
        split.
        -- intros H. assert (a == 0 /\ q == 0)%Q as [Ha Hq0] by (split; nra).
           constructor; [exact Ha|apply Hiff, Hq0].
        -- intros H. inversion H as [|? ? Ha Hv]. cbn in Ha.
           apply Hiff in Hv. nra.
Qed.


(** ** The trial trajectory *)

(** The loop of [tryStep] from stage [t] on: the trial state goes to the
    entry after the stage it is integrated from; the trial control goes to
    the entry of its own stage; entries up to [t] of the states are left as
    they were. *)
Lemma tryStep_running_lookup s a ms :
  forall t (X U : list vec),
    let r := tryStep_running s a ms t X U in
    length (fst r) = length X /\ length (snd r) = length U
    /\ (forall j, j <= t -> fst r !! j = X !! j)
    /\ (forall k m, ms !! k = Some m -> t + k + 1 < length X ->
          fst r !! (t + k + 1)
          = Some (integrate (get_state m) (xs_ s !!! (t + k))
                    (vscale a (dxs_ s !!! (t + k)))))
    /\ (forall j, j < t -> snd r !! j = U !! j)
    /\ (forall k m, ms !! k = Some m -> t + k < length U ->
          snd r !! (t + k)
          = Some (vadd (us_ s !!! (t + k)) (vscale a (dus_ s !!! (t + k))))).
Proof.
  induction ms as [|m ms IH]; intros t X U.
  - cbn. repeat split; intros; discriminate.
  - cbn [tryStep_running]. cbn zeta.
    set (x := integrate (get_state m) (xs_ s !!! t) (vscale a (dxs_ s !!! t))).
    set (u := vadd (us_ s !!! t) (vscale a (dus_ s !!! t))).
    destruct (IH (S t) (<[t + 1 := x]> X) (<[t := u]> U))
      as (L1 & L2 & K1 & N1 & K2 & N2).
    rewrite length_insert in L1, L2, N1, N2.
    split; [exact L1|]. split; [exact L2|].
    split; [|split; [|split]].
    + intros j Hj. rewrite K1 by lia. apply list_lookup_insert_ne. lia.
    + intros [|k] m' Hm' Hk.
      * cbn in Hm'. injection Hm' as <-. rewrite Nat.add_0_r in *.
        rewrite K1 by lia. apply list_lookup_insert_eq. lia.
      * cbn in Hm'. replace (t + S k) with (S t + k) in * by lia.
        apply (N1 k m' Hm'). lia.
    + intros j Hj. rewrite K2 by lia. apply list_lookup_insert_ne. lia.
    + intros [|k] m' Hm' Hk.
      * cbn in Hm'. injection Hm' as <-. rewrite Nat.add_0_r in *.
        rewrite K2 by lia. apply list_lookup_insert_eq. lia.
      * cbn in Hm'. replace (t + S k) with (S t + k) in * by lia.
        apply (N2 k m' Hm'). lia.
Qed.

(** What [tryStep] writes, for every stage [t < T]: the integration of the
    state of stage [t] goes to entry [t + 1] of the trial states, entry 0
    is left as it was, and the trial control of stage [t] is the control
    plus the scaled control direction. *)
Lemma tryStep_trajectory a s :
  length (xs_try_ s) = get_T (problem_ s) + 1 ->
  length (us_try_ s) = get_T (problem_ s) ->
  let s' := fst (tryStep a s) in
  xs_try_ s' !! 0 = xs_try_ s !! 0
  /\ forall t m, running_models_ (problem_ s) !! t = Some m ->
       xs_try_ s' !! (t + 1)
       = Some (integrate (get_state m) (xs_ s !!! t) (vscale a (dxs_ s !!! t)))
       /\ us_try_ s' !! t = Some (vadd (us_ s !!! t) (vscale a (dus_ s !!! t))).
Proof.
  intros LX LU s'.
  pose proof (tryStep_running_lookup s a (running_models_ (problem_ s)) 0
                (xs_try_ s) (us_try_ s)) as H.
  cbn zeta in H. destruct H as (_ & _ & K1 & N1 & _ & N2).
  assert (E : xs_try_ s' = fst (tryStep_running s a (running_models_ (problem_ s)) 0
                                  (xs_try_ s) (us_try_ s))
              /\ us_try_ s' = snd (tryStep_running s a (running_models_ (problem_ s)) 0
                                     (xs_try_ s) (us_try_ s))).
  { subst s'. unfold tryStep.
    destruct (tryStep_running _ _ _ _ _ _) as [X U]. cbn [fst snd].
    cbn [problem_ datas_ xs_try_ us_try_ set_us_try_ set_xs_try_].
    destruct (problem_calc _ _ _ _) as [D [c|]]; split; reflexivity. }
  destruct E as [-> ->]. split; [apply K1; lia|].
  intros t m Hm.
  assert (Ht : t < get_T (problem_ s)) by (apply lookup_lt_Some in Hm; exact Hm).
  split.
  - apply (N1 t m Hm). lia.
  - apply (N2 t m Hm). lia.
Qed.

(** C2, on the code.  One stage, states [[3], [1]], state directions
    [[-6], [-4]], control [1], control direction [-2], step length 1/2.
    The claim puts [3 + (-6)/2 = 0] at stage 0 and [1 + (-4)/2 = -1] at
    stage 1 of the trial states.  [tryStep] leaves stage 0 at [3] and puts
    the integration of stage 0 at stage 1; the direction of stage 1 is not
    used.  The trial control is as the claim says. *)
Theorem tryStep_shifts_trial_states :
  let s := set_dus_ [[Fin (-2)]] (set_dxs_ [[Fin (-6)]; [Fin (-4)]]
             (setCandidate [[Fin 3]; [Fin 1]] [[Fin 1]] false
                (Scalar.solver (Scalar.problem 1 [Fin 3]) Scalar.llt_rhs))) in
  let a := Fin (1 # 2) in
  let s' := fst (tryStep a s) in
  let trial := fun t => integrate Scalar.state (xs_ s !!! t) (vscale a (dxs_ s !!! t)) in
  length (xs_try_ s') = 2
  /\ xs_try_ s' !!! 0 = xs_try_ s !!! 0
  /\ veqb (xs_try_ s' !!! 0) [Fin 3] = true
  /\ veqb (trial 0) [Fin 0] = true
  /\ veqb (xs_try_ s' !!! 0) (trial 0) = false
  /\ xs_try_ s' !!! 1 = trial 0
  /\ veqb (trial 1) [Fin (-1)] = true
  /\ veqb (xs_try_ s' !!! 1) (trial 1) = false
  /\ us_try_ s' !!! 0 = vadd (us_ s !!! 0) (vscale a (dus_ s !!! 0)).
Proof.
  cbn zeta.
  repeat match goal with |- _ /\ _ => split end; vm_compute; reflexivity.
Qed.

(** ** What [allocateData] establishes *)

Lemma length_resize n (v : list vec) : length (resize n v) = n.
Proof. unfold resize. rewrite length_app, length_take, length_replicate. lia. Qed.

Lemma length_set_back {A} (x : A) (l : list A) : length (set_back x l) = length l.
Proof. unfold set_back. apply length_insert. Qed.

Lemma allocate_running_fields ms :
  forall t s,
    let s' := allocate_running ms t s in
    problem_ s' = problem_ s
    /\ ndx_ s' = ndx_ s + sum_list (stage_ndx ms)
    /\ nu_ s' = nu_ s + sum_list (stage_nu ms)
    /\ length (dxs_ s') = length (dxs_ s)
    /\ length (dus_ s') = length (dus_ s)
    /\ length (lambdas_ s') = length (lambdas_ s)
    /\ length (xs_try_ s') = length (xs_try_ s)
    /\ length (us_try_ s') = length (us_try_ s).
Proof.
  induction ms as [|m ms IH]; intros t s.
  - cbn [allocate_running]. change (sum_list (stage_ndx [])) with 0.
    change (sum_list (stage_nu [])) with 0. rewrite !Nat.add_0_r. repeat split.
  - cbn [allocate_running]. cbn zeta.
    match goal with |- context [allocate_running ms (S t) ?x] => set (s1 := x) end.
    destruct (IH (S t) s1) as (EP & En & Em & L1 & L2 & L3 & L4 & L5).
    rewrite EP, En, Em, L1, L2, L3, L4, L5.
    change (sum_list (stage_ndx (m :: ms)))
      with (get_ndx (get_state m) + sum_list (stage_ndx ms)).
    change (sum_list (stage_nu (m :: ms))) with (get_nu m + sum_list (stage_nu ms)).
    change (problem_ s1) with (problem_ s).
    change (ndx_ s1) with (ndx_ s + get_ndx (get_state m)).
    change (nu_ s1) with (nu_ s + get_nu m).
    change (dxs_ s1) with (<[t := vzeros (get_ndx (get_state m))]> (dxs_ s)).
    change (dus_ s1) with (<[t := vzeros (get_nu m)]> (dus_ s)).
    change (lambdas_ s1) with (<[t := vzeros (get_ndx (get_state m))]> (lambdas_ s)).
    change (xs_try_ s1)
      with (<[t := if Nat.eqb t 0 then get_x0 (problem_ s)
                   else replicate (get_nx (get_state m)) NaN]> (xs_try_ s)).
    change (us_try_ s1) with (<[t := replicate (get_nu m) NaN]> (us_try_ s)).
    rewrite !length_insert, !Nat.add_assoc. repeat split.
Qed.

(** After [allocateData] the per-stage sequences and the aggregate
    dimensions are the ones the theorems above assume. *)
Lemma allocateData_allocated s :
  let s' := allocateData s in
  allocated s'
  /\ length (xs_try_ s') = get_T (problem_ s') + 1
  /\ length (us_try_ s') = get_T (problem_ s')
  /\ length (kktref_ s') = 2 * ndx_ s' + nu_ s'
  /\ length (primal_ s') = ndx_ s' + nu_ s'.
Proof.
  unfold allocateData. cbn zeta.
  set (s0 := allocate_resize s).
  assert (H0 : problem_ s0 = problem_ s /\ ndx_ s0 = 0 /\ nu_ s0 = 0
               /\ length (dxs_ s0) = get_T (problem_ s) + 1
               /\ length (dus_ s0) = get_T (problem_ s)
               /\ length (lambdas_ s0) = get_T (problem_ s) + 1
               /\ length (xs_try_ s0) = get_T (problem_ s) + 1
               /\ length (us_try_ s0) = get_T (problem_ s)).
  { subst s0. unfold allocate_resize.
    cbn [problem_ ndx_ nu_ dxs_ dus_ lambdas_ xs_try_ us_try_
         set_nu_ set_ndx_ set_nx_ set_us_try_ set_xs_try_ set_lambdas_ set_dus_ set_dxs_].
    rewrite !length_resize. repeat split. }
  destruct H0 as (P0 & n0 & m0 & a0 & b0 & c0 & d0' & e0).
  destruct (allocate_running_fields (running_models_ (problem_ s0)) 0 s0)
    as (EP & En & Em & L1 & L2 & L3 & L4 & L5).
  set (s1 := allocate_running (running_models_ (problem_ s0)) 0 s0) in *.
  rewrite P0 in EP. rewrite n0, P0, Nat.add_0_l in En. rewrite m0, P0, Nat.add_0_l in Em.
  rewrite a0 in L1. rewrite b0 in L2. rewrite c0 in L3. rewrite d0' in L4. rewrite e0 in L5.
  set (s2 := allocate_terminal s1).
  assert (H2 : problem_ s2 = problem_ s1
               /\ ndx_ s2 = ndx_ s1 + get_ndx (get_state (terminal_model_ (problem_ s1)))
               /\ nu_ s2 = nu_ s1
               /\ length (dxs_ s2) = length (dxs_ s1)
               /\ length (dus_ s2) = length (dus_ s1)
               /\ length (lambdas_ s2) = length (lambdas_ s1)
               /\ length (xs_try_ s2) = length (xs_try_ s1)
               /\ length (us_try_ s2) = length (us_try_ s1)).
  { subst s2. unfold allocate_terminal.
    cbn [problem_ ndx_ nu_ dxs_ dus_ lambdas_ xs_try_ us_try_
         set_lambdas_ set_dxs_ set_xs_try_ set_ndx_ set_nx_].
    rewrite !length_set_back. repeat split. }
  destruct H2 as (P2 & n2 & m2 & a2 & b2 & c2 & d2 & e2).
  unfold allocated, dims_ok, allocate_buffers.
  cbn [problem_ ndx_ nu_ dxs_ dus_ lambdas_ xs_try_ us_try_ kktref_ primal_
       set_dual_ set_kkt_primal_ set_primal_ set_primaldual_ set_kktref_ set_kkt_].
  rewrite P2, n2, m2, a2, b2, c2, d2, e2, EP, En, Em, L1, L2, L3, L4, L5.
  unfold vzeros. rewrite !length_replicate. repeat split.
Qed.

Lemma allocated_set_alphas a s : allocated s -> allocated (set_alphas_ a s).
Proof. intros H. exact H. Qed.

(** A constructed solver has them. *)
Lemma SolverKKT_ctor_allocated s : allocated (SolverKKT_ctor s).
Proof.
  unfold SolverKKT_ctor. cbn zeta. apply allocated_set_alphas.
  apply (proj1 (allocateData_allocated _)).
Qed.

(** * Further properties of the solver *)

(** ** What the member functions leave alone *)

Lemma calc_static s : static (calc s) = static s /\ iter_ (calc s) = iter_ s.
Proof.
  unfold calc, regularize_u, regularize_x, calc_blocks.
  break_pairs. cbn.
  repeat (match goal with |- context [if ?b then _ else _] => destruct b end; cbn);
    split; reflexivity.
Qed.

Lemma computeDirection_static recalc s :
  static (fst (computeDirection recalc s)) = static s
  /\ iter_ (fst (computeDirection recalc s)) = iter_ s.
Proof.
  unfold computeDirection.
  assert (H : static (if recalc then calc s else s) = static s
              /\ iter_ (if recalc then calc s else s) = iter_ s)
    by (destruct recalc; [apply calc_static | split; reflexivity]).
  revert H. generalize (if recalc then calc s else s). intros s1 H.
  unfold computePrimalDual. destruct (kkt_llt_ s1 _ _); [|exact H].
  unfold slice_direction. break_pairs. exact H.
Qed.

Lemma tryStep_static a s :
  static (fst (tryStep a s)) = static s /\ iter_ (fst (tryStep a s)) = iter_ s.
Proof.
  unfold tryStep. break_pairs.
  match goal with |- context [match ?o with Some _ => _ | None => _ end] => destruct o end;
    split; reflexivity.
Qed.

Lemma line_search_static alphas s :
  static (line_search alphas s) = static s /\ iter_ (line_search alphas s) = iter_ s.
Proof.
  revert s. induction alphas as [|a rest IH]; intros s; [split; reflexivity|].
  cbn [line_search].
  pose proof (tryStep_static (steplength_ (set_steplength_ a s)) (set_steplength_ a s)) as Ht.
  destruct (tryStep _ _) as [s1 [dV|]]; cbn [fst] in Ht.
  - match goal with |- context [if ?b then _ else _] => destruct b end.
    + exact Ht.
    + match goal with |- context [line_search rest ?x] => destruct (IH x) as [-> ->] end.
      exact Ht.
  - destruct (IH s1) as [-> ->]. exact Ht.
Qed.

Lemma increaseRegularization_static s :
  static (increaseRegularization s) = static s
  /\ iter_ (increaseRegularization s) = iter_ s.
Proof. unfold increaseRegularization. cbn. destruct (dgtb _ _); split; reflexivity. Qed.

Lemma decreaseRegularization_static s :
  static (decreaseRegularization s) = static s
  /\ iter_ (decreaseRegularization s) = iter_ s.
Proof. unfold decreaseRegularization. cbn. destruct (dltb _ _); split; reflexivity. Qed.

(** A statement of [solve] writes none of the static members, and [iter_]
    only where the loop counts. *)
Lemma step_static maxiter p s :
  let c := step maxiter (p, s) in
  static (snd c) = static s
  /\ (iter_ (snd c) = iter_ s
      \/ (p = AtCallbacks /\ fst c = AtFor /\ iter_ (snd c) = S (iter_ s))).
Proof.
  destruct p; cbn [step snd fst].
  - destruct (Nat.ltb _ _); split; [reflexivity|left; reflexivity|reflexivity|left; reflexivity].
  - destruct (computeDirection_static recalc s) as [H1 H2].
    destruct (computeDirection recalc s) as [s1 [|]]; cbn [fst snd] in *.
    + split; [exact H1|left; exact H2].
    + destruct (deqb _ _); cbn [snd]; (split; [exact H1|left; exact H2]).
  - split; [reflexivity|left; reflexivity].
  - destruct (line_search_static (alphas_ s) s) as [H1 H2]. split; [exact H1|left; exact H2].
  - destruct (dgtb _ _); [|split; [reflexivity|left; reflexivity]].
    destruct (decreaseRegularization_static s) as [H1 H2]. split; [exact H1|left; exact H2].
  - destruct (deqb (steplength_ s) _); [|split; [reflexivity|left; reflexivity]].
    destruct (increaseRegularization_static s) as [H1 H2].
    destruct (deqb _ _); cbn [snd]; (split; [exact H1|left; exact H2]).
  - split; [reflexivity|left; reflexivity].
  - destruct (_ && _); cbn [snd fst].
    + split; [reflexivity|left; reflexivity].
    + split; [reflexivity|right; repeat split].
  - split; [reflexivity|left; reflexivity].
Qed.

(** ** Sizes are kept *)

Lemma shape_mmap_ij f (K : mat) : length <$> mmap_ij f K = length <$> K.
Proof.
  unfold mmap_ij. apply list_eq. intros i. rewrite !list_lookup_fmap, list_lookup_imap.
  case_lookup i; [|reflexivity]. cbn. rewrite length_imap. reflexivity.
Qed.

Lemma calc_trials s :
  xs_try_ (calc s) = xs_try_ s /\ us_try_ (calc s) = us_try_ s.
Proof.
  unfold calc, regularize_u, regularize_x, calc_blocks.
  break_pairs. cbn.
  repeat (match goal with |- context [if ?b then _ else _] => destruct b end; cbn);
    split; reflexivity.
Qed.

Lemma calc_shape s : shape (calc s) = shape s.
Proof.
  destruct (problem_calcDiff (problem_ s) (datas_ s) (xs_ s) (us_ s)) as [D c] eqn:HD.
  destruct (calc_buffers s D c HD) as (HK & Hr & _).
  destruct (calc_writes_entrywise (set_cost_ c (set_datas_ D s))) as (W & V & HE & _).
  rewrite HE in HK, Hr. cbn [fst snd] in HK, Hr.
  pose proof (calc_slots s) as Hs. unfold slots in Hs. injection Hs as _ _ _ Hdx Hdu Hla.
  destruct (calc_trials s) as [Hx Hu].
  unfold shape. rewrite HK, Hr, Hdx, Hdu, Hla, Hx, Hu.
  unfold copy_transposed, set_block. rewrite !shape_mmap_ij, length_imap. reflexivity.
Qed.

Lemma direction_running_lengths p_x p_u dual ms :
  forall t ix iu (dxs dus lambdas : list vec),
    let r := direction_running p_x p_u dual ms t ix iu dxs dus lambdas in
    length (snd (fst (fst r))) = length dxs
    /\ length (snd (fst r)) = length dus
    /\ length (snd r) = length lambdas.
Proof.
  induction ms as [|m ms IH]; intros t ix iu dxs dus lambdas; [repeat split|].
  cbn [direction_running]. cbn zeta.
  match goal with
  | |- context [direction_running _ _ _ ms ?a ?b ?c ?d ?e ?f] =>
    destruct (IH a b c d e f) as (H1 & H2 & H3)
  end.
  rewrite H1, H2, H3, !length_insert. repeat split.
Qed.

Lemma slice_direction_shape s : shape (slice_direction s) = shape s.
Proof.
  unfold slice_direction.
  pose proof (direction_running_lengths (segment 0 (ndx_ s) (primal_ s))
                (segment (ndx_ s) (nu_ s) (primal_ s)) (dual_ s)
                (running_models_ (problem_ s)) 0 0 0 (dxs_ s) (dus_ s) (lambdas_ s)) as H.
  cbn zeta in H.
  destruct (direction_running _ _ _ _ _ _ _ _ _ _) as [[[ix dxs] dus] lambdas].
  cbn [fst snd] in H. destruct H as (H1 & H2 & H3).
  unfold shape.
  cbn [dxs_ dus_ lambdas_ xs_try_ us_try_ kktref_ kkt_ set_lambdas_ set_dus_ set_dxs_].
  rewrite !length_set_back, H1, H2, H3. reflexivity.
Qed.

Lemma computeDirection_shape recalc s : shape (fst (computeDirection recalc s)) = shape s.
Proof.
  unfold computeDirection.
  assert (H : shape (if recalc then calc s else s) = shape s)
    by (destruct recalc; [apply calc_shape|reflexivity]).
  revert H. generalize (if recalc then calc s else s). intros s1 H.
  unfold computePrimalDual. destruct (kkt_llt_ s1 _ _); [|exact H].
  cbn [fst]. rewrite slice_direction_shape. exact H.
Qed.

Lemma tryStep_shape a s : shape (fst (tryStep a s)) = shape s.
Proof.
  unfold tryStep.
  pose proof (tryStep_running_lookup s a (running_models_ (problem_ s)) 0
                (xs_try_ s) (us_try_ s)) as H.
  cbn zeta in H. destruct H as (L1 & L2 & _).
  destruct (tryStep_running _ _ _ _ _ _) as [X U]. cbn [fst snd] in L1, L2.
  cbn [problem_ datas_ xs_try_ us_try_ set_us_try_ set_xs_try_].
  destruct (problem_calc _ _ _ _) as [D [c|]]; unfold shape; cbn; rewrite L1, L2; reflexivity.
Qed.

Lemma line_search_shape alphas s : shape (line_search alphas s) = shape s.
Proof.
  revert s. induction alphas as [|a rest IH]; intros s; [reflexivity|].
  cbn [line_search].
  pose proof (tryStep_shape (steplength_ (set_steplength_ a s)) (set_steplength_ a s)) as Ht.
  destruct (tryStep _ _) as [s1 [dV|]]; cbn [fst] in Ht.
  - match goal with |- context [if ?b then _ else _] => destruct b end.
    + exact Ht.
    + rewrite IH. exact Ht.
  - rewrite IH. exact Ht.
Qed.

Lemma step_shape maxiter p s : shape (snd (step maxiter (p, s))) = shape s.
Proof.
  destruct p; cbn [step snd].
  - destruct (Nat.ltb _ _); reflexivity.
  - pose proof (computeDirection_shape recalc s) as H.
    destruct (computeDirection recalc s) as [s1 [|]]; cbn [fst snd] in *; [exact H|].
    destruct (deqb _ _); exact H.
  - reflexivity.
  - apply line_search_shape.
  - destruct (dgtb _ _); [|reflexivity].
    unfold decreaseRegularization. cbn. destruct (dltb _ _); reflexivity.
  - destruct (deqb (steplength_ s) _); [|reflexivity].
    assert (H : shape (increaseRegularization s) = shape s)
      by (unfold increaseRegularization; cbn; destruct (dgtb _ _); reflexivity).
    destruct (deqb _ _); exact H.
  - reflexivity.
  - destruct (_ && _); reflexivity.
  - reflexivity.
Qed.

Lemma steps_static_shape n maxiter :
  forall c, static (snd (steps n maxiter c)) = static (snd c)
            /\ shape (snd (steps n maxiter c)) = shape (snd c).
Proof.
  induction n as [|n IH]; intros [p s]; [split; reflexivity|].
  cbn [steps]. destruct (IH (step maxiter (p, s))) as [-> ->].
  split; [apply step_static|apply step_shape].
Qed.

(** ** The outcomes of [solve] *)

Lemma step_iter_ok maxiter c : iter_ok maxiter c -> iter_ok maxiter (step maxiter c).
Proof.
  destruct c as [p s]. unfold iter_ok. destruct p; cbn [step fst snd].
  - intros H. destruct (Nat.ltb_spec (iter_ s) maxiter); cbn [fst snd]; lia.
  - intros H. destruct (computeDirection_static recalc s) as [_ H2].
    destruct (computeDirection recalc s) as [s1 [|]]; cbn [fst snd] in *.
    + lia.
    + destruct (deqb _ _); cbn [fst snd]; lia.
  - intros H. exact H.
  - intros H. destruct (line_search_static (alphas_ s) s) as [_ ->]. exact H.
  - intros H. destruct (dgtb _ _); [|exact H].
    destruct (decreaseRegularization_static s) as [_ ->]. exact H.
  - intros H. destruct (deqb (steplength_ s) _); [|exact H].
    destruct (increaseRegularization_static s) as [_ H2].
    destruct (deqb _ _); cbn [fst snd]; lia.
  - intros H. exact H.
  - intros H. destruct (_ && _); cbn [fst snd iter_ set_iter_]; lia.
  - intros H. exact H.
Qed.

Lemma steps_iter_ok n maxiter :
  forall c, iter_ok maxiter c -> iter_ok maxiter (steps n maxiter c).
Proof.
  induction n as [|n IH]; intros c H; [exact H|].
  cbn [steps]. apply IH, step_iter_ok, H.
Qed.

(** A run that returns has reached [Returned] after finitely many
    statements, none of which was a return. *)
Lemma run_Some_steps fuel maxiter :
  forall c b s',
    run fuel maxiter c = Some (b, s') ->
    exists n, n <= fuel /\ steps n maxiter c = (Returned b, s')
              /\ forall k, k < n -> forall b', fst (steps k maxiter c) <> Returned b'.
Proof.
  induction fuel as [|fuel IH]; intros [p s] b s' H.
  - destruct p; cbn in H; try discriminate. injection H as <- <-.
    exists 0. split; [lia|]. split; [reflexivity|]. intros; lia.
  - destruct p;
      try (cbn [run] in H; apply IH in H; destruct H as (n & Hn & Hs & Hk);
           exists (S n); split; [lia|]; split; [exact Hs|];
           intros [|k] Hlt b'; [cbn; discriminate|cbn [steps]; apply Hk; lia]).
    cbn in H. injection H as <- <-.
    exists 0. split; [lia|]. split; [reflexivity|]. intros; lia.
Qed.

(** The statement before a return, and what it tested. *)
Lemma step_returns maxiter p s b s' :
  (forall b', p <> Returned b') ->
  step maxiter (p, s) = (Returned b, s') ->
  if b
  then p = AtCallbacks /\ s' = s
       /\ was_feasible_ s = true /\ (stop_ s <? th_stop_ s)%D = true
  else (p = AtFor /\ s' = s /\ maxiter <= iter_ s)
       \/ (xreg_ s' =? regmax_ s')%D = true.
Proof.
  intros Hp H. destruct p; cbn [step] in H.
  - destruct (Nat.ltb_spec (iter_ s) maxiter); [discriminate|].
    injection H as <- <-. left. repeat split. exact H0.
  - destruct (computeDirection recalc s) as [s1 [|]]; [discriminate|].
    destruct (deqb (xreg_ s1) (regmax_ s1)) eqn:E; [|discriminate].
    injection H as <- <-. right. exact E.
  - discriminate.
  - discriminate.
  - discriminate.
  - destruct (deqb (steplength_ s) _); [|discriminate].
    destruct (deqb (xreg_ (increaseRegularization s)) _) eqn:E; [|discriminate].
    injection H as <- <-. right. exact E.
  - discriminate.
  - destruct (was_feasible_ s && (stop_ s <? th_stop_ s)%D) eqn:E; [|discriminate].
    injection H as <- <-. apply andb_true_iff in E. destruct E as [E1 E2].
    repeat split; assumption.
  - exfalso. apply (Hp b0). reflexivity.
Qed.

Lemma solve_start_iter_ok init_xs init_us maxiter is_feasible reginit s :
  iter_ok maxiter (solve_start init_xs init_us is_feasible reginit s).
Proof. unfold iter_ok, solve_start. cbn [fst snd iter_ set_iter_]. lia. Qed.

(** The last statement of a returning [solve]. *)
Lemma solve_last_statement fuel init_xs init_us maxiter is_feasible reginit s b s' :
  solve fuel init_xs init_us maxiter is_feasible reginit s = Some (b, s') ->
  exists p s0,
    iter_ok maxiter (p, s0) /\ (forall b', p <> Returned b')
    /\ step maxiter (p, s0) = (Returned b, s').
Proof.
  unfold solve. intros H. apply run_Some_steps in H.
  destruct H as (n & _ & Hs & Hk).
  destruct n as [|n]; [discriminate|].
  pose proof (steps_iter_ok n maxiter _
                (solve_start_iter_ok init_xs init_us maxiter is_feasible reginit s)) as Hok.
  specialize (Hk n ltac:(lia)).
  replace (S n) with (n + 1) in Hs by lia. rewrite steps_add in Hs. cbn [steps] in Hs.
  destruct (steps n maxiter _) as [p s0]. cbn [fst] in Hk.
  exists p, s0. repeat split; assumption.
Qed.

(** X1. [solve] returns [true] only from the test at the end of an
    iteration: the candidate before the accepted step was feasible, the
    stopping value is below [th_stop_], and the iteration counter is still
    below [maxiter]. *)
Theorem solve_true_means_converged
    fuel init_xs init_us maxiter is_feasible reginit s s' :
  solve fuel init_xs init_us maxiter is_feasible reginit s = Some (true, s') ->
  was_feasible_ s' = true
  /\ (stop_ s' <? th_stop_ s')%D = true
  /\ iter_ s' < maxiter.
Proof.
  intros H. apply solve_last_statement in H.
  destruct H as (p & s0 & Hok & Hp & Hstep).
  apply step_returns in Hstep; [|exact Hp].
  destruct Hstep as (-> & -> & Hw & Hs).
  repeat split; [exact Hw|exact Hs|exact Hok].
Qed.

(** The scalar problem started at its optimum, marked feasible. *)
Lemma solve_true_means_converged_witness :
  exists s',
    solve 20 [[Fin 0]; [Fin 0]] [[Fin 0]] 3 true NaN
      (Scalar.solver (Scalar.problem 1 [Fin 0]) Scalar.llt_rhs) = Some (true, s')
    /\ was_feasible_ s' = true /\ iter_ s' < 3.
Proof.
  eexists. split; [vm_compute; reflexivity|].
  match goal with
  | |- was_feasible_ ?x = true /\ _ =>
    destruct (solve_true_means_converged 20 [[Fin 0]; [Fin 0]] [[Fin 0]] 3 true NaN
                (Scalar.solver (Scalar.problem 1 [Fin 0]) Scalar.llt_rhs) x)
      as (H1 & _ & H3)
  end.
  - vm_compute. reflexivity.
  - split; [exact H1|exact H3].
Defined.

(** X2. [solve] returns [false] in two situations only: the iteration cap
    is exhausted ([iter_] equals [maxiter]), or the state regularization
    equals [regmax_]. *)
Theorem solve_false_means_cap_or_ceiling
    fuel init_xs init_us maxiter is_feasible reginit s s' :
  solve fuel init_xs init_us maxiter is_feasible reginit s = Some (false, s') ->
  iter_ s' = maxiter \/ (xreg_ s' =? regmax_ s')%D = true.
Proof.
  intros H. apply solve_last_statement in H.
  destruct H as (p & s0 & Hok & Hp & Hstep).
  apply step_returns in Hstep; [|exact Hp].
  destruct Hstep as [(-> & -> & Hge)|Hreg]; [left|right; exact Hreg].
  unfold iter_ok in Hok. cbn [fst snd] in Hok. lia.
Qed.

(** The scalar problem away from its optimum: the cap of three iterations
    is exhausted. *)
Lemma solve_false_means_cap_or_ceiling_witness :
  exists s',
    solve 40 [[Fin 3]; [Fin 1]] [[Fin 1]] 3 false NaN
      (Scalar.solver (Scalar.problem 1 [Fin 3]) Scalar.llt_rhs) = Some (false, s')
    /\ (iter_ s' = 3 \/ (xreg_ s' =? regmax_ s')%D = true).
Proof.
  eexists. split; [vm_compute; reflexivity|].
  match goal with
  | |- iter_ ?x = 3 \/ _ =>
    apply (solve_false_means_cap_or_ceiling 40 [[Fin 3]; [Fin 1]] [[Fin 1]] 3 false NaN
             (Scalar.solver (Scalar.problem 1 [Fin 3]) Scalar.llt_rhs) x)
  end.
  vm_compute. reflexivity.
Defined.

(** ** [solve] returns when the factorization is never refused *)

Lemma computeDirection_succeeds recalc s :
  never_refuses (kkt_llt_ s) -> snd (computeDirection recalc s) = true.
Proof.
  intros H. unfold computeDirection.
  assert (E : kkt_llt_ (if recalc then calc s else s) = kkt_llt_ s).
  { destruct recalc; [|reflexivity].
    destruct (calc_static s) as [Hs _]. unfold static in Hs. congruence. }
  revert E. generalize (if recalc then calc s else s). intros s1 E.
  unfold computePrimalDual. rewrite E.
  destruct (kkt_llt_ s (kkt_ s1) (vopp (kktref_ s1))) eqn:Hk; [reflexivity|].
  exfalso. exact (H _ _ Hk).
Qed.

Lemma step_statements_left maxiter c :
  iter_ok maxiter c ->
  never_refuses (kkt_llt_ (snd c)) ->
  (forall b, fst c <> Returned b) ->
  statements_left maxiter (step maxiter c) < statements_left maxiter c.
Proof.
  destruct c as [p s]. unfold iter_ok, statements_left. cbn [fst snd].
  intros Hok Hllt Hp. destruct p; cbn [step rank].
  - destruct (Nat.ltb_spec (iter_ s) maxiter); cbn [fst snd rank]; lia.
  - pose proof (computeDirection_succeeds recalc s Hllt) as Hs.
    destruct (computeDirection_static recalc s) as [_ Hi].
    destruct (computeDirection recalc s) as [s1 f]. cbn [fst snd] in *. subst f.
    cbn [fst snd rank]. lia.
  - cbn [fst snd rank iter_ expectedImprovement set_d_ set_kkt_primal_]. lia.
  - cbn [fst snd rank]. destruct (line_search_static (alphas_ s) s) as [_ ->]. lia.
  - cbn [fst snd rank]. destruct (dgtb _ _); [|lia].
    destruct (decreaseRegularization_static s) as [_ ->]. lia.
  - destruct (deqb (steplength_ s) _); [|cbn [fst snd rank]; lia].
    destruct (increaseRegularization_static s) as [_ Hi].
    destruct (deqb _ _); cbn [fst snd rank]; lia.
  - cbn [fst snd rank iter_ stoppingCriteria set_stop_]. lia.
  - destruct (_ && _); cbn [fst snd rank iter_ set_iter_]; lia.
  - exfalso. apply (Hp b). reflexivity.
Qed.

Lemma run_unfold fuel maxiter c :
  (forall b, fst c <> Returned b) ->
  run (S fuel) maxiter c = run fuel maxiter (step maxiter c).
Proof.
  destruct c as [p s]. intros H. destruct p; try reflexivity.
  exfalso. apply (H b). reflexivity.
Qed.

Lemma step_llt maxiter c : kkt_llt_ (snd (step maxiter c)) = kkt_llt_ (snd c).
Proof.
  destruct c as [p s]. destruct (step_static maxiter p s) as [H _].
  unfold static in H. cbn [snd]. congruence.
Qed.

Lemma run_enough maxiter fuel :
  forall c,
    iter_ok maxiter c ->
    never_refuses (kkt_llt_ (snd c)) ->
    statements_left maxiter c <= fuel ->
    exists b s', run fuel maxiter c = Some (b, s').
Proof.
  induction fuel as [|fuel IH]; intros c Hok Hllt Hm.
  - destruct c as [p s].
    destruct p; try (unfold statements_left in Hm; cbn [fst snd rank] in Hm; lia).
    eexists. eexists. reflexivity.
  - assert (D : (exists b, fst c = Returned b) \/ (forall b, fst c <> Returned b)).
    { destruct c as [p s]. destruct p; try (right; cbn [fst]; discriminate).
      left. eexists. reflexivity. }
    destruct D as [[b Hb]|Hp].
    + destruct c as [p s]. cbn [fst] in Hb. subst p. eexists. eexists. reflexivity.
    + rewrite run_unfold by exact Hp. apply IH.
      * apply step_iter_ok, Hok.
      * rewrite step_llt. exact Hllt.
      * pose proof (step_statements_left maxiter c Hok Hllt Hp). lia.
Qed.

(** X3. When the factorization is never refused, [solve] returns, and it
    does so within [8 * maxiter + 1] statements: the iteration cap bounds
    the work. *)
Theorem solve_returns fuel init_xs init_us maxiter is_feasible reginit s :
  never_refuses (kkt_llt_ s) ->
  8 * maxiter + 1 <= fuel ->
  exists b s', solve fuel init_xs init_us maxiter is_feasible reginit s = Some (b, s').
Proof.
  intros Hllt Hfuel. unfold solve. apply run_enough.
  - apply solve_start_iter_ok.
  - unfold solve_start, solve_init, setCandidate. cbn [snd].
    destruct (isnan reginit); exact Hllt.
  - unfold statements_left, solve_start. cbn [fst snd iter_ set_iter_]. lia.
Qed.

(** The engine that answers with the right-hand side, three iterations. *)
Lemma solve_returns_witness :
  exists b s',
    solve 25 [[Fin 3]; [Fin 1]] [[Fin 1]] 3 false NaN
      (Scalar.solver (Scalar.problem 1 [Fin 3]) Scalar.llt_rhs) = Some (b, s').
Proof.
  apply solve_returns.
  - intros K b. discriminate.
  - lia.
Defined.

(** ** What a [solve] never changes *)

(** X4. At every control point of a [solve] the problem, the aggregate
    dimensions, the step-length candidates, the thresholds, the
    regularization factor and bounds and the engine are the ones [solve]
    was entered with, and the per-stage sequences and the KKT buffers have
    the sizes they had: nothing is reallocated, and a solver that was
    allocated for its problem stays so. *)
Theorem solve_keeps_configuration n init_xs init_us maxiter is_feasible reginit s :
  let s' := snd (steps n maxiter (solve_start init_xs init_us is_feasible reginit s)) in
  static s' = static s
  /\ shape s' = shape s
  /\ (allocated s -> allocated s').
Proof.
  intros s'.
  destruct (steps_static_shape n maxiter
              (solve_start init_xs init_us is_feasible reginit s)) as [Hst Hsh].
  fold s' in Hst, Hsh.
  assert (H0 : static (snd (solve_start init_xs init_us is_feasible reginit s)) = static s
               /\ shape (snd (solve_start init_xs init_us is_feasible reginit s)) = shape s).
  { unfold solve_start, solve_init, setCandidate. cbn [snd].
    destruct (isnan reginit); split; reflexivity. }
  destruct H0 as [E1 E2]. rewrite E1 in Hst. rewrite E2 in Hsh.
  split; [exact Hst|]. split; [exact Hsh|].
  unfold allocated, dims_ok. unfold static in Hst. unfold shape in Hsh.
  injection Hst as EP _ En Em _ _ _ _ _ _ _ _ _.
  injection Hsh as L1 L2 L3 _ _ _ _.
  rewrite EP, En, Em, L1, L2, L3. intros H. exact H.
Qed.

(** ** The line search accepts a trial or leaves the candidate alone *)

Lemma tryStep_keeps a s :
  let r := tryStep a s in
  candidate (fst r) = candidate s
  /\ steplength_ (fst r) = steplength_ s
  /\ d_ (fst r) = d_ s
  /\ (forall dV, snd r = Some dV -> dV = (cost_ s - cost_try_ (fst r))%D)
  /\ (never_throws (problem_ s) -> snd r <> None).
Proof.
  unfold tryStep.
  destruct (tryStep_running _ _ _ _ _ _) as [X U].
  cbn [problem_ set_us_try_ set_xs_try_ datas_ xs_try_ us_try_].
  pose proof (fun H : never_throws (problem_ s) => H (datas_ s) X U) as Hnt.
  destruct (problem_calc _ _ _ _) as [D [c|]]; cbn [fst snd] in *.
  - split; [reflexivity|]. split; [reflexivity|]. split; [reflexivity|].
    split; [|intros _; discriminate].
    intros dV [= <-]. reflexivity.
  - split; [reflexivity|]. split; [reflexivity|]. split; [reflexivity|].
    split; [discriminate|exact Hnt].
Qed.

Lemma line_search_cases alphas :
  forall s,
    let s' := line_search alphas s in
    (candidate s' = candidate s
     /\ steplength_ s' = default (steplength_ s) (last alphas))
    \/ (steplength_ s' ∈ alphas
        /\ xs_ s' = xs_try_ s' /\ us_ s' = us_try_ s' /\ cost_ s' = cost_try_ s'
        /\ is_feasible_ s' = true
        /\ was_feasible_ s' = is_feasible_ s
        /\ dV_ s' = (cost_ s - cost_ s')%D).
Proof.
  induction alphas as [|a rest IH]; intros s; [left; split; reflexivity|].
  cbn [line_search]. cbn zeta.
  destruct (tryStep_keeps (steplength_ (set_steplength_ a s)) (set_steplength_ a s))
    as (Hc & Hs & _ & HdV & _).
  destruct (tryStep _ _) as [s1 [dV|]]; cbn [fst snd] in Hc, Hs, HdV.
  - specialize (HdV dV eq_refl).
    match goal with |- context [if ?b then _ else _] => destruct b end.
    + right. unfold candidate in Hc. injection Hc as _ _ _ Hcost Hf _ _ _.
      cbn [steplength_ set_steplength_] in Hs.
      cbn. rewrite Hs, Hf. repeat split; [left|].
      rewrite HdV. reflexivity.
    + match goal with |- context [line_search rest ?x] => destruct (IH x) as [H|H] end.
      * left. destruct H as [H1 H2]. rewrite H1, H2. cbn [steplength_ set_dVexp_ set_dV_].
        rewrite Hs. cbn [steplength_ set_steplength_]. split; [exact Hc|].
        destruct rest as [|b rest]; [reflexivity|].
        rewrite !last_cons. destruct (last rest); reflexivity.
      * right. destruct H as (H1 & H2 & H3 & H4 & H5 & H6 & H7).
        unfold candidate in Hc. injection Hc as _ _ _ Hcost Hf _ _ _.
        cbn [is_feasible_ cost_ set_dVexp_ set_dV_] in H6, H7.
        rewrite Hf in H6. rewrite Hcost in H7.
        cbn [is_feasible_ cost_ set_steplength_] in H6, H7.
        repeat split; try assumption. right. exact H1.
  - destruct (IH s1) as [H|H].
    + left. destruct H as [H1 H2]. rewrite H1, H2, Hs. cbn [steplength_ set_steplength_].
      split; [exact Hc|].
      destruct rest as [|b rest]; [reflexivity|].
      rewrite !last_cons. destruct (last rest); reflexivity.
    + right. destruct H as (H1 & H2 & H3 & H4 & H5 & H6 & H7).
      unfold candidate in Hc. injection Hc as _ _ _ Hcost Hf _ _ _.
      rewrite Hf in H6. rewrite Hcost in H7.
      cbn [is_feasible_ cost_ set_steplength_] in H6, H7.
      repeat split; try assumption. right. exact H1.
Qed.

(** X5. The scan over a non-empty list of step lengths ends in one of two
    ways.  Either no trial was accepted: the candidate trajectory, its cost
    and the feasibility flags are untouched and [steplength_] is the last
    candidate.  Or a trial was accepted: [steplength_] is one of the
    candidates, the trial trajectory and the trial cost have become the
    candidate and its cost, the candidate is marked feasible,
    [was_feasible_] records the old flag and [dV_] is the decrease of the
    cost. *)
Theorem line_search_accepts_or_exhausts alphas s :
  alphas <> [] ->
  let s' := line_search alphas s in
  (candidate s' = candidate s /\ last alphas = Some (steplength_ s'))
  \/ (steplength_ s' ∈ alphas
      /\ xs_ s' = xs_try_ s' /\ us_ s' = us_try_ s' /\ cost_ s' = cost_try_ s'
      /\ is_feasible_ s' = true
      /\ was_feasible_ s' = is_feasible_ s
      /\ dV_ s' = (cost_ s - cost_ s')%D).
Proof.
  intros Hne s'. destruct (line_search_cases alphas s) as [[H1 H2]|H].
  - left. split; [exact H1|]. fold s' in H2. rewrite H2.
    destruct (last alphas) eqn:E; [reflexivity|].
    apply last_None in E. contradiction.
  - right. exact H.
Qed.

(** The constructor's ten candidates on the scalar problem. *)
Lemma line_search_accepts_or_exhausts_witness :
  let s := setCandidate [[Fin 3]; [Fin 1]] [[Fin 1]] true
             (Scalar.solver (Scalar.problem 1 [Fin 3]) Scalar.llt_rhs) in
  let s' := line_search (alphas_ s) s in
  (candidate s' = candidate s /\ last (alphas_ s) = Some (steplength_ s'))
  \/ (steplength_ s' ∈ alphas_ s
      /\ xs_ s' = xs_try_ s' /\ us_ s' = us_try_ s' /\ cost_ s' = cost_try_ s'
      /\ is_feasible_ s' = true
      /\ was_feasible_ s' = is_feasible_ s
      /\ dV_ s' = (cost_ s - cost_ s')%D).
Proof.
  intros s s'. apply (line_search_accepts_or_exhausts (alphas_ s) s).
  vm_compute. discriminate.
Defined.

(** X6. From a candidate that is not marked feasible, the line search
    accepts the first step length whose trial evaluation does not throw,
    whatever the costs are: with a problem that never throws, the first
    candidate step length is taken, the trial trajectory becomes the
    candidate and is marked feasible, and [was_feasible_] is [false]. *)
Theorem infeasible_candidate_takes_first_step a rest s :
  is_feasible_ s = false ->
  never_throws (problem_ s) ->
  let s' := line_search (a :: rest) s in
  steplength_ s' = a
  /\ xs_ s' = xs_try_ s' /\ us_ s' = us_try_ s' /\ cost_ s' = cost_try_ s'
  /\ is_feasible_ s' = true
  /\ was_feasible_ s' = false.
Proof.
  intros Hf Hnt s'. subst s'. cbn [line_search]. cbn zeta.
  destruct (tryStep_keeps (steplength_ (set_steplength_ a s)) (set_steplength_ a s))
    as (Hc & Hs & _ & _ & Hsome).
  specialize (Hsome Hnt).
  destruct (tryStep _ _) as [s1 [dV|]]; cbn [fst snd] in Hc, Hs, Hsome; [|contradiction].
  unfold candidate in Hc. injection Hc as _ _ _ _ Hf1 _ _ _.
  cbn [is_feasible_ set_steplength_] in Hf1. rewrite Hf in Hf1.
  cbn [steplength_ set_steplength_] in Hs.
  match goal with |- context [if ?b then _ else _] =>
    assert (E : b = true); [|rewrite E] end.
  { apply orb_true_iff. left. apply orb_true_iff. right.
    change (negb (is_feasible_ s1) = true). rewrite Hf1. reflexivity. }
  cbn. rewrite Hs, Hf1. repeat split.
Qed.

(** The scalar problem from an infeasible guess. *)
Lemma infeasible_candidate_takes_first_step_witness :
  let s := setCandidate [[Fin 3]; [Fin 1]] [[Fin 1]] false
             (Scalar.solver (Scalar.problem 1 [Fin 3]) Scalar.llt_rhs) in
  let s' := line_search (alphas_ s) s in
  steplength_ s' = Fin (1 / 1) /\ is_feasible_ s' = true /\ was_feasible_ s' = false.
Proof.
  intros s s'.
  destruct (infeasible_candidate_takes_first_step (Fin (1 / 1))
              (tl (alphas_ s)) s eq_refl ltac:(intros d xs us; discriminate))
    as (H1 & _ & _ & _ & H5 & H6).
  split; [exact H1|]. split; [exact H5|exact H6].
Defined.

(** ** The two adaptations: direction, fixed points, degenerate values *)

(** X7. With a factor of at least one and a non-negative regularization
    that lies within the bounds, [increaseRegularization] never lowers the
    regularization and [decreaseRegularization] never raises it. *)
Theorem regularization_moves_one_way s f lo hi x :
  regfactor_ s = Fin f -> regmin_ s = Fin lo -> regmax_ s = Fin hi ->
  xreg_ s = Fin x ->
  (1 <= f)%Q -> (0 <= x)%Q -> (lo <= x)%Q -> (x <= hi)%Q ->
  dle (xreg_ s) (xreg_ (increaseRegularization s))
  /\ dle (xreg_ (decreaseRegularization s)) (xreg_ s).
Proof.
  intros Ef El Eh Ex Hf Hx Hlo Hhi.
  destruct (increaseRegularization_fields s) as (-> & _).
  destruct (decreaseRegularization_fields s) as (-> & _).
  split.
  - destruct (capped_cases s f hi x Ef Eh Ex) as [[-> _]|[-> _]];
      rewrite Ex; cbn [dle]; [exact Hhi|nra].
  - destruct (floored_cases s f lo x Ef El Ex Hf) as [[-> _]|[-> _]];
      rewrite Ex; cbn [dle]; [exact Hlo|apply Qdiv_le_self; assumption].
Qed.

Lemma regularization_moves_one_way_witness :
  let s := set_xreg_ (Fin 1) (Scalar.solver (Scalar.problem 1 [Fin 3]) Scalar.llt_rhs) in
  dle (xreg_ s) (xreg_ (increaseRegularization s))
  /\ dle (xreg_ (decreaseRegularization s)) (xreg_ s).
Proof.
  intros s.
  apply (regularization_moves_one_way s 10 (1 # 1000000000) 1000000000 1
           eq_refl eq_refl eq_refl eq_refl); vm_compute; discriminate.
Defined.

(** X8. The bounds are fixed points.  With a factor of at least one, a
    regularization that sits at a non-negative [regmax_] still compares equal
    to [regmax_] after [increaseRegularization] (the test by which [solve]
    gives up), and one that sits at a non-negative [regmin_] still compares
    equal to [regmin_] after [decreaseRegularization]. *)
Theorem regularization_holds_at_bounds s f lo hi :
  regfactor_ s = Fin f -> regmin_ s = Fin lo -> regmax_ s = Fin hi ->
  (1 <= f)%Q -> (0 <= lo)%Q -> (0 <= hi)%Q ->
  (xreg_ s = regmax_ s ->
   let s' := increaseRegularization s in (xreg_ s' =? regmax_ s')%D = true)
  /\ (xreg_ s = regmin_ s ->
      let s' := decreaseRegularization s in (xreg_ s' =? regmin_ s')%D = true).
Proof.
  intros Ef El Eh Hf Hlo Hhi. split; intros Ex s'; subst s'.
  - destruct (increaseRegularization_fields s) as (-> & _ & _ & _ & ->).
    rewrite Eh in Ex.
    destruct (capped_cases s f hi hi Ef Eh Ex) as [[-> _]|[-> H]];
      rewrite Eh; cbn [deqb]; apply Qeq_bool_iff; [reflexivity|nra].
  - destruct (decreaseRegularization_fields s) as (-> & _ & _ & -> & _).
    rewrite El in Ex.
    destruct (floored_cases s f lo lo Ef El Ex Hf) as [[-> _]|[-> H]];
      rewrite El; cbn [deqb]; apply Qeq_bool_iff; [reflexivity|].
    apply Qle_antisym; [apply Qdiv_le_self; assumption|exact H].
Qed.

Lemma regularization_holds_at_bounds_witness :
  let s := set_xreg_ (Fin 1000000000)
             (Scalar.solver (Scalar.problem 1 [Fin 3]) Scalar.llt_rhs) in
  let s' := increaseRegularization s in (xreg_ s' =? regmax_ s')%D = true.
Proof.
  intros s.
  refine (proj1 (regularization_holds_at_bounds s 10 (1 # 1000000000) 1000000000
                   eq_refl eq_refl eq_refl _ _ _) eq_refl); vm_compute; discriminate.
Defined.

(** X9. A regularization of zero cannot be escalated: with a non-negative
    [regmax_], any number of calls of [increaseRegularization] leaves the
    state regularization at zero, and after the first call the control
    regularization is zero as well.  Only [decreaseRegularization] moves it,
    up to a positive [regmin_]. *)
Theorem zero_regularization_is_not_escalated s f lo hi n :
  regfactor_ s = Fin f -> regmin_ s = Fin lo -> regmax_ s = Fin hi ->
  (0 <= hi)%Q -> dzero (xreg_ s) ->
  (let s' := Nat.iter n increaseRegularization s in
   dzero (xreg_ s') /\ (0 < n -> dzero (ureg_ s')))
  /\ ((1 <= f)%Q -> (0 < lo)%Q -> xreg_ (decreaseRegularization s) = regmin_ s).
Proof.
  intros Ef El Eh Hhi Hz. split.
  - cbn zeta.
    assert (H : regfactor_ (Nat.iter n increaseRegularization s) = Fin f
                /\ regmax_ (Nat.iter n increaseRegularization s) = Fin hi
                /\ dzero (xreg_ (Nat.iter n increaseRegularization s))
                /\ (0 < n -> dzero (ureg_ (Nat.iter n increaseRegularization s)))).
    { induction n as [|n IH].
      - repeat split; try assumption. lia.
      - destruct IH as (Ef' & Eh' & Hz' & _).
        change (Nat.iter (S n) increaseRegularization s)
          with (increaseRegularization (Nat.iter n increaseRegularization s)).
        destruct (increaseRegularization_fields (Nat.iter n increaseRegularization s))
          as (Hx & Hu & Hf' & _ & Hm).
        cbn zeta in Hx, Hu, Hf', Hm. rewrite Hx, Hu, Hf', Hm.
        split; [exact Ef'|]. split; [exact Eh'|].
        destruct (xreg_ (Nat.iter n increaseRegularization s)) as [|x] eqn:Ex;
          [contradiction|].
        cbn [dzero] in Hz'.
        assert (Hc : dzero (capped (Nat.iter n increaseRegularization s))).
        { destruct (capped_cases _ f hi x Ef' Eh' Ex) as [[-> H]|[-> _]]; cbn [dzero]; nra. }
        split; [exact Hc|]. intros _. exact Hc. }
    destruct H as (_ & _ & H1 & H2). split; assumption.
  - intros Hf Hlo. destruct (decreaseRegularization_fields s) as (-> & _).
    destruct (xreg_ s) as [|x] eqn:Ex; [contradiction|]. cbn [dzero] in Hz.
    destruct (floored_cases s f lo x Ef El Ex Hf) as [[-> _]|[_ H]];
      [symmetry; exact El|].
    exfalso. assert (x / f == 0)%Q by (rewrite Hz; field; lra). lra.
Qed.

Lemma zero_regularization_is_not_escalated_witness :
  let s := set_xreg_ (Fin 0) (Scalar.solver (Scalar.problem 1 [Fin 3]) Scalar.llt_rhs) in
  dzero (xreg_ (Nat.iter 5 increaseRegularization s))
  /\ xreg_ (decreaseRegularization s) = Fin (1 # 1000000000).
Proof.
  intros s.
  destruct (zero_regularization_is_not_escalated s 10 (1 # 1000000000) 1000000000 5
              eq_refl eq_refl eq_refl ltac:(vm_compute; discriminate)
              ltac:(vm_compute; reflexivity)) as [[H1 _] H2].
  split; [exact H1|]. apply H2; vm_compute; [discriminate|reflexivity].
Defined.

(** X10. The comparisons of the two adaptations are all false on a value
    that is not a number.  A regularization that is not a number stays so
    under both adaptations, and so does the control regularization; and a
    [regmax_] that is not a number caps nothing. *)
Theorem nan_regularization_persists s :
  (xreg_ s = NaN ->
   xreg_ (increaseRegularization s) = NaN /\ ureg_ (increaseRegularization s) = NaN
   /\ xreg_ (decreaseRegularization s) = NaN /\ ureg_ (decreaseRegularization s) = NaN)
  /\ (regmax_ s = NaN ->
      xreg_ (increaseRegularization s) = (xreg_ s * regfactor_ s)%D)
  /\ (regmin_ s = NaN ->
      xreg_ (decreaseRegularization s) = (xreg_ s / regfactor_ s)%D).
Proof.
  destruct (increaseRegularization_fields s) as (-> & -> & _).
  destruct (decreaseRegularization_fields s) as (-> & -> & _).
  unfold capped, floored. cbn zeta.
  split; [intros ->|split; intros ->].
  - cbn [dmul lift2 ddiv]. unfold dgtb.
    destruct (regmax_ s), (regmin_ s); repeat split; reflexivity.
  - unfold dgtb. cbn [dltb]. reflexivity.
  - destruct (xreg_ s / regfactor_ s)%D; reflexivity.
Qed.

(** The constructed solver holds no regularization yet. *)
Lemma nan_regularization_persists_witness :
  let s := Scalar.solver (Scalar.problem 1 [Fin 3]) Scalar.llt_rhs in
  xreg_ (increaseRegularization s) = NaN /\ ureg_ (increaseRegularization s) = NaN
  /\ xreg_ (decreaseRegularization s) = NaN /\ ureg_ (decreaseRegularization s) = NaN.
Proof.
  intros s. exact (proj1 (nan_regularization_persists s) eq_refl).
Defined.

(** ** The constraint rows of the assembled matrix *)

Lemma mlookup_sized (K : mat) n i j :
  length <$> K = replicate n n -> i < n -> j < n -> is_Some (mlookup K i j).
Proof.
  intros HK Hi Hj. unfold mlookup.
  assert (Hl : (length <$> K) !! i = Some n)
    by (rewrite HK; apply lookup_replicate_2; exact Hi).
  rewrite list_lookup_fmap in Hl.
  destruct (K !! i) as [row|]; [|discriminate]. cbn in Hl. injection Hl as Hl.
  apply lookup_lt_is_Some. lia.
Qed.

Lemma mlookup_set_block r c h w e K i j :
  mlookup (set_block r c h w e K) i j = wblock r c h w e i j <$> mlookup K i j.
Proof. apply mlookup_mmap_ij. Qed.

Lemma wblock_out_row r c h w e i j x :
  ~ (r <= i < r + h) -> wblock r c h w e i j x = x.
Proof.
  intros H. unfold wblock. apply in_range_false in H. rewrite H. reflexivity.
Qed.

Lemma wblock_in r c h w e i j x :
  r <= i < r + h -> c <= j < c + w -> wblock r c h w e i j x = e (i - r) (j - c).
Proof.
  intros Hi Hj. unfold wblock.
  apply in_range_true in Hi. apply in_range_true in Hj. rewrite Hi, Hj. reflexivity.
Qed.

(** The loop writes the cost rows and the constraint rows below the first
    [cx0]: the rows of the initial-state constraint are not written. *)
Lemma calc_running_keeps_rows s cx0 ms i j :
  ndx_ s + nu_ s <= i < ndx_ s + nu_ s + cx0 ->
  forall t ix iu K r,
    ix + sum_list (stage_ndx ms) <= ndx_ s ->
    iu + sum_list (stage_nu ms) <= nu_ s ->
    mlookup (snd (fst (calc_running s cx0 ms t ix iu K r))) i j = mlookup K i j.
Proof.
  intros Hi. induction ms as [|m ms IH]; intros t ix iu K r Hx Hu; [reflexivity|].
  change (sum_list (stage_ndx (m :: ms)))
    with (get_ndx (get_state m) + sum_list (stage_ndx ms)) in Hx.
  change (sum_list (stage_nu (m :: ms))) with (get_nu m + sum_list (stage_nu ms)) in Hu.
  cbn [calc_running]. cbn zeta.
  rewrite IH by lia. rewrite !mlookup_set_block.
  destruct (mlookup K i j) as [x|]; [|reflexivity]. cbn [fmap option_fmap option_map].
  rewrite !wblock_out_row by lia. reflexivity.
Qed.

Lemma calc_running_indices s cx0 ms :
  forall t ix iu K r,
    fst (fst (calc_running s cx0 ms t ix iu K r))
    = (ix + sum_list (stage_ndx ms), iu + sum_list (stage_nu ms)).
Proof.
  intros t ix iu K r.
  destruct (calc_running_entrywise s cx0 ms t ix iu) as (W & V & HE & _).
  rewrite HE. reflexivity.
Qed.

Lemma calc_writes_initial_rows s K r i j :
  dims_ok s ->
  ndx_ s + nu_ s <= i
  < ndx_ s + nu_ s + get_ndx (get_state (running_models_ (problem_ s) !!! 0)) ->
  mlookup (fst (calc_writes s K r)) i j
  = wblock (ndx_ s + nu_ s) 0 (ndx_ s) (ndx_ s) eIdentity i j <$> mlookup K i j.
Proof.
  intros [Hdx Hdu] Hi. unfold calc_writes. cbn zeta.
  match goal with |- context [calc_running ?a ?b ?c ?d ?e ?f ?g ?h] =>
    pose proof (calc_running_keeps_rows a b c i j Hi d e f g h) as Hk;
    pose proof (calc_running_indices a b c d e f g h) as Hix;
    destruct (calc_running a b c d e f g h) as [[[ix iu] K2] r2]
  end.
  cbn [fst snd] in Hk, Hix |- *. injection Hix as -> ->.
  rewrite mlookup_set_block, Hk by lia. rewrite mlookup_set_block.
  destruct (mlookup K i j) as [x|]; [|reflexivity]. cbn [fmap option_fmap option_map].
  rewrite (wblock_out_row _ _ _ _ (mat_at _)) by lia. reflexivity.
Qed.

(** X11. In the matrix that [calc] assembles, the rows of the
    initial-state constraint hold the identity: with the aggregate
    dimensions of [allocateData] and a buffer of the allocated size, row
    [ndx_ + nu_ + i], for [i] below the tangent dimension of the first
    running model, holds a one in column [i] and zeros in the other state
    columns. *)
Theorem calc_initial_state_rows s i j :
  dims_ok s -> kkt_sized s ->
  i < get_ndx (get_state (running_models_ (problem_ s) !!! 0)) ->
  i < ndx_ s -> j < ndx_ s ->
  mat_at (kkt_ (calc s)) (ndx_ s + nu_ s + i) j = if Nat.eqb i j then d1 else d0.
Proof.
  intros Hd Hsz Hi Hin Hj.
  destruct (problem_calcDiff (problem_ s) (datas_ s) (xs_ s) (us_ s)) as [D c] eqn:HD.
  destruct (calc_buffers s D c HD) as (HK & _).
  rewrite mat_at_mlookup, HK, mlookup_mmap_ij.
  unfold copy_transposed. rewrite mlookup_set_block.
  rewrite (calc_writes_initial_rows (set_cost_ c (set_datas_ D s)));
    [|exact Hd|cbn [ndx_ nu_ problem_ set_cost_ set_datas_]; lia].
  cbn [ndx_ nu_ set_cost_ set_datas_].
  destruct (mlookup_sized (kkt_ s) _ (ndx_ s + nu_ s + i) j Hsz) as [x Hx]; [lia|lia|].
  rewrite Hx. cbn [fmap option_fmap option_map default].
  rewrite reg_entry_keeps by (right; lia).
  rewrite wblock_out_row by lia.
  rewrite wblock_in by lia. unfold eIdentity.
  replace (ndx_ s + nu_ s + i - (ndx_ s + nu_ s)) with i by lia.
  rewrite Nat.sub_0_r. reflexivity.
Qed.

(** X12. In the matrix that [calc] assembles, the upper right block is the
    transpose of the constraint block: with a buffer of the allocated size,
    the coefficient at cost row [i] and constraint column [ndx_ + nu_ + j]
    is the coefficient at constraint row [ndx_ + nu_ + j] and column [i],
    and the regularization touches neither. *)
Theorem calc_constraint_block_transposed s i j :
  kkt_sized s ->
  i < ndx_ s + nu_ s -> j < ndx_ s ->
  mat_at (kkt_ (calc s)) i (ndx_ s + nu_ s + j)
  = mat_at (kkt_ (calc s)) (ndx_ s + nu_ s + j) i.
Proof.
  intros Hsz Hi Hj.
  destruct (problem_calcDiff (problem_ s) (datas_ s) (xs_ s) (us_ s)) as [D c] eqn:HD.
  destruct (calc_buffers s D c HD) as (HK & _).
  destruct (calc_writes_entrywise (set_cost_ c (set_datas_ D s))) as (W & V & HE & _).
  rewrite HE in HK. cbn [fst] in HK.
  rewrite !mat_at_mlookup, HK, !mlookup_mmap_ij.
  unfold copy_transposed. rewrite !mlookup_set_block, !mlookup_mmap_ij.
  destruct (mlookup_sized (kkt_ s) _ i (ndx_ s + nu_ s + j) Hsz) as [x Hx]; [lia|lia|].
  destruct (mlookup_sized (kkt_ s) _ (ndx_ s + nu_ s + j) i Hsz) as [y Hy]; [lia|lia|].
  rewrite Hx, Hy. cbn [fmap option_fmap option_map default].
  rewrite !reg_entry_keeps by (first [left; lia | right; lia]).
  rewrite (wblock_out_row 0 _ _ _ _ (ndx_ s + nu_ s + j)) by lia.
  rewrite wblock_in by lia.
  unfold etranspose, eblock.
  replace (ndx_ s + nu_ s + j - (ndx_ s + nu_ s)) with j by lia.
  rewrite Nat.sub_0_r, Nat.add_0_l.
  rewrite mat_at_mlookup, mlookup_mmap_ij, Hy. reflexivity.
Qed.

(** The scalar problem with one running stage: the matrix has order five. *)
Lemma calc_initial_state_rows_witness :
  let s := setCandidate [[Fin 3]; [Fin 1]] [[Fin 1]] true
             (Scalar.solver (Scalar.problem 1 [Fin 3]) Scalar.llt_rhs) in
  mat_at (kkt_ (calc s)) (ndx_ s + nu_ s + 0) 1 = (if Nat.eqb 0 1 then d1 else d0).
Proof.
  intros s. apply (calc_initial_state_rows s 0 1).
  - unfold dims_ok. split; vm_compute; reflexivity.
  - vm_compute. reflexivity.
  - vm_compute. lia.
  - vm_compute. lia.
  - vm_compute. lia.
Defined.

Lemma calc_constraint_block_transposed_witness :
  let s := setCandidate [[Fin 3]; [Fin 1]] [[Fin 1]] true
             (Scalar.solver (Scalar.problem 1 [Fin 3]) Scalar.llt_rhs) in
  mat_at (kkt_ (calc s)) 2 (ndx_ s + nu_ s + 1)
  = mat_at (kkt_ (calc s)) (ndx_ s + nu_ s + 1) 2.
Proof.
  intros s. apply (calc_constraint_block_transposed s 2 1).
  - vm_compute. reflexivity.
  - vm_compute. lia.
  - vm_compute. lia.
Defined.

(** ** The direction is the answer of the factorization, cut in pieces *)

Lemma three_parts (x : vec) n m :
  take n (take n (take (n + m) x)) ++ take m (take m (drop n (take (n + m) x)))
  ++ take n (take n (drop (n + m) x))
  = take (2 * n + m) x.
Proof.
  rewrite <- take_drop_commute. rewrite !take_take, !Nat.min_id.
  replace (n `min` (n + m)) with n by lia.
  rewrite app_assoc, !take_take_drop. f_equal. lia.
Qed.

(** X13. A successful [computeDirection] stores in [primaldual_] what the
    factorization engine answers for the assembled matrix and the negated
    residual, and the per-stage state increments, control increments and
    multipliers, in this order, partition its first [2 * ndx_ + nu_]
    coefficients: nothing of the answer is dropped or read twice. *)
Theorem computeDirection_partitions_solution recalc s s' :
  allocated s ->
  computeDirection recalc s = (s', true) ->
  let s0 := if recalc then calc s else s in
  kkt_llt_ s (kkt_ s0) (vopp (kktref_ s0)) = Some (primaldual_ s')
  /\ concat (dxs_ s') ++ concat (dus_ s') ++ concat (lambdas_ s')
     = take (2 * ndx_ s + nu_ s) (primaldual_ s').
Proof.
  intros Halloc Hcd s0. unfold computeDirection in Hcd. fold s0 in Hcd.
  assert (Hslots : slots s0 = slots s)
    by (subst s0; destruct recalc; [apply calc_slots|reflexivity]).
  assert (Hllt : kkt_llt_ s0 = kkt_llt_ s).
  { subst s0. destruct recalc; [|reflexivity].
    destruct (calc_static s) as [H _]. exact (f_equal snd H). }
  destruct (computePrimalDual s0) as [s1|] eqn:Hpd; [|discriminate].
  injection Hcd as <-.
  unfold computePrimalDual in Hpd. rewrite Hllt in Hpd.
  destruct (kkt_llt_ s (kkt_ s0) (vopp (kktref_ s0))) as [x|]; [|discriminate].
  injection Hpd as Hs1.
  assert (Hs1' : slots s1 = slots s) by (rewrite <- Hs1, <- Hslots; reflexivity).
  assert (Hprimal : primal_ s1 = segment 0 (ndx_ s + nu_ s) x
                    /\ dual_ s1 = segment (ndx_ s + nu_ s) (ndx_ s) x
                    /\ primaldual_ s1 = x).
  { rewrite <- Hs1. cbn. unfold slots in Hslots.
    injection Hslots as _ -> -> _ _ _. repeat split; reflexivity. }
  destruct Hprimal as (Hprimal & Hdual & Hpdl).
  unfold slots in Hs1'. injection Hs1' as EP En Em Edx Edu Ela.
  assert (Halloc1 : allocated s1).
  { unfold allocated, dims_ok. rewrite EP, En, Em, Edx, Edu, Ela. exact Halloc. }
  destruct (slice_direction_slices s1 Halloc1) as (Hdx & Hdu & Hla & _ & _ & Hpd').
  rewrite EP, En in Hdx. rewrite EP, En, Em in Hdu. rewrite EP in Hla.
  rewrite Hpd', Hpdl. split; [reflexivity|].
  destruct Halloc as ((Hndx & Hnu) & _).
  set (P := problem_ s) in *.
  set (dims := stage_ndx (running_models_ P) ++ [get_ndx (get_state (terminal_model_ P))])
    in *.
  assert (Hsum : sum_list dims = ndx_ s).
  { unfold dims. rewrite sum_list_with_app.
    change (sum_list [get_ndx (get_state (terminal_model_ P))])
      with (get_ndx (get_state (terminal_model_ P)) + 0). lia. }
  rewrite Hdx, Hdu, Hla, !concat_slices, Hsum, <- Hnu, Hprimal, Hdual.
  unfold segment. rewrite !drop_0.
  apply three_parts.
Qed.

Lemma computeDirection_partitions_solution_witness :
  let s := setCandidate [[Fin 3]; [Fin 1]; [Fin 2]] [[Fin 1]; [Fin 1]] false
             (set_ureg_ (Fin 1) (set_xreg_ (Fin 1)
                (Scalar.solver (Scalar.problem 2 [Fin 3]) Scalar.llt_rhs))) in
  let s' := fst (computeDirection true s) in
  concat (dxs_ s') ++ concat (dus_ s') ++ concat (lambdas_ s')
  = take (2 * ndx_ s + nu_ s) (primaldual_ s').
Proof.
  intros s s'.
  destruct (computeDirection_partitions_solution true s s') as [_ H].
  - unfold allocated, dims_ok.
    repeat match goal with |- _ /\ _ => split end; vm_compute; reflexivity.
  - vm_compute. reflexivity.
  - exact H.
Defined.

(** ** What the constructor leaves in the object *)

Lemma allocate_running_lookup ms :
  forall t s,
    let s' := allocate_running ms t s in
    (forall j, j < t ->
        dxs_ s' !! j = dxs_ s !! j /\ dus_ s' !! j = dus_ s !! j
        /\ lambdas_ s' !! j = lambdas_ s !! j /\ xs_try_ s' !! j = xs_try_ s !! j
        /\ us_try_ s' !! j = us_try_ s !! j)
    /\ (forall k m, ms !! k = Some m ->
        (t + k < length (dxs_ s) ->
         dxs_ s' !! (t + k) = Some (vzeros (get_ndx (get_state m))))
        /\ (t + k < length (dus_ s) ->
            dus_ s' !! (t + k) = Some (vzeros (get_nu m)))
        /\ (t + k < length (lambdas_ s) ->
            lambdas_ s' !! (t + k) = Some (vzeros (get_ndx (get_state m))))
        /\ (t + k < length (xs_try_ s) ->
            xs_try_ s' !! (t + k)
            = Some (if Nat.eqb (t + k) 0 then get_x0 (problem_ s)
                    else replicate (get_nx (get_state m)) NaN))
        /\ (t + k < length (us_try_ s) ->
            us_try_ s' !! (t + k) = Some (replicate (get_nu m) NaN))).
Proof.
  induction ms as [|m ms IH]; intros t s.
  - cbn [allocate_running]. cbn zeta. split; [intros; repeat split|].
    intros k m Hm. discriminate.
  - cbn [allocate_running]. cbn zeta.
    match goal with |- context [allocate_running ms (S t) ?x] => set (s1 := x) end.
    destruct (IH (S t) s1) as (K & N). cbn zeta in K, N.
    change (problem_ s1) with (problem_ s) in N.
    change (dxs_ s1) with (<[t := vzeros (get_ndx (get_state m))]> (dxs_ s)) in K, N.
    change (dus_ s1) with (<[t := vzeros (get_nu m)]> (dus_ s)) in K, N.
    change (lambdas_ s1) with (<[t := vzeros (get_ndx (get_state m))]> (lambdas_ s)) in K, N.
    change (xs_try_ s1)
      with (<[t := if Nat.eqb t 0 then get_x0 (problem_ s)
                   else replicate (get_nx (get_state m)) NaN]> (xs_try_ s)) in K, N.
    change (us_try_ s1) with (<[t := replicate (get_nu m) NaN]> (us_try_ s)) in K, N.
    split.
    + intros j Hj. destruct (K j ltac:(lia)) as (-> & -> & -> & -> & ->).
      rewrite !list_lookup_insert_ne by lia. repeat split.
    + intros [|k] m' Hm'.
      * cbn in Hm'. injection Hm' as <-. rewrite Nat.add_0_r.
        destruct (K t ltac:(lia)) as (-> & -> & -> & -> & ->).
        repeat split; intros Hl; apply list_lookup_insert_eq; exact Hl.
      * cbn in Hm'. replace (t + S k) with (S t + k) by lia.
        destruct (N k m' Hm') as (N1 & N2 & N3 & N4 & N5).
        rewrite !length_insert in *. repeat split; assumption.
Qed.

Lemma lookup_set_back {A} (x : A) (l : list A) n :
  length l = n + 1 ->
  set_back x l !! n = Some x /\ forall j, j < n -> set_back x l !! j = l !! j.
Proof.
  intros Hl. unfold set_back. rewrite Hl. replace (pred (n + 1)) with n by lia. split.
  - apply list_lookup_insert_eq. lia.
  - intros j Hj. apply list_lookup_insert_ne. lia.
Qed.

Lemma lookup_set_back_short {A} (x : A) (l : list A) j :
  S j < length l -> set_back x l !! j = l !! j.
Proof. intros H. unfold set_back. apply list_lookup_insert_ne. lia. Qed.

(** What [allocateData] leaves in the per-stage sequences and in the
    buffers, whatever they held. *)
Lemma allocateData_contents s :
  let s' := allocateData s in
  let P := problem_ s in
  let T := get_T P in
  let mf := terminal_model_ P in
  let n := 2 * ndx_ s' + nu_ s' in
  (forall t m, running_models_ P !! t = Some m ->
      dxs_ s' !! t = Some (vzeros (get_ndx (get_state m)))
      /\ dus_ s' !! t = Some (vzeros (get_nu m))
      /\ lambdas_ s' !! t = Some (vzeros (get_ndx (get_state m)))
      /\ xs_try_ s' !! t = Some (if Nat.eqb t 0 then get_x0 P
                                else replicate (get_nx (get_state m)) NaN)
      /\ us_try_ s' !! t = Some (replicate (get_nu m) NaN))
  /\ dxs_ s' !! T = Some (vzeros (get_ndx (get_state mf)))
  /\ lambdas_ s' !! T = Some (vzeros (get_ndx (get_state mf)))
  /\ xs_try_ s' !! T = Some (zero (get_state mf))
  /\ kkt_ s' = mzeros n n /\ kktref_ s' = vzeros n /\ primaldual_ s' = vzeros n
  /\ primal_ s' = vzeros (ndx_ s' + nu_ s')
  /\ kkt_primal_ s' = vzeros (ndx_ s' + nu_ s')
  /\ dual_ s' = vzeros (ndx_ s').
Proof.
  unfold allocateData. cbn zeta.
  set (s0 := allocate_resize s).
  assert (H0 : problem_ s0 = problem_ s
               /\ length (dxs_ s0) = get_T (problem_ s) + 1
               /\ length (dus_ s0) = get_T (problem_ s)
               /\ length (lambdas_ s0) = get_T (problem_ s) + 1
               /\ length (xs_try_ s0) = get_T (problem_ s) + 1
               /\ length (us_try_ s0) = get_T (problem_ s)).
  { subst s0. unfold allocate_resize.
    cbn [problem_ ndx_ nu_ dxs_ dus_ lambdas_ xs_try_ us_try_
         set_nu_ set_ndx_ set_nx_ set_us_try_ set_xs_try_ set_lambdas_ set_dus_ set_dxs_].
    rewrite !length_resize. repeat split. }
  destruct H0 as (P0 & a0 & b0 & c0 & d0' & e0).
  destruct (allocate_running_fields (running_models_ (problem_ s0)) 0 s0)
    as (EP & _ & _ & L1 & L2 & L3 & L4 & L5).
  destruct (allocate_running_lookup (running_models_ (problem_ s0)) 0 s0) as (_ & N).
  set (s1 := allocate_running (running_models_ (problem_ s0)) 0 s0) in *.
  rewrite P0 in EP, N.
  rewrite a0 in L1. rewrite b0 in L2. rewrite c0 in L3. rewrite d0' in L4. rewrite e0 in L5.
  rewrite a0, b0, c0, d0', e0 in N.
  set (mf := terminal_model_ (problem_ s)).
  set (s2 := allocate_terminal s1).
  assert (H2 : xs_try_ s2 = set_back (zero (get_state mf)) (xs_try_ s1)
               /\ dxs_ s2 = set_back (vzeros (get_ndx (get_state mf))) (dxs_ s1)
               /\ lambdas_ s2 = set_back (vzeros (get_ndx (get_state mf))) (lambdas_ s1)
               /\ dus_ s2 = dus_ s1 /\ us_try_ s2 = us_try_ s1).
  { subst s2. unfold allocate_terminal.
    cbn [problem_ ndx_ nu_ dxs_ dus_ lambdas_ xs_try_ us_try_
         set_lambdas_ set_dxs_ set_xs_try_ set_ndx_ set_nx_].
    rewrite EP. repeat split. }
  destruct H2 as (X2 & D2 & A2 & U2 & V2).
  unfold allocate_buffers.
  cbn [problem_ ndx_ nu_ dxs_ dus_ lambdas_ xs_try_ us_try_ kkt_ kktref_ primal_
       primaldual_ kkt_primal_ dual_
       set_dual_ set_kkt_primal_ set_primal_ set_primaldual_ set_kktref_ set_kkt_].
  rewrite X2, D2, A2, U2, V2.
  destruct (lookup_set_back (zero (get_state mf)) (xs_try_ s1) _ L4) as [Xl Xk].
  destruct (lookup_set_back (vzeros (get_ndx (get_state mf))) (dxs_ s1) _ L1) as [Dl Dk].
  destruct (lookup_set_back (vzeros (get_ndx (get_state mf))) (lambdas_ s1) _ L3)
    as [Al Ak].
  split.
  { intros t m Hm.
    assert (Ht : t < get_T (problem_ s)) by (apply lookup_lt_Some in Hm; exact Hm).
    destruct (N t m Hm) as (N1 & N2 & N3 & N4 & N5). cbn [Nat.add] in *.
    rewrite Xk, Dk, Ak by exact Ht.
    rewrite N1, N2, N3, N4, N5 by lia. repeat split. }
  split; [exact Dl|]. split; [exact Al|]. split; [exact Xl|].
  repeat split.
Qed.

Lemma allocateData_thresholds s :
  th_step_ (allocateData s) = th_step_ s
  /\ regfactor_ (allocateData s) = regfactor_ s
  /\ regmin_ (allocateData s) = regmin_ s
  /\ regmax_ (allocateData s) = regmax_ s
  /\ th_grad_ (allocateData s) = th_grad_ s
  /\ was_feasible_ (allocateData s) = was_feasible_ s
  /\ xreg_ (allocateData s) = xreg_ s
  /\ ureg_ (allocateData s) = ureg_ s.
Proof.
  unfold allocateData. cbn zeta.
  set (s0 := allocate_resize s).
  assert (H : forall ms t u,
             th_step_ (allocate_running ms t u) = th_step_ u
             /\ regfactor_ (allocate_running ms t u) = regfactor_ u
             /\ regmin_ (allocate_running ms t u) = regmin_ u
             /\ regmax_ (allocate_running ms t u) = regmax_ u
             /\ th_grad_ (allocate_running ms t u) = th_grad_ u
             /\ was_feasible_ (allocate_running ms t u) = was_feasible_ u
             /\ xreg_ (allocate_running ms t u) = xreg_ u
             /\ ureg_ (allocate_running ms t u) = ureg_ u).
  { induction ms as [|m ms IH]; intros t u; [repeat split|].
    cbn [allocate_running]. cbn zeta.
    match goal with |- context [allocate_running ms (S t) ?x] =>
      destruct (IH (S t) x) as (-> & -> & -> & -> & -> & -> & -> & ->) end.
    repeat split. }
  destruct (H (running_models_ (problem_ s0)) 0 s0) as (A & B & C & D & E & F & G & I).
  unfold allocate_buffers, allocate_terminal.
  cbn [th_step_ regfactor_ regmin_ regmax_ th_grad_ was_feasible_ xreg_ ureg_
       set_dual_ set_kkt_primal_ set_primal_ set_primaldual_ set_kktref_ set_kkt_
       set_lambdas_ set_dxs_ set_xs_try_ set_ndx_ set_nx_].
  rewrite A, B, C, D, E, F, G, I. repeat split.
Qed.

Lemma set_alphas_keeps A X :
  problem_ (set_alphas_ A X) = problem_ X
  /\ ndx_ (set_alphas_ A X) = ndx_ X /\ nu_ (set_alphas_ A X) = nu_ X
  /\ dxs_ (set_alphas_ A X) = dxs_ X /\ dus_ (set_alphas_ A X) = dus_ X
  /\ lambdas_ (set_alphas_ A X) = lambdas_ X
  /\ xs_try_ (set_alphas_ A X) = xs_try_ X /\ us_try_ (set_alphas_ A X) = us_try_ X
  /\ kkt_ (set_alphas_ A X) = kkt_ X /\ kktref_ (set_alphas_ A X) = kktref_ X
  /\ primaldual_ (set_alphas_ A X) = primaldual_ X
  /\ primal_ (set_alphas_ A X) = primal_ X
  /\ kkt_primal_ (set_alphas_ A X) = kkt_primal_ X
  /\ dual_ (set_alphas_ A X) = dual_ X
  /\ xreg_ (set_alphas_ A X) = xreg_ X /\ ureg_ (set_alphas_ A X) = ureg_ X
  /\ th_step_ (set_alphas_ A X) = th_step_ X
  /\ alphas_ (set_alphas_ A X) = A.
Proof. repeat split. Qed.

(** X14. The object that the constructor leaves, whatever it held before:
    the aggregate dimensions are the sums over the stages and the per-stage
    sequences have [T + 1] and [T] entries; every state increment, control
    increment and multiplier is a zero vector of its stage's dimension; the
    trial states are the initial state at stage 0, then vectors that are not
    numbers, then the terminal state space's zero at stage [T]; the trial
    controls are not numbers; the matrix, the residual and the solution
    buffers are zero, of order [2 * ndx_ + nu_]; no regularization is set
    beyond what the object held. *)
Theorem constructor_contents s0 :
  let s := SolverKKT_ctor s0 in
  let P := problem_ s0 in
  let T := get_T P in
  let mf := terminal_model_ P in
  let n := 2 * ndx_ s + nu_ s in
  allocated s /\ problem_ s = P
  /\ length (xs_try_ s) = T + 1 /\ length (us_try_ s) = T
  /\ (forall t m, running_models_ P !! t = Some m ->
      dxs_ s !! t = Some (vzeros (get_ndx (get_state m)))
      /\ dus_ s !! t = Some (vzeros (get_nu m))
      /\ lambdas_ s !! t = Some (vzeros (get_ndx (get_state m)))
      /\ xs_try_ s !! t = Some (if Nat.eqb t 0 then get_x0 P
                               else replicate (get_nx (get_state m)) NaN)
      /\ us_try_ s !! t = Some (replicate (get_nu m) NaN))
  /\ dxs_ s !! T = Some (vzeros (get_ndx (get_state mf)))
  /\ lambdas_ s !! T = Some (vzeros (get_ndx (get_state mf)))
  /\ xs_try_ s !! T = Some (zero (get_state mf))
  /\ kkt_ s = mzeros n n /\ kktref_ s = vzeros n /\ primaldual_ s = vzeros n
  /\ primal_ s = vzeros (ndx_ s + nu_ s)
  /\ kkt_primal_ s = vzeros (ndx_ s + nu_ s)
  /\ dual_ s = vzeros (ndx_ s)
  /\ xreg_ s = xreg_ s0 /\ ureg_ s = ureg_ s0.
Proof.
  cbn zeta. unfold SolverKKT_ctor. cbn zeta.
  match goal with |- context [allocateData ?x] => set (s7 := x) end.
  split; [apply allocated_set_alphas, (proj1 (allocateData_allocated s7))|].
  match goal with |- context [set_alphas_ ?A ?X] =>
    destruct (set_alphas_keeps A X)
      as (-> & -> & -> & -> & -> & -> & -> & -> & -> & -> & -> & -> & -> & -> & -> & ->
          & _ & _) end.
  destruct (allocateData_allocated s7) as ((_ & _) & LX & LU & _).
  cbn zeta in LX, LU.
  assert (EP : problem_ (allocateData s7) = problem_ s0).
  { unfold allocateData. cbn zeta.
    unfold allocate_buffers, allocate_terminal.
    cbn [problem_ set_dual_ set_kkt_primal_ set_primal_ set_primaldual_ set_kktref_
         set_kkt_ set_lambdas_ set_dxs_ set_xs_try_ set_ndx_ set_nx_].
    destruct (allocate_running_fields
                (running_models_ (problem_ (allocate_resize s7))) 0 (allocate_resize s7))
      as (-> & _).
    reflexivity. }
  rewrite EP in LX, LU.
  split; [exact EP|]. split; [exact LX|]. split; [exact LU|].
  destruct (allocateData_thresholds s7) as (_ & _ & _ & _ & _ & _ & -> & ->).
  pose proof (allocateData_contents s7) as H. cbn zeta in H.
  change (problem_ s7) with (problem_ s0) in H.
  destruct H as (H1 & H2 & H3 & H4 & H5 & H6 & H7 & H8 & H9 & H10).
  repeat match goal with |- _ /\ _ => split end; try assumption; reflexivity.
Qed.

(** X15. The constructed solver scans ten step lengths, [1 / 2^n] for
    [n = 0 .. 9].  Only the first one exceeds the large-step threshold
    [th_step_ = 1/2], the test that guards [decreaseRegularization] in
    [solve]; and only the last one compares equal to [alphas_.back()], the
    test that guards [increaseRegularization]. *)
Theorem constructor_step_lengths s0 :
  let s := SolverKKT_ctor s0 in
  length (alphas_ s) = 10
  /\ forall n a, alphas_ s !! n = Some a ->
       a = (d1 / dpow2 n)%D
       /\ ((a >? th_step_ s)%D = true <-> n = 0)
       /\ ((a =? alphas_back s)%D = true <-> n = 9).
Proof.
  cbn zeta. unfold alphas_back, SolverKKT_ctor. cbn zeta.
  match goal with |- context [allocateData ?x] => set (s7 := x) end.
  match goal with |- context [set_alphas_ ?A ?X] =>
    destruct (set_alphas_keeps A X)
      as (_ & _ & _ & _ & _ & _ & _ & _ & _ & _ & _ & _ & _ & _ & _ & _ & -> & ->) end.
  destruct (allocateData_thresholds s7) as (-> & _).
  change (th_step_ s7) with (Fin (1 # 2)).
  split; [reflexivity|].
  intros n a Hn.
  do 10 (destruct n as [|n];
         [injection Hn as <-; split; [reflexivity|];
          split; (split; [vm_compute; intros; first [reflexivity|discriminate]
                         |intros; first [discriminate|vm_compute; reflexivity]])|]).
  discriminate.
Qed.

(** ** The trial trajectory *)

(** X16. What [tryStep] does for any solver whose trial sequences have
    [T + 1] and [T] entries: the candidate is left alone; the first trial
    state is not written; for every stage [t < T] the integration of the
    state of stage [t] along the scaled direction of stage [t] goes to entry
    [t + 1] of the trial states, and the trial control of stage [t] is the
    control plus the scaled control direction; the sizes are kept; and the
    value returned, when the trial evaluation does not throw, is the cost
    of the candidate minus the trial cost. *)
Theorem tryStep_trial_trajectory a s :
  length (xs_try_ s) = get_T (problem_ s) + 1 ->
  length (us_try_ s) = get_T (problem_ s) ->
  let s' := fst (tryStep a s) in
  candidate s' = candidate s
  /\ shape s' = shape s
  /\ xs_try_ s' !! 0 = xs_try_ s !! 0
  /\ (forall t m, running_models_ (problem_ s) !! t = Some m ->
       xs_try_ s' !! (t + 1)
       = Some (integrate (get_state m) (xs_ s !!! t) (vscale a (dxs_ s !!! t)))
       /\ us_try_ s' !! t = Some (vadd (us_ s !!! t) (vscale a (dus_ s !!! t))))
  /\ (forall dV, snd (tryStep a s) = Some dV -> dV = (cost_ s - cost_try_ s')%D).
Proof.
  intros LX LU s'.
  destruct (tryStep_keeps a s) as (Hc & _ & _ & HdV & _).
  destruct (tryStep_trajectory a s LX LU) as (H0 & Ht).
  split; [exact Hc|]. split; [apply tryStep_shape|].
  split; [exact H0|]. split; [exact Ht|exact HdV].
Qed.

Lemma tryStep_trial_trajectory_witness :
  let s := set_dus_ [[Fin (-2)]] (set_dxs_ [[Fin (-6)]; [Fin (-4)]]
             (setCandidate [[Fin 3]; [Fin 1]] [[Fin 1]] false
                (Scalar.solver (Scalar.problem 1 [Fin 3]) Scalar.llt_rhs))) in
  let s' := fst (tryStep (Fin (1 # 2)) s) in
  candidate s' = candidate s /\ xs_try_ s' !! 0 = xs_try_ s !! 0.
Proof.
  intros s s'.
  destruct (tryStep_trial_trajectory (Fin (1 # 2)) s) as (H1 & _ & H3 & _).
  - vm_compute. reflexivity.
  - vm_compute. reflexivity.
  - exact (conj H1 H3).
Defined.

Lemma slice_direction_trials s : xs_try_ (slice_direction s) = xs_try_ s.
Proof. unfold slice_direction. break_pairs. reflexivity. Qed.

Lemma computeDirection_trials recalc s :
  xs_try_ (fst (computeDirection recalc s)) = xs_try_ s.
Proof.
  unfold computeDirection.
  assert (H : xs_try_ (if recalc then calc s else s) = xs_try_ s)
    by (destruct recalc; [apply calc_trials|reflexivity]).
  revert H. generalize (if recalc then calc s else s). intros s1 H.
  unfold computePrimalDual. destruct (kkt_llt_ s1 _ _); [|exact H].
  cbn [fst]. rewrite slice_direction_trials. exact H.
Qed.

Lemma tryStep_head a s : xs_try_ (fst (tryStep a s)) !! 0 = xs_try_ s !! 0.
Proof.
  unfold tryStep.
  pose proof (tryStep_running_lookup s a (running_models_ (problem_ s)) 0
                (xs_try_ s) (us_try_ s)) as H.
  cbn zeta in H. destruct H as (_ & _ & K1 & _).
  destruct (tryStep_running _ _ _ _ _ _) as [X U]. cbn [fst snd] in K1.
  cbn [problem_ datas_ xs_try_ us_try_ set_us_try_ set_xs_try_].
  destruct (problem_calc _ _ _ _) as [D [c|]]; cbn; apply K1; lia.
Qed.

Lemma line_search_head alphas s :
  xs_try_ (line_search alphas s) !! 0 = xs_try_ s !! 0.
Proof.
  revert s. induction alphas as [|a rest IH]; intros s; [reflexivity|].
  cbn [line_search].
  pose proof (tryStep_head (steplength_ (set_steplength_ a s)) (set_steplength_ a s)) as Ht.
  destruct (tryStep _ _) as [s1 [dV|]]; cbn [fst] in Ht.
  - match goal with |- context [if ?b then _ else _] => destruct b end.
    + exact Ht.
    + rewrite IH. exact Ht.
  - rewrite IH. exact Ht.
Qed.

Lemma step_head maxiter p s :
  xs_try_ (snd (step maxiter (p, s))) !! 0 = xs_try_ s !! 0.
Proof.
  destruct p; cbn [step snd].
  - destruct (Nat.ltb _ _); reflexivity.
  - pose proof (computeDirection_trials recalc s) as H.
    destruct (computeDirection recalc s) as [s1 [|]]; cbn [fst snd] in *;
      [rewrite H; reflexivity|].
    destruct (deqb _ _); cbn [snd]; rewrite H; reflexivity.
  - reflexivity.
  - apply line_search_head.
  - destruct (dgtb _ _); [|reflexivity].
    unfold decreaseRegularization. cbn. destruct (dltb _ _); reflexivity.
  - destruct (deqb (steplength_ s) _); [|reflexivity].
    assert (H : xs_try_ (increaseRegularization s) = xs_try_ s)
      by (unfold increaseRegularization; cbn; destruct (dgtb _ _); reflexivity).
    destruct (deqb _ _); cbn [snd]; rewrite H; reflexivity.
  - reflexivity.
  - destruct (_ && _); reflexivity.
  - reflexivity.
Qed.

Lemma steps_head n maxiter :
  forall c, xs_try_ (snd (steps n maxiter c)) !! 0 = xs_try_ (snd c) !! 0.
Proof.
  induction n as [|n IH]; intros [p s]; [reflexivity|].
  cbn [steps]. rewrite IH. apply step_head.
Qed.

Lemma solve_start_trials init_xs init_us is_feasible reginit s :
  xs_try_ (snd (solve_start init_xs init_us is_feasible reginit s)) = xs_try_ s.
Proof.
  unfold solve_start, solve_init, setCandidate. destruct (isnan reginit); reflexivity.
Qed.

(** X17. No statement of [solve] writes the first trial state.  On a
    constructed solver of a problem with at least one running stage, the
    trial trajectory starts at the initial state [x0] of the problem at
    every control point of every [solve], whatever initial guess is
    passed. *)
Theorem trial_trajectory_starts_at_x0 init_xs init_us maxiter is_feasible reginit s0 n :
  0 < get_T (problem_ s0) ->
  let s := SolverKKT_ctor s0 in
  let s' := snd (steps n maxiter (solve_start init_xs init_us is_feasible reginit s)) in
  xs_try_ s' !! 0 = Some (get_x0 (problem_ s0)).
Proof.
  intros HT s s'. subst s'. rewrite steps_head, solve_start_trials.
  subst s. unfold SolverKKT_ctor. cbn zeta.
  match goal with |- context [allocateData ?x] => set (s7 := x) end.
  match goal with |- context [set_alphas_ ?A ?X] =>
    destruct (set_alphas_keeps A X) as (_ & _ & _ & _ & _ & _ & -> & _) end.
  pose proof (allocateData_contents s7) as H. cbn zeta in H.
  change (problem_ s7) with (problem_ s0) in H.
  destruct H as (H & _).
  unfold get_T in HT.
  destruct (running_models_ (problem_ s0)) as [|m ms] eqn:E; [cbn in HT; lia|].
  destruct (H 0 m eq_refl) as (_ & _ & _ & Hx & _). exact Hx.
Qed.

Lemma trial_trajectory_starts_at_x0_witness :
  let s := Scalar.solver (Scalar.problem 1 [Fin 3]) Scalar.llt_rhs in
  let s' := snd (steps 12 3 (solve_start [[Fin 5]; [Fin 1]] [[Fin 1]] false (Fin 1) s)) in
  xs_try_ s' !! 0 = Some [Fin 3].
Proof.
  intros s.
  apply (trial_trajectory_starts_at_x0 [[Fin 5]; [Fin 1]] [[Fin 1]] 3 false (Fin 1)
           (Scalar.blank (Scalar.problem 1 [Fin 3]) Scalar.llt_rhs) 12).
  vm_compute. lia.
Defined.

(** ** The two observers of the iteration *)

Lemma stopping_running_ext s s' ms :
  datas_ s' = datas_ s -> lambdas_ s' = lambdas_ s -> ndx_ s' = ndx_ s ->
  forall t ix iu dF,
    stopping_running s' ms t ix iu dF = stopping_running s ms t ix iu dF.
Proof.
  intros Hd Hl Hn. induction ms as [|m ms IH]; intros t ix iu dF; [reflexivity|].
  cbn [stopping_running]. cbn zeta. rewrite Hd, Hl, Hn. apply IH.
Qed.

Lemma stopping_value_ext s s' :
  problem_ s' = problem_ s -> datas_ s' = datas_ s -> lambdas_ s' = lambdas_ s ->
  ndx_ s' = ndx_ s -> nu_ s' = nu_ s -> kktref_ s' = kktref_ s ->
  stop_ (stoppingCriteria s') = stop_ (stoppingCriteria s).
Proof.
  intros HP Hd Hl Hn Hm Hr. unfold stoppingCriteria. cbn [stop_ set_stop_].
  unfold stopping_dL, stopping_dF, stopping_gap. cbn zeta.
  rewrite (stopping_running_ext s s' _ Hd Hl Hn), HP, Hl, Hn, Hm, Hr. reflexivity.
Qed.

(** X19. [expectedImprovement] and [stoppingCriteria] read nothing that
    either of them writes: the value that [stoppingCriteria] leaves in
    [stop_] is the same before and after [expectedImprovement] and after a
    first [stoppingCriteria], the pair that [expectedImprovement] leaves in
    [d_] is the same before and after [stoppingCriteria] and after a first
    [expectedImprovement], and neither touches the candidate, the
    direction, the matrix or the residual. *)
Theorem observers_do_not_interfere s :
  stop_ (stoppingCriteria (expectedImprovement s)) = stop_ (stoppingCriteria s)
  /\ stop_ (stoppingCriteria (stoppingCriteria s)) = stop_ (stoppingCriteria s)
  /\ d_ (expectedImprovement (stoppingCriteria s)) = d_ (expectedImprovement s)
  /\ d_ (expectedImprovement (expectedImprovement s)) = d_ (expectedImprovement s)
  /\ (forall s', s' = expectedImprovement s \/ s' = stoppingCriteria s ->
        candidate s' = candidate s /\ slots s' = slots s
        /\ kkt_ s' = kkt_ s /\ kktref_ s' = kktref_ s /\ regs s' = regs s).
Proof.
  split; [apply stopping_value_ext; reflexivity|].
  split; [apply stopping_value_ext; reflexivity|].
  split; [reflexivity|]. split; [reflexivity|].
  intros s' [-> | ->]; repeat split.
Qed.

(** ** The direction is the solution of the KKT system, sliced *)

(** C7. A successful [computeDirection] stores in [primaldual_] the answer
    of the factorization engine for the matrix [kkt_] and the negated
    residual [- kktref_] (assembled by [calc] when [recalc] is set), the
    primal vector is its first [ndx_ + nu_] coefficients and the dual vector
    the next [ndx_].  [dxs_] (T+1 entries) and [lambdas_] (T+1 entries) are
    the consecutive slices of the state part of the primal vector and of the
    dual vector, with each stage's tangent dimension as stride, and [dus_]
    (T entries, none for the terminal stage) the consecutive slices of the
    control part with each stage's control dimension as stride;
    concatenated, they give back the primal vector (state part, then control
    part) and the dual vector. *)
Theorem computeDirection_slices recalc s s' :
  allocated s ->
  computeDirection recalc s = (s', true) ->
  let P := problem_ s in
  let T := get_T P in
  let dims := stage_ndx (running_models_ P) ++ [get_ndx (get_state (terminal_model_ P))] in
  let s0 := if recalc then calc s else s in
  kkt_llt_ s (kkt_ s0) (vopp (kktref_ s0)) = Some (primaldual_ s')
  /\ primal_ s' = segment 0 (ndx_ s + nu_ s) (primaldual_ s')
  /\ dual_ s' = segment (ndx_ s + nu_ s) (ndx_ s) (primaldual_ s')
  /\ dxs_ s' = slices (segment 0 (ndx_ s) (primal_ s')) 0 dims
  /\ dus_ s' = slices (segment (ndx_ s) (nu_ s) (primal_ s')) 0
                 (stage_nu (running_models_ P))
  /\ lambdas_ s' = slices (dual_ s') 0 dims
  /\ length (dxs_ s') = T + 1 /\ length (dus_ s') = T /\ length (lambdas_ s') = T + 1
  /\ concat (dxs_ s') ++ concat (dus_ s') = primal_ s'
  /\ concat (lambdas_ s') = dual_ s'.
Proof.
  intros Halloc Hcd P T dims s0.
  unfold computeDirection in Hcd. fold s0 in Hcd.
  assert (Hslots : slots s0 = slots s)
    by (subst s0; destruct recalc; [apply calc_slots|reflexivity]).
  assert (Hllt : kkt_llt_ s0 = kkt_llt_ s).
  { subst s0. destruct recalc; [|reflexivity].
    destruct (calc_static s) as [H _]. exact (f_equal snd H). }
  destruct (computePrimalDual s0) as [s1|] eqn:Hpd; [|discriminate].
  injection Hcd as <-.
  unfold computePrimalDual in Hpd. rewrite Hllt in Hpd.
  destruct (kkt_llt_ s (kkt_ s0) (vopp (kktref_ s0))) as [x|]; [|discriminate].
  injection Hpd as Hs1.
  assert (Hs1' : slots s1 = slots s) by (rewrite <- Hs1, <- Hslots; reflexivity).
  assert (Hprimal : primal_ s1 = segment 0 (ndx_ s + nu_ s) x
                    /\ dual_ s1 = segment (ndx_ s + nu_ s) (ndx_ s) x
                    /\ primaldual_ s1 = x).
  { rewrite <- Hs1. cbn. unfold slots in Hslots.
    injection Hslots as _ -> -> _ _ _. repeat split; reflexivity. }
  destruct Hprimal as (Hprimal & Hdual & Hpdl).
  unfold slots in Hs1'. injection Hs1' as EP En Em Edx Edu Ela.
  assert (Halloc1 : allocated s1).
  { unfold allocated, dims_ok. rewrite EP, En, Em, Edx, Edu, Ela. exact Halloc. }
  destruct (slice_direction_slices s1 Halloc1) as (Hdx & Hdu & Hla & Hp & Hd & Hpd').
  rewrite EP, En in Hdx. rewrite EP, En, Em in Hdu. rewrite EP in Hla.
  fold P in Hdx, Hdu, Hla. fold dims in Hdx, Hla.
  rewrite Hp, Hd, Hpd', Hpdl.
  split; [reflexivity|]. split; [exact Hprimal|]. split; [exact Hdual|].
  destruct Halloc as ((Hndx & Hnu) & _). fold P in Hndx, Hnu.
  assert (LT : length (stage_ndx (running_models_ P)) = T
               /\ length (stage_nu (running_models_ P)) = T).
  { unfold stage_ndx, stage_nu. rewrite !length_fmap. split; reflexivity. }
  destruct LT as [LTx LTu].
  assert (Hsum : sum_list dims = ndx_ s).
  { unfold dims. rewrite sum_list_with_app.
    change (sum_list [get_ndx (get_state (terminal_model_ P))])
      with (get_ndx (get_state (terminal_model_ P)) + 0). lia. }
  split; [exact Hdx|]. split; [exact Hdu|]. split; [exact Hla|].
  split; [rewrite Hdx, length_slices; unfold dims; rewrite length_app, LTx; reflexivity|].
  split; [rewrite Hdu, length_slices; exact LTu|].
  split; [rewrite Hla, length_slices; unfold dims; rewrite length_app, LTx; reflexivity|].
  rewrite Hdx, Hdu, Hla, !concat_slices, Hsum, <- Hnu.
  unfold segment. rewrite !drop_0, !take_take, !Nat.min_id.
  split.
  - rewrite take_take_drop. apply take_ge. rewrite Hprimal.
    unfold segment. rewrite length_take. lia.
  - apply take_ge. rewrite Hdual. unfold segment. rewrite length_take. lia.
Qed.

(** The default object on the two-stage scalar problem, with the engine
    that answers with the right-hand side. *)
Lemma computeDirection_slices_witness :
  let s := setCandidate [[Fin 3]; [Fin 1]; [Fin 2]] [[Fin 1]; [Fin 1]] false
             (set_ureg_ (Fin 1) (set_xreg_ (Fin 1)
                (Scalar.solver (Scalar.problem 2 [Fin 3]) Scalar.llt_rhs))) in
  let s' := fst (computeDirection true s) in
  kkt_llt_ s (kkt_ (calc s)) (vopp (kktref_ (calc s))) = Some (primaldual_ s')
  /\ primal_ s' = segment 0 (ndx_ s + nu_ s) (primaldual_ s')
  /\ dual_ s' = segment (ndx_ s + nu_ s) (ndx_ s) (primaldual_ s')
  /\ concat (dxs_ s') ++ concat (dus_ s') = primal_ s'
  /\ concat (lambdas_ s') = dual_ s'
  /\ length (dxs_ s') = 3 /\ length (dus_ s') = 2 /\ length (lambdas_ s') = 3.
Proof.
  intros s s'.
  destruct (computeDirection_slices true s s')
    as (H0 & H1 & H2 & _ & _ & _ & H4 & H5 & H6 & H7 & H8).
  - unfold allocated, dims_ok.
    repeat match goal with |- _ /\ _ => split end; vm_compute; reflexivity.
  - vm_compute. reflexivity.
  - split; [|exact (conj H1 (conj H2 (conj H7 (conj H8 (conj H4 (conj H5 H6))))))].
    exact H0.
Defined.

(** ** A failed factorization *)

Lemma dot_self (v : vec) : dot v v = squaredNorm v.
Proof.
  unfold dot, squaredNorm. f_equal.
  induction v as [|x v IH]; [reflexivity|]. cbn. f_equal. exact IH.
Qed.

(** A matrix with a zero on its diagonal has no Cholesky factor: the
    diagonal coefficient would be the squared norm of a row of the factor,
    whose diagonal is positive. *)
Lemma zero_diagonal_no_cholesky (K : mat) i :
  i < length K -> dzero (mat_at K i i) -> forall L, ~ cholesky_factor L K.
Proof.
  intros Hi Hz L (_ & Hpos & _ & Hprod).
  specialize (Hprod i i Hi Hi). rewrite dot_self in Hprod.
  destruct (Hpos i Hi) as (p & Hp & Hp0).
  pose proof (squaredNorm_cases (L !!! i)) as Hsq. rewrite <- Hprod in Hsq.
  destruct (mat_at K i i) as [|q]; [contradiction|]. cbn [dzero] in Hz.
  destruct Hsq as (_ & Hsq). apply Hsq in Hz.
  unfold mat_at in Hp. rewrite list_lookup_total_alt in Hp.
  destruct ((L !!! i) !! i) as [y|] eqn:Ey; cbn in Hp; [|discriminate].
  subst y. rewrite Forall_lookup in Hz. specialize (Hz i _ Ey). cbn in Hz. lra.
Qed.

Lemma computeDirection_answer recalc s s' :
  computeDirection recalc s = (s', true) ->
  let s0 := if recalc then calc s else s in
  kkt_llt_ s (kkt_ s0) (vopp (kktref_ s0)) = Some (primaldual_ s').
Proof.
  intros Hcd s0. unfold computeDirection in Hcd. fold s0 in Hcd.
  assert (Hllt : kkt_llt_ s0 = kkt_llt_ s).
  { subst s0. destruct recalc; [|reflexivity].
    destruct (calc_static s) as [H _]. exact (f_equal snd H). }
  destruct (computePrimalDual s0) as [s1|] eqn:Hpd; [|discriminate].
  injection Hcd as <-.
  unfold computePrimalDual in Hpd. rewrite Hllt in Hpd.
  destruct (kkt_llt_ s (kkt_ s0) (vopp (kktref_ s0))) as [x|]; [|discriminate].
  injection Hpd as <-. unfold slice_direction. break_pairs. reflexivity.
Qed.

Lemma step_no_retry maxiter c :
  never_refuses (kkt_llt_ (snd c)) -> fst (step maxiter c) <> AtDirection false.
Proof.
  destruct c as [p s]. cbn [snd]. intros Hllt. destruct p; cbn [step].
  - destruct (Nat.ltb _ _); discriminate.
  - pose proof (computeDirection_succeeds recalc s Hllt) as H.
    destruct (computeDirection recalc s) as [s1 [|]]; cbn [snd] in H;
      [discriminate|discriminate].
  - discriminate.
  - discriminate.
  - discriminate.
  - destruct (deqb (steplength_ s) _); [|discriminate].
    destruct (deqb _ _); discriminate.
  - discriminate.
  - destruct (_ && _); discriminate.
  - discriminate.
Qed.

Lemma steps_llt n maxiter :
  forall c, kkt_llt_ (snd (steps n maxiter c)) = kkt_llt_ (snd c).
Proof.
  induction n as [|n IH]; intros c; [reflexivity|].
  cbn [steps]. rewrite IH. apply step_llt.
Qed.

Lemma steps_no_retry n maxiter :
  forall c, never_refuses (kkt_llt_ (snd c)) ->
            fst c <> AtDirection false ->
            fst (steps n maxiter c) <> AtDirection false.
Proof.
  induction n as [|n IH]; intros c Hllt Hc; [exact Hc|].
  cbn [steps]. apply IH.
  - rewrite step_llt. exact Hllt.
  - apply step_no_retry, Hllt.
Qed.

Lemma solve_start_llt init_xs init_us is_feasible reginit s :
  kkt_llt_ (snd (solve_start init_xs init_us is_feasible reginit s)) = kkt_llt_ s.
Proof.
  unfold solve_start, solve_init, setCandidate. destruct (isnan reginit); reflexivity.
Qed.

(** The direction computation at a control point of [solve], with an engine
    that answers. *)
Lemma direction_goes_on maxiter recalc s :
  never_refuses (kkt_llt_ s) ->
  let c' := step maxiter (AtDirection recalc, s) in
  let s0 := if recalc then calc s else s in
  fst c' = AtImprovement /\ regs (snd c') = regs s
  /\ kkt_llt_ s (kkt_ s0) (vopp (kktref_ s0)) = Some (primaldual_ (snd c')).
Proof.
  intros Hllt. cbn zeta. cbn [step].
  pose proof (computeDirection_succeeds recalc s Hllt) as H.
  pose proof (computeDirection_regs recalc s) as Hr.
  pose proof (computeDirection_answer recalc s) as Ha.
  destruct (computeDirection recalc s) as [s1 [|]]; cbn [fst snd] in *; [|discriminate].
  split; [reflexivity|]. split; [exact Hr|]. apply (Ha s1 eq_refl).
Qed.

Lemma solve_first_direction init_xs init_us maxiter is_feasible reginit s :
  0 < maxiter ->
  let c0 := solve_start init_xs init_us is_feasible reginit s in
  steps 2 maxiter c0 = step maxiter (AtDirection true, snd c0).
Proof.
  intros Hm. cbn zeta. unfold solve_start. cbn [steps]. f_equal.
  cbn [step snd iter_ set_iter_].
  destruct (Nat.ltb_spec 0 maxiter); [reflexivity|lia].
Qed.

(** C1, on the code.  The constructed solver on the one-stage scalar
    problem, [solve] with [reginit = 1].  The matrix of the first iteration
    has zeros on the diagonal of its constraint rows, so it has no Cholesky
    factor: the factorization fails.  With any engine that, like
    [Eigen::LLT], reports the failure without throwing, nothing is raised:
    the direction computation completes with the answer of the engine, the
    regularization is still 1 at the expected improvement, no control point
    of the [solve] is the retry of the [catch] block, and [solve] returns
    within its iteration cap. *)
Theorem failed_factorization_goes_unnoticed (llt : mat -> vec -> option vec) :
  let s := Scalar.solver (Scalar.problem 1 [Fin 3]) llt in
  let c0 := solve_start [[Fin 3]; [Fin 1]] [[Fin 1]] false (Fin 1) s in
  let K := kkt_ (calc (snd c0)) in
  (length K = 5 /\ mat_at K 3 3 = d0 /\ mat_at K 4 4 = d0
   /\ forall L, ~ cholesky_factor L K)
  /\ (never_refuses llt ->
      (exists s2, steps 2 3 c0 = (AtImprovement, s2)
                  /\ xreg_ s2 = Fin 1 /\ ureg_ s2 = Fin 1
                  /\ llt K (vopp (kktref_ (calc (snd c0)))) = Some (primaldual_ s2))
      /\ (forall n, fst (steps n 3 c0) <> AtDirection false)
      /\ exists b s', solve 25 [[Fin 3]; [Fin 1]] [[Fin 1]] 3 false (Fin 1) s
                      = Some (b, s')).
Proof.
  intros s c0 K.
  assert (HK : length K = 5 /\ mat_at K 3 3 = d0 /\ mat_at K 4 4 = d0)
    by (repeat split; vm_compute; reflexivity).
  destruct HK as (H5 & H33 & H44).
  split.
  { split; [exact H5|]. split; [exact H33|]. split; [exact H44|].
    apply (zero_diagonal_no_cholesky K 3); [rewrite H5; lia|].
    rewrite H33. reflexivity. }
  intros Hllt.
  assert (Hs : kkt_llt_ (snd c0) = llt) by reflexivity.
  split; [|split].
  - destruct (direction_goes_on 3 true (snd c0)) as (H1 & H2 & H3);
      [rewrite Hs; exact Hllt|].
    cbn zeta in H1, H2, H3.
    pose proof (solve_first_direction [[Fin 3]; [Fin 1]] [[Fin 1]] 3 false (Fin 1) s
                  ltac:(lia)) as E.
    cbn zeta in E. fold c0 in E. rewrite <- E in H1, H2, H3.
    exists (snd (steps 2 3 c0)). split; [|split; [|split]].
    + destruct (steps 2 3 c0) as [p s2]. cbn [fst] in H1. subst p. reflexivity.
    + apply regs_inv in H2. destruct H2 as (-> & _). reflexivity.
    + apply regs_inv in H2. destruct H2 as (_ & -> & _). reflexivity.
    + rewrite Hs in H3. exact H3.
  - intros n. apply steps_no_retry; [rewrite Hs; exact Hllt|discriminate].
  - unfold solve. fold c0. apply run_enough.
    + apply solve_start_iter_ok.
    + rewrite Hs. exact Hllt.
    + unfold statements_left, c0, solve_start. cbn [fst snd iter_ set_iter_]. lia.
Qed.

(** X18. With an engine that answers every system, as [Eigen::LLT] does,
    the [catch] block of [solve] is never entered: no control point of a
    [solve] is the retry of a direction computation, and every direction
    computation is a first attempt that completes, stores the answer of the
    engine for the freshly assembled system in [primaldual_], leaves the
    regularization as it was and is followed by [expectedImprovement]. *)
Theorem catch_block_is_never_entered init_xs init_us maxiter is_feasible reginit s n :
  never_refuses (kkt_llt_ s) ->
  let c := steps n maxiter (solve_start init_xs init_us is_feasible reginit s) in
  fst c <> AtDirection false
  /\ (fst c = AtDirection true ->
      fst (step maxiter c) = AtImprovement
      /\ regs (snd (step maxiter c)) = regs (snd c)
      /\ kkt_llt_ s (kkt_ (calc (snd c))) (vopp (kktref_ (calc (snd c))))
         = Some (primaldual_ (snd (step maxiter c)))).
Proof.
  intros Hllt c.
  assert (Hc : kkt_llt_ (snd c) = kkt_llt_ s)
    by (subst c; rewrite steps_llt; apply solve_start_llt).
  split.
  - subst c. apply steps_no_retry; [|discriminate].
    rewrite solve_start_llt. exact Hllt.
  - intros Hp. destruct c as [p sc]. cbn [fst snd] in *. subst p.
    destruct (direction_goes_on maxiter true sc) as (H1 & H2 & H3);
      [rewrite Hc; exact Hllt|].
    cbn zeta in H1, H2, H3. rewrite Hc in H3.
    split; [exact H1|]. split; [exact H2|exact H3].
Qed.

Lemma catch_block_is_never_entered_witness :
  let s := Scalar.solver (Scalar.problem 1 [Fin 3]) Scalar.llt_rhs in
  let c := steps 1 3 (solve_start [[Fin 3]; [Fin 1]] [[Fin 1]] false (Fin 1) s) in
  fst c <> AtDirection false
  /\ fst (step 3 c) = AtImprovement
  /\ regs (snd (step 3 c)) = regs (snd c).
Proof.
  intros s c.
  destruct (catch_block_is_never_entered [[Fin 3]; [Fin 1]] [[Fin 1]] 3 false (Fin 1) s 1
              ltac:(intros K b; discriminate)) as [H1 H2].
  split; [exact H1|].
  destruct (H2 eq_refl) as (H3 & H4 & _). split; [exact H3|exact H4].
Defined.

(** ** The stopping value *)










